(** * Obsidian: the quantum simulation core, embedded and verified

    A shallow embedding of [src/lib/quantum/core.ts] (the classes
    [QuantumProcessor] and [QuantumAlgorithms]), of
    [src/lib/quantum/optimization.ts] ([QuantumOptimizer]) and of the
    [QuantumAI] trainer of [src/lib/ai], followed by the properties of
    the specification that concern them and by further properties of
    the code.

    Numbers.  A JavaScript [number] is modelled as an extended real: a
    finite real, [+Infinity], [-Infinity] or [NaN].  The special values
    and the way they propagate (division by zero, square root of a
    negative, [Infinity - Infinity], comparison with [NaN]) follow
    IEEE 754; rounding, overflow and the sign of zero are not modelled.
    The integer operators [%], [&] and [>>] work on the truncation of
    the real, wrapped to 32 bits where JavaScript does.

    Randomness.  [Math.random()] reads the next element of a stream of
    draws [rnd : nat -> R]; the position in the stream is threaded
    through every effectful function by a small state monad. *)

From Stdlib Require Import String.
From Stdlib Require Import Reals Lra Lia List ZArith Bool.
Import ListNotations.

Set Implicit Arguments.

(* ================================================================= *)
(** ** JavaScript numbers *)

Inductive number : Type :=
| Fin (r : R)
| PInf
| NInf
| NaN.

Module JS.

Open Scope R_scope.

Definition Rltb (x y : R) : bool := if Rlt_dec x y then true else false.
Definition Reqb (x y : R) : bool := if Req_dec_T x y then true else false.

(** [±Infinity * r] for a finite [r]; [pos] is the sign of the infinity. *)
Definition inf_times (pos : bool) (r : R) : number :=
  if Reqb r 0 then NaN
  else if Rltb 0 r then (if pos then PInf else NInf)
       else (if pos then NInf else PInf).

Definition neg (x : number) : number :=
  match x with
  | Fin r => Fin (- r)
  | PInf => NInf
  | NInf => PInf
  | NaN => NaN
  end.

Definition add (x y : number) : number :=
  match x, y with
  | NaN, _ | _, NaN => NaN
  | Fin a, Fin b => Fin (a + b)
  | PInf, NInf | NInf, PInf => NaN
  | PInf, _ | _, PInf => PInf
  | NInf, _ | _, NInf => NInf
  end.

Definition sub (x y : number) : number :=
  match x, y with
  | NaN, _ | _, NaN => NaN
  | Fin a, Fin b => Fin (a - b)
  | PInf, PInf | NInf, NInf => NaN
  | PInf, _ | _, NInf => PInf
  | NInf, _ | _, PInf => NInf
  end.

Definition mul (x y : number) : number :=
  match x, y with
  | NaN, _ | _, NaN => NaN
  | Fin a, Fin b => Fin (a * b)
  | PInf, Fin b | Fin b, PInf => inf_times true b
  | NInf, Fin b | Fin b, NInf => inf_times false b
  | PInf, PInf | NInf, NInf => PInf
  | PInf, NInf | NInf, PInf => NInf
  end.

Definition div (x y : number) : number :=
  match x, y with
  | NaN, _ | _, NaN => NaN
  | Fin a, Fin b => if Reqb b 0 then inf_times true a else Fin (a / b)
  | Fin _, PInf | Fin _, NInf => Fin 0
  | PInf, Fin b => if Rltb b 0 then NInf else PInf
  | NInf, Fin b => if Rltb b 0 then PInf else NInf
  | _, _ => NaN
  end.

(** [Math.abs], [Math.sqrt], [Math.exp], [Math.sin], [Math.cos]. *)
Definition abs (x : number) : number :=
  match x with
  | Fin r => Fin (Rabs r)
  | PInf | NInf => PInf
  | NaN => NaN
  end.

Definition sqrt (x : number) : number :=
  match x with
  | Fin r => if Rltb r 0 then NaN else Fin (R_sqrt.sqrt r)
  | PInf => PInf
  | NInf | NaN => NaN
  end.

Definition exp (x : number) : number :=
  match x with
  | Fin r => Fin (Rtrigo_def.exp r)
  | PInf => PInf
  | NInf => Fin 0
  | NaN => NaN
  end.

Definition sin (x : number) : number :=
  match x with Fin r => Fin (Rtrigo_def.sin r) | _ => NaN end.

Definition cos (x : number) : number :=
  match x with Fin r => Fin (Rtrigo_def.cos r) | _ => NaN end.

(** [Math.pow(x, 2)]. *)
Definition pow2 (x : number) : number := mul x x.

(** [Math.floor] and [Math.log2]. *)
Definition floor (x : number) : number :=
  match x with Fin r => Fin (IZR (Int_part r)) | _ => x end.

Definition log2 (x : number) : number :=
  match x with
  | Fin r => if Rltb r 0 then NaN
             else if Reqb r 0 then NInf else Fin (ln r / ln 2)
  | PInf => PInf
  | NInf | NaN => NaN
  end.

(** [x < y]: false as soon as one side is [NaN]. *)
Definition ltb (x y : number) : bool :=
  match x, y with
  | NaN, _ | _, NaN => false
  | Fin a, Fin b => Rltb a b
  | _, NInf => false
  | NInf, _ => true
  | PInf, _ => false
  | Fin _, PInf => true
  end.

(** [x === y] on numbers. *)
Definition strict_eq (x y : number) : bool :=
  match x, y with
  | Fin a, Fin b => Reqb a b
  | PInf, PInf | NInf, NInf => true
  | _, _ => false
  end.

(** [Math.min(x, y)]: [NaN] as soon as one side is [NaN]. *)
Definition min (x y : number) : number :=
  match x, y with
  | NaN, _ | _, NaN => NaN
  | _, _ => if ltb y x then y else x
  end.

(** Truthiness of a number in a condition: [0] and [NaN] are falsy. *)
Definition truthy (x : number) : bool :=
  match x with
  | Fin r => negb (Reqb r 0)
  | NaN => false
  | PInf | NInf => true
  end.

(** The number of an array length or of a loop counter. *)
Definition of_nat (n : nat) : number := Fin (INR n).

(** The length an array constructor takes from a number (a non-negative
    integer in every use here; anything else gives the empty array). *)
Definition to_length (x : number) : nat :=
  match x with Fin r => Z.to_nat (Int_part r) | _ => O end.

Definition is_finite (x : number) : Prop := exists r, x = Fin r.

(** [lo <= x <= hi] for a finite [x]; no special value is in a range. *)
Definition in_range (lo hi : R) (x : number) : Prop :=
  exists r, x = Fin r /\ lo <= r <= hi.

(** Array read [a[i]]: out of range the read gives [undefined], which
    every arithmetic use turns into [NaN] and every [===] with a number
    answers false, as [NaN] does. *)
Definition array_get (a : list number) (i : nat) : number := nth i a NaN.

(** Array write [a[i] = v]: out of range JavaScript extends the array
    and leaves holes, which read as [undefined]. *)
Fixpoint array_set (a : list number) (i : nat) (v : number) : list number :=
  match i, a with
  | O, [] => [v]
  | O, _ :: t => v :: t
  | S i', [] => NaN :: array_set [] i' v
  | S i', h :: t => h :: array_set t i' v
  end.

(** [for (let i = start; i < bound; i += step) body(i)], for [step >= 1];
    [fuel] bounds the number of rounds and [bound] rounds always suffice. *)
Fixpoint for_range (St : Type) (fuel start bound step : nat)
         (body : nat -> St -> St) (s : St) : St :=
  match fuel with
  | O => s
  | S fuel' =>
      if (start <? bound)%nat
      then for_range fuel' (start + step) bound step body (body start s)
      else s
  end.

(** Integer operations.  [trunc] rounds a real toward zero; [x % y] is
    the remainder of the truncated division, with the sign of [x];
    [ToInt32] wraps the truncated value into [[-2^31, 2^31)] and sends
    the special values to 0; [&] and [>>] work on the [ToInt32] of their
    operands, [>>] taking the low five bits of the count. *)
Definition trunc (r : R) : Z :=
  if Rltb r 0 then (- Int_part (- r))%Z else Int_part r.

Definition rem (x y : number) : number :=
  match x, y with
  | Fin a, Fin b => if Reqb b 0 then NaN else Fin (a - b * IZR (trunc (a / b)))
  | Fin a, (PInf | NInf) => Fin a
  | _, _ => NaN
  end.

Definition to_int32 (x : number) : Z :=
  match x with
  | Fin r => ((trunc r + 2 ^ 31) mod 2 ^ 32 - 2 ^ 31)%Z
  | _ => 0%Z
  end.

Definition band (x y : number) : number :=
  Fin (IZR (Z.land (to_int32 x) (to_int32 y))).

Definition shr (x y : number) : number :=
  Fin (IZR (Z.shiftr (to_int32 x) (Z.land (to_int32 y) 31))).

End JS.

Declare Scope js_scope.
Delimit Scope js_scope with js.
Infix ".+" := JS.add (at level 50, left associativity) : js_scope.
Infix ".-" := JS.sub (at level 50, left associativity) : js_scope.
Infix ".*" := JS.mul (at level 40, left associativity) : js_scope.
Infix "./" := JS.div (at level 40, left associativity) : js_scope.
Infix ".<" := JS.ltb (at level 70, no associativity) : js_scope.
Infix "===" := JS.strict_eq (at level 70, no associativity) : js_scope.

(* ================================================================= *)
(** ** The ambient random source *)

Module Rand.

Open Scope R_scope.

(** The stream of future results of [Math.random()]. *)
Definition source := nat -> R.

(** Every draw lies in [[0, 1)]. *)
Definition fair (rnd : source) : Prop := forall n, 0 <= rnd n < 1.

(** A computation that reads draws: from the position of the next draw
    to a result and the new position. *)
Definition M (A : Type) : Type := nat -> A * nat.

Definition ret (A : Type) (a : A) : M A := fun k => (a, k).

Definition bind (A B : Type) (c : M A) (f : A -> M B) : M B :=
  fun k => let (a, k') := c k in f a k'.

Definition random (rnd : source) : M number :=
  fun k => (Fin (rnd k), S k).

(** [xs.map(f)] for an effectful callback, left to right. *)
Fixpoint mapM (A B : Type) (f : A -> M B) (xs : list A) : M (list B) :=
  match xs with
  | [] => ret []
  | x :: xs' =>
      bind (f x) (fun y => bind (mapM f xs') (fun ys => ret (y :: ys)))
  end.

(** [xs.reduce(f, init)] for an effectful callback. *)
Fixpoint foldM (A B : Type) (f : B -> A -> M B) (xs : list A) (acc : B)
  : M B :=
  match xs with
  | [] => ret acc
  | x :: xs' => bind (f acc x) (fun acc' => foldM f xs' acc')
  end.

End Rand.

Notation "x <- c ;; k" := (Rand.bind c (fun x => k))
  (at level 61, c at next level, right associativity).

(* ================================================================= *)
(** ** Types of [types/quantum.ts] *)

Record Complex : Type := mkComplex { real : number; imag : number }.

Record QuantumState : Type := mkQuantumState {
  qubits : list number;
  superposition : bool;
  entanglement : number;
  coherence : number
}.

Inductive GateType : Type :=
| Gate_H | Gate_X | Gate_Y | Gate_Z | Gate_CNOT
| Gate_RX | Gate_RY | Gate_RZ | Gate_T | Gate_S.

(** Qubit indices are array indices: natural numbers.  [control] and
    [angle] are optional properties. *)
Record QuantumGate : Type := mkQuantumGate {
  type : GateType;
  target : nat;
  control : option nat;
  angle : option number
}.

Record ProcessingResult : Type := mkProcessingResult {
  state : QuantumState;
  probability : number;
  confidence : number;
  executionTime : number
}.

Inductive ModelType : Type := quantum | classical | hybrid.

Record AIModel : Type := mkAIModel {
  model_type : ModelType;
  parameters : number;
  layers : number;
  accuracy : number;
  loss : number
}.

(* ================================================================= *)
(** ** [QuantumProcessor] (core.ts) *)

Module QuantumProcessor.

Open Scope R_scope.
Open Scope js_scope.

Record WaveFunctionCollapse : Type := mkWaveFunctionCollapse {
  amplitude : number;
  phase : number;
  wf_probability : number
}.

Record DecoherenceModel : Type := mkDecoherenceModel {
  T1 : number;
  T2 : number;
  environmentalNoise : number
}.

(** The mutable fields of the object; the read-only constants and the
    dispatch table follow as definitions. *)
Record t : Type := mkProcessor {
  this_state : QuantumState;
  decoherenceModel : DecoherenceModel
}.

Definition planckConstant : number := Fin 6.62607015e-34.
Definition boltzmannConstant : number := Fin 1.380649e-23.
Definition temperature : number := Fin 0.015.

Definition set_state (p : t) (s : QuantumState) : t :=
  mkProcessor s (decoherenceModel p).

Definition set_coherence (s : QuantumState) (c : number) : QuantumState :=
  mkQuantumState (qubits s) (superposition s) (entanglement s) c.

Definition set_qubits (s : QuantumState) (q : list number) : QuantumState :=
  mkQuantumState q (superposition s) (entanglement s) (coherence s).

Definition set_superposition (s : QuantumState) (b : bool) : QuantumState :=
  mkQuantumState (qubits s) b (entanglement s) (coherence s).

Definition set_entanglement (s : QuantumState) (e : number) : QuantumState :=
  mkQuantumState (qubits s) (superposition s) e (coherence s).

(** What a call leaves behind: it returned, or it threw. *)
Inductive outcome : Type :=
| Returned
| InvalidTargetQubit (target : nat)
| InvalidControlQubit (control : nat).

Section WithRandom.

Variable rnd : Rand.source.

Definition calculateWaveFunction (p : t) (qubit : nat)
  : Rand.M WaveFunctionCollapse :=
  let amplitude :=
    JS.sqrt (Fin 1 .- JS.pow2 (coherence (this_state p))) in
  u <- Rand.random rnd ;;
  let phase := Fin 2 .* Fin PI .* u in
  let probability := JS.pow2 amplitude in
  Rand.ret (mkWaveFunctionCollapse amplitude phase probability).

Definition applyDecoherenceEffects (p : t) : t :=
  let timeStep := Fin 1e-9 in
  let c1 := coherence (this_state p)
            .* JS.exp (JS.neg timeStep ./ T2 (decoherenceModel p)) in
  let thermalEnergy := boltzmannConstant .* temperature in
  let quantumEnergy := planckConstant .* Fin 1e9 in
  let thermalNoise := JS.exp (JS.neg quantumEnergy ./ thermalEnergy) in
  set_state p (set_coherence (this_state p) (c1 .* (Fin 1 .- thermalNoise))).

Definition calibrateQuantumRegisters (p : t) : Rand.M t :=
  qs <- Rand.mapM
          (fun qi : number * nat =>
             w <- calculateWaveFunction p (snd qi) ;;
             Rand.ret (fst qi .* (Fin 1 .- environmentalNoise (decoherenceModel p)
                                           .* wf_probability w)))
          (combine (qubits (this_state p))
                   (List.seq 0 (length (qubits (this_state p))))) ;;
  Rand.ret (set_state p (set_qubits (this_state p) qs)).

Definition applySurfaceCode (startIdx : nat) (p : t) : t :=
  let ancillaQubit := JS.array_get (qubits (this_state p)) startIdx in
  let q1 := JS.array_set (qubits (this_state p)) (startIdx + 1) ancillaQubit in
  let q2 := JS.array_set q1 (startIdx + 2) ancillaQubit in
  set_state p (set_qubits (this_state p) q2).

Definition initializeErrorCorrection (p : t) : t :=
  let n := length (qubits (this_state p)) in
  if (3 <=? n)%nat
  then JS.for_range n 0 (n - 2) 3 applySurfaceCode p
  else p.

Definition initializeQuantumSystem (p : t) : Rand.M t :=
  let p1 := applyDecoherenceEffects p in
  p2 <- calibrateQuantumRegisters p1 ;;
  Rand.ret (initializeErrorCorrection p2).

(** [new QuantumProcessor(qubits)]. *)
Definition constructor (n : nat) : Rand.M t :=
  initializeQuantumSystem
    (mkProcessor
       (mkQuantumState (repeat (Fin 0) n) false (Fin 0) (Fin 1.0))
       (mkDecoherenceModel (Fin 50e-6) (Fin 70e-6) (Fin 0.001))).

Definition validateGateOperation (gate : QuantumGate) (p : t) : outcome :=
  if (length (qubits (this_state p)) <=? target gate)%nat
  then InvalidTargetQubit (target gate)
  else match control gate with
       | Some c =>
           if (length (qubits (this_state p)) <=? c)%nat
           then InvalidControlQubit c
           else Returned
       | None => Returned
       end.

Definition hadamardGate (tgt : nat) (p : t) : Rand.M t :=
  w <- calculateWaveFunction p tgt ;;
  let s1 := set_superposition (this_state p) true in
  let s2 := set_coherence s1
              (coherence s1 .* (Fin 1 .- amplitude w .* JS.sin (phase w))) in
  u <- Rand.random rnd ;;
  let fluctuation := u .* environmentalNoise (decoherenceModel p) in
  Rand.ret (set_state p
              (set_coherence s2 (coherence s2 .* (Fin 1 .- fluctuation)))).

Definition pauliXGate (tgt : nat) (p : t) : Rand.M t :=
  let previousState := JS.array_get (qubits (this_state p)) tgt in
  w <- calculateWaveFunction p tgt ;;
  let noise := environmentalNoise (decoherenceModel p) in
  let v := if previousState === Fin 0
           then Fin 1 .- wf_probability w .* noise
           else Fin 0 .+ wf_probability w .* noise in
  Rand.ret (set_state p
              (set_qubits (this_state p)
                 (JS.array_set (qubits (this_state p)) tgt v))).

Definition updateEntanglementMetric (ctl tgt : nat) (p : t) : t :=
  let q := qubits (this_state p) in
  let entanglementStrength :=
    JS.abs (JS.array_get q ctl .* JS.array_get q tgt
            .- (Fin 1 .- JS.array_get q ctl) .* (Fin 1 .- JS.array_get q tgt)) in
  set_state p
    (set_entanglement (this_state p)
       (JS.min (Fin 1)
          (entanglement (this_state p) .+ entanglementStrength .* Fin 0.1))).

Definition cnotGate (tgt : nat) (ctl : option nat) (p : t) : Rand.M t :=
  match ctl with
  | None => Rand.ret p
  | Some c =>
      let controlState := JS.array_get (qubits (this_state p)) c in
      p1 <- (if controlState === Fin 1 then pauliXGate tgt p else Rand.ret p) ;;
      Rand.ret (updateEntanglementMetric c tgt p1)
  end.

(** The sum the two nested loops accumulate, in their order. *)
Definition pairSum (q : list number) : number :=
  let totalQubits := length q in
  fold_left
    (fun acc i =>
       fold_left
         (fun acc' j =>
            acc' .+ JS.abs
                      (JS.array_get q i .* JS.array_get q j
                       .- JS.sqrt ((Fin 1 .- JS.pow2 (JS.array_get q i))
                                   .* (Fin 1 .- JS.pow2 (JS.array_get q j)))))
         (List.seq (i + 1) (totalQubits - (i + 1))) acc)
    (List.seq 0 (totalQubits - 1)) (Fin 0).

Definition updateSystemEntanglement (p : t) : t :=
  let totalQubits := JS.of_nat (length (qubits (this_state p))) in
  let globalEntanglement := pairSum (qubits (this_state p)) in
  set_state p
    (set_entanglement (this_state p)
       (JS.min (Fin 1)
          (globalEntanglement
           ./ (totalQubits .* (totalQubits .- Fin 1) ./ Fin 2)))).

(** The dispatch table [gateOperations]: three kinds have an entry. *)
Definition gateOperations (k : GateType)
  : option (nat -> option nat -> t -> Rand.M t) :=
  match k with
  | Gate_H => Some (fun tgt _ => hadamardGate tgt)
  | Gate_X => Some (fun tgt _ => pauliXGate tgt)
  | Gate_CNOT => Some cnotGate
  | _ => None
  end.

(** [applyGate] returns the way the call ended and the object as the
    call left it. *)
Definition applyGate (gate : QuantumGate) (p : t) : Rand.M (outcome * t) :=
  match validateGateOperation gate p with
  | Returned =>
      match gateOperations (type gate) with
      | Some operation =>
          p1 <- operation (target gate) (control gate) p ;;
          let p2 := applyDecoherenceEffects p1 in
          Rand.ret (Returned, updateSystemEntanglement p2)
      | None => Rand.ret (Returned, p)
      end
  | thrown => Rand.ret (thrown, p)
  end.

Definition calculateSystemEnergy (p : t) : Rand.M number :=
  Rand.foldM
    (fun energy (qi : number * nat) =>
       w <- calculateWaveFunction p (snd qi) ;;
       Rand.ret (energy .+ amplitude w .* JS.cos (phase w) .* planckConstant))
    (combine (qubits (this_state p))
             (List.seq 0 (length (qubits (this_state p)))))
    (Fin 0).

Definition calculateMeasurementFidelity (p : t) : number :=
  let environmentalDecoherence :=
    Fin 1 .- environmentalNoise (decoherenceModel p) in
  let thermalNoise :=
    temperature .* boltzmannConstant ./ (planckConstant .* Fin 1e9) in
  coherence (this_state p) .* environmentalDecoherence .* (Fin 1 .- thermalNoise).

Definition calculateExecutionTime : Rand.M number :=
  let gateOperationTime := Fin 20e-9 in
  let readoutTime := Fin 100e-9 in
  u <- Rand.random rnd ;;
  let processingOverhead := u .* Fin 50e-9 in
  Rand.ret ((gateOperationTime .+ readoutTime .+ processingOverhead) .* Fin 1e9).

(** [measure] returns the report and the object as the call left it. *)
Definition measure (p : t) : Rand.M (ProcessingResult * t) :=
  let p1 := applyDecoherenceEffects p in
  measurementResults <-
    Rand.mapM
      (fun qi : number * nat =>
         w <- calculateWaveFunction p1 (snd qi) ;;
         u <- Rand.random rnd ;;
         Rand.ret (if u .< wf_probability w then Fin 1 else fst qi))
      (combine (qubits (this_state p1))
               (List.seq 0 (length (qubits (this_state p1))))) ;;
  systemEnergy <- calculateSystemEnergy p1 ;;
  let measurementFidelity := calculateMeasurementFidelity p1 in
  time <- calculateExecutionTime ;;
  Rand.ret
    (mkProcessingResult
       (set_qubits (this_state p1) measurementResults)
       measurementFidelity
       (coherence (this_state p1))
       time,
     p1).

End WithRandom.

End QuantumProcessor.

(* ================================================================= *)
(** ** [QuantumAlgorithms] (core.ts) *)

Module QuantumAlgorithms.

Open Scope R_scope.
Open Scope js_scope.

Section WithRandom.

Variable rnd : Rand.source.

Definition performBellMeasurement (st entangledQubit : Complex)
  : Rand.M (number * number) :=
  u1 <- Rand.random rnd ;;
  let measurement1 := if u1 .< JS.pow2 (real st) then Fin 1 else Fin 0 in
  u2 <- Rand.random rnd ;;
  let measurement2 :=
    if u2 .< JS.pow2 (real entangledQubit) then Fin 1 else Fin 0 in
  Rand.ret (measurement1, measurement2).

End WithRandom.

Definition pauliX (qubit : Complex) : Complex :=
  mkComplex (imag qubit) (real qubit).

Definition pauliZ (qubit : Complex) : Complex :=
  mkComplex (real qubit) (JS.neg (imag qubit)).

Definition applyTeleportationCorrections
           (qubit : Complex) (measurements : number * number) : Complex :=
  let corrected := mkComplex (real qubit) (imag qubit) in
  let corrected :=
    if JS.truthy (snd measurements) then pauliX corrected else corrected in
  let corrected :=
    if JS.truthy (fst measurements) then pauliZ corrected else corrected in
  corrected.

Definition quantumTeleport (rnd : Rand.source)
           (st : Complex) (bellPair : Complex * Complex)
  : Rand.M ((number * number) * Complex) :=
  bellMeasurement <- performBellMeasurement rnd st (fst bellPair) ;;
  Rand.ret (bellMeasurement,
            applyTeleportationCorrections (snd bellPair) bellMeasurement).

(** Complex number operations. *)
Definition addComplex (a b : Complex) : Complex :=
  mkComplex (real a .+ real b) (imag a .+ imag b).

Definition subtractComplex (a b : Complex) : Complex :=
  mkComplex (real a .- real b) (imag a .- imag b).

Definition multiplyComplex (a b : Complex) : Complex :=
  mkComplex (real a .* real b .- imag a .* imag b)
            (real a .* imag b .+ imag a .* real b).

Definition scaleComplex (a : Complex) (scalar : number) : Complex :=
  mkComplex (real a .* scalar) (imag a .* scalar).

(** [xs[i]] and [xs[i] = v] on an array of complex numbers.  Every index
    used below is in range; out of range the read gives a pair of
    [NaN] and the write does nothing. *)
Definition at_index (xs : list Complex) (i : nat) : Complex :=
  nth i xs (mkComplex NaN NaN).

Fixpoint put (xs : list Complex) (i : nat) (v : Complex) : list Complex :=
  match xs, i with
  | [], _ => []
  | _ :: t, O => v :: t
  | h :: t, S i' => h :: put t i' v
  end.

Definition quantumFourierTransform (amplitudes : list Complex)
  : list Complex :=
  let N := length amplitudes in
  let result := repeat (mkComplex (Fin 0) (Fin 0)) N in
  JS.for_range N 0 N 1
    (fun k result =>
       let result :=
         JS.for_range N 0 N 1
           (fun n result =>
              let angle :=
                (Fin 2 .* Fin PI .* JS.of_nat k .* JS.of_nat n)
                ./ JS.of_nat N in
              let expTerm :=
                mkComplex (JS.cos angle) (JS.neg (JS.sin angle)) in
              put result k
                  (addComplex (at_index result k)
                              (multiplyComplex (at_index amplitudes n)
                                               expTerm)))
           result in
       put result k
           (scaleComplex (at_index result k)
                         (Fin 1 ./ JS.sqrt (JS.of_nat N))))
    result.

Definition groverDiffusion (st : list Complex) : list Complex :=
  let N := JS.of_nat (length st) in
  let average :=
    fold_left (fun acc val => addComplex acc (scaleComplex val (Fin 1 ./ N)))
              st (mkComplex (Fin 0) (Fin 0)) in
  map (fun amplitude =>
         let scaled := scaleComplex average (Fin 2) in
         subtractComplex (scaleComplex scaled N) amplitude)
      st.

(** The [while] loop of [modularExponentiation]; [None] when [fuel]
    rounds were not enough to leave it. *)
Fixpoint modularExponentiationLoop (fuel : nat)
         (result base exponent modulus : number) : option number :=
  match fuel with
  | O => None
  | S fuel' =>
      if Fin 0 .< exponent
      then
        let result :=
          if JS.truthy (JS.band exponent (Fin 1))
          then JS.rem (result .* base) modulus
          else result in
        let base := JS.rem (base .* base) modulus in
        let exponent := JS.shr exponent (Fin 1) in
        modularExponentiationLoop fuel' result base exponent modulus
      else Some result
  end.

Definition modularExponentiation (fuel : nat)
           (base exponent modulus : number) : option number :=
  if modulus === Fin 1 then Some (Fin 0)
  else modularExponentiationLoop fuel (Fin 1) (JS.rem base modulus)
                                 exponent modulus.

Definition createLogicalZero : list Complex :=
  [mkComplex (Fin 1) (Fin 0); mkComplex (Fin 0) (Fin 0);
   mkComplex (Fin 0) (Fin 0); mkComplex (Fin 0) (Fin 0);
   mkComplex (Fin 0) (Fin 0); mkComplex (Fin 0) (Fin 0);
   mkComplex (Fin 0) (Fin 0)].

Definition createLogicalOne : list Complex :=
  [mkComplex (Fin 0) (Fin 0); mkComplex (Fin 0) (Fin 0);
   mkComplex (Fin 0) (Fin 0); mkComplex (Fin 1) (Fin 0);
   mkComplex (Fin 0) (Fin 0); mkComplex (Fin 0) (Fin 0);
   mkComplex (Fin 0) (Fin 0)].

Definition steaneEncode (qubit : Complex) : list Complex :=
  let encoded := repeat (mkComplex (Fin 0) (Fin 0)) 7 in
  let logicalZero := createLogicalZero in
  let logicalOne := createLogicalOne in
  map (fun i =>
         addComplex (scaleComplex (at_index logicalZero i) (real qubit))
                    (scaleComplex (at_index logicalOne i) (imag qubit)))
      (List.seq 0 (length encoded)).

End QuantumAlgorithms.

(* ================================================================= *)
(** ** [QuantumOptimizer] (optimization.ts) *)

(** An access that JavaScript answers with a [TypeError] (a property of
    [undefined]) is [None]; the error aborts the whole call. *)
Notation "'let?' x ':=' c 'in' k" :=
  (match c with Some x => k | None => None end)
  (at level 10, x name, c at level 100, k at level 200).

Module QuantumOptimizer.

Open Scope R_scope.
Open Scope js_scope.

Definition MAX_ITERATIONS : nat := 1000.
Definition CONVERGENCE_THRESHOLD : number := Fin 1e-6.
Definition LEARNING_RATE : number := Fin 0.01.

Definition Matrix : Type := list (list Complex).

Definition zero : Complex := mkComplex (Fin 0) (Fin 0).

(** [m[i][j]], read for one of its properties: [None] when the row or
    the entry does not exist. *)
Definition entry (m : Matrix) (i j : nat) : option Complex :=
  let? row := nth_error m i in nth_error row j.

(** [xs.map(f)] where the callback may throw. *)
Fixpoint map_throw (A B : Type) (f : A -> option B) (xs : list A)
  : option (list B) :=
  match xs with
  | [] => Some []
  | x :: xs' =>
      let? y := f x in
      let? ys := map_throw f xs' in
      Some (y :: ys)
  end.

(** [xs.reduce(f, init)] where the callback may throw. *)
Fixpoint reduce_throw (A B : Type) (f : B -> A -> option B)
         (xs : list A) (acc : B) : option B :=
  match xs with
  | [] => Some acc
  | x :: xs' => let? acc' := f acc x in reduce_throw f xs' acc'
  end.

(** A list paired with the indices of its elements. *)
Definition indexed (A : Type) (xs : list A) : list (A * nat) :=
  combine xs (List.seq 0 (length xs)).

Definition regularizeQuantumFisher (fisher : Matrix) : Matrix :=
  let epsilon := Fin 1e-5 in
  map (fun row =>
         map (fun element =>
                mkComplex (real element .+ epsilon) (imag element))
             row)
      fisher.

(** [a[i] = v] inside the array; the writes of this class all are. *)
Fixpoint set_nth (A : Type) (a : list A) (i : nat) (v : A) : list A :=
  match a, i with
  | [], _ => []
  | _ :: t, O => v :: t
  | h :: t, S i' => h :: set_nth t i' v
  end.

(** [result[i][j] = v]. *)
Definition set_entry (m : Matrix) (i j : nat) (v : Complex) : Matrix :=
  match nth_error m i with
  | Some row => set_nth m i (set_nth row j v)
  | None => m
  end.

Definition inverseMatrix (matrix : Matrix) : option Matrix :=
  let n := length matrix in
  let result : Matrix := repeat (repeat zero n) n in
  reduce_throw
    (fun (result : Matrix) i =>
       let? mii := entry matrix i i in
       Some (set_entry result i i
                       (mkComplex (Fin 1 ./ real mii) (Fin 0))))
    (List.seq 0 n) result.

(** The sum over [j] and the final update keep the order of the
    operations of the source,
    [update += inverse[i][j].real * gradient[j]] and then
    [param - LEARNING_RATE * update]; the products and the sums are
    those of extended reals, so a product that a double would round or
    overflow is exact here. *)
Definition quantumNaturalGradient
           (parameters : list number) (quantumFisher : Matrix)
           (gradient : list number) : option (list number) :=
  let regularized := regularizeQuantumFisher quantumFisher in
  let? inverse := inverseMatrix regularized in
  map_throw
    (fun (pi : number * nat) =>
       let? update :=
         reduce_throw
           (fun update j =>
              let? inv_ij := entry inverse (snd pi) j in
              Some (update .+ real inv_ij .* JS.array_get gradient j))
           (List.seq 0 (length gradient)) (Fin 0) in
       Some (fst pi .- LEARNING_RATE .* update))
    (indexed parameters).

Definition evolveState (st : list Complex) (hamiltonian : Matrix)
           (dt : number) : option (list Complex) :=
  map_throw
    (fun (si : Complex * nat) =>
       reduce_throw
         (fun acc (sj : Complex * nat) =>
            let s := fst sj in
            let? h := entry hamiltonian (snd si) (snd sj) in
            Some (mkComplex
                    (real acc .+ (real h .* real s .- imag h .* imag s) .* dt)
                    (imag acc .+ (real h .* imag s .+ imag h .* real s) .* dt)))
         (indexed st) zero)
    (indexed st).

(** The norm is the square root of the sum of the squares, taken over
    extended reals: a sum that overflows to [Infinity] or underflows
    to 0 on doubles is exact here, so what is proved of the norm of
    the result holds in exact arithmetic only. *)
Definition normalizeState (st : list Complex) : list Complex :=
  let norm :=
    JS.sqrt
      (fold_left (fun acc s => acc .+ real s .* real s .+ imag s .* imag s)
                 st (Fin 0)) in
  map (fun s => mkComplex (real s ./ norm) (imag s ./ norm)) st.

(** The body of the [for] loop, [timeSteps] times. *)
Fixpoint evolutionLoop (hamiltonian : Matrix) (dt : number)
         (timeSteps : nat) (st : list Complex) : option (list Complex) :=
  match timeSteps with
  | O => Some st
  | S k =>
      let? st1 := evolveState st hamiltonian dt in
      evolutionLoop hamiltonian dt k (normalizeState st1)
  end.

Definition imaginaryTimeEvolution
           (hamiltonian : Matrix) (initialState : list Complex)
           (evolutionTime : number) (timeSteps : nat)
  : option (list Complex) :=
  let dt := evolutionTime ./ JS.of_nat timeSteps in
  evolutionLoop hamiltonian dt timeSteps initialState.

(** [idx % 2 ? 1 : -1]. *)
Definition alternate (idx : nat) : number :=
  if Nat.eqb (idx mod 2) 0 then Fin (-1) else Fin 1.

Definition evaluateQAOAObjective
           (parameters : list number) (costH mixingH : Matrix) (depth : nat)
  : number * list number :=
  let energy :=
    fold_left (fun acc (pi : number * nat) =>
                 acc .+ JS.cos (fst pi) .* alternate (snd pi))
              (indexed parameters) (Fin 0) in
  let gradient :=
    map (fun pi : number * nat =>
           JS.neg (JS.sin (fst pi)) .* alternate (snd pi))
        (indexed parameters) in
  (energy, gradient).

Definition updateParameters (parameters gradient : list number)
  : list number :=
  map (fun pi : number * nat =>
         fst pi .- LEARNING_RATE .* JS.array_get gradient (snd pi))
      (indexed parameters).

(** What [optimizeQAOA] returns, with the value its local counter
    [iteration] has on return. *)
Record QAOAResult : Type := mkQAOAResult {
  qaoa_parameters : list number;
  energy : number;
  iteration : nat
}.

(** The [while] loop; [None] when [fuel] rounds were not enough to
    leave it. *)
Fixpoint qaoaLoop (costH mixingH : Matrix) (depth : nat) (fuel : nat)
         (parameters : list number) (currentEnergy : number)
         (iteration : nat) : option QAOAResult :=
  match fuel with
  | O => None
  | S fuel' =>
      if (iteration <? MAX_ITERATIONS)%nat
      then
        let (energy, gradient) :=
          evaluateQAOAObjective parameters costH mixingH depth in
        if JS.abs (energy .- currentEnergy) .< CONVERGENCE_THRESHOLD
        then Some (mkQAOAResult parameters currentEnergy iteration)
        else qaoaLoop costH mixingH depth fuel'
                      (updateParameters parameters gradient)
                      energy (S iteration)
      else Some (mkQAOAResult parameters currentEnergy iteration)
  end.

Definition evaluateVQEObjective
           (parameters : list number) (hamiltonian : Matrix)
           (ansatz : list number -> Matrix)
  : number * list number :=
  let eigenvalue :=
    fold_left (fun acc param => acc .+ JS.pow2 (JS.cos param))
              parameters (Fin 0) in
  let gradient :=
    map (fun param => Fin (-2) .* JS.cos param .* JS.sin param) parameters in
  (eigenvalue, gradient).

(** What [optimizeVQE] returns, with the value its local counter
    [iteration] has on return. *)
Record VQEResult : Type := mkVQEResult {
  vqe_parameters : list number;
  eigenvalue : number;
  vqe_iteration : nat
}.

(** The [while] loop of [optimizeVQE]; [None] when [fuel] rounds were
    not enough to leave it. *)
Fixpoint vqeLoop (hamiltonian : Matrix) (ansatz : list number -> Matrix)
         (fuel : nat) (parameters : list number) (currentEigenvalue : number)
         (iteration : nat) : option VQEResult :=
  match fuel with
  | O => None
  | S fuel' =>
      if (iteration <? MAX_ITERATIONS)%nat
      then
        let (eigenvalue, gradient) :=
          evaluateVQEObjective parameters hamiltonian ansatz in
        if JS.abs (eigenvalue .- currentEigenvalue) .< CONVERGENCE_THRESHOLD
        then Some (mkVQEResult parameters currentEigenvalue iteration)
        else vqeLoop hamiltonian ansatz fuel'
                     (updateParameters parameters gradient)
                     eigenvalue (S iteration)
      else Some (mkVQEResult parameters currentEigenvalue iteration)
  end.

Section WithRandom.

Variable rnd : Rand.source.

Definition initializeRandomParameters (count : nat)
  : Rand.M (list number) :=
  Rand.mapM
    (fun _ : nat =>
       u <- Rand.random rnd ;;
       Rand.ret ((u .- Fin 0.5) .* Fin 2 .* Fin PI))
    (List.seq 0 count).

Definition optimizeQAOA (fuel : nat) (costHamiltonian mixingHamiltonian : Matrix)
           (depth : nat) : Rand.M (option QAOAResult) :=
  parameters <- initializeRandomParameters (2 * depth) ;;
  Rand.ret (qaoaLoop costHamiltonian mixingHamiltonian depth fuel
                     parameters PInf 0).

Definition optimizeVQE (fuel : nat) (hamiltonian : Matrix)
           (ansatz : list number -> Matrix) : Rand.M (option VQEResult) :=
  parameters <- initializeRandomParameters 10 ;;
  Rand.ret (vqeLoop hamiltonian ansatz fuel parameters PInf 0).

End WithRandom.

End QuantumOptimizer.

(* ================================================================= *)
(** ** [QuantumAI]: the quantum-neural trainer *)

Module QuantumAI.

Open Scope R_scope.
Open Scope js_scope.
Open Scope string_scope.

Inductive EntanglementPattern : Type := linear | full | circular.

Record NeuralArchitecture : Type := mkNeuralArchitecture {
  inputDimension : number;
  hiddenLayers : list number;
  outputDimension : number;
  activationFunctions : list string
}.

Record QuantumLayer : Type := mkQuantumLayer {
  layer_qubits : number;
  entanglementPattern : EntanglementPattern;
  gateSequence : list string
}.

Record HybridOptimizer : Type := mkHybridOptimizer {
  classicalOptimizer : string;
  quantumOptimizer : string;
  learningRate : number;
  momentum : number;
  quantumNoiseThreshold : number
}.

(** [quantumMemory]: the key [layer_<idx>] is the index [idx]; a value
    is the content of a [Float64Array]. *)
Definition Memory : Type := nat -> option (list number).

Definition memory_set (m : Memory) (key : nat) (v : list number) : Memory :=
  fun k => if Nat.eqb k key then Some v else m k.

Record t : Type := mkQuantumAI {
  model : AIModel;
  architecture : NeuralArchitecture;
  quantumLayers : list QuantumLayer;
  optimizer : HybridOptimizer;
  quantumMemory : Memory
}.

Definition maxQubits : number := Fin 50.
Definition coherenceTime : number := Fin 100e-6.

(** [Math.max(x, y)]. *)
Definition max (x y : number) : number :=
  match x, y with
  | NaN, _ | _, NaN => NaN
  | _, _ => if x .< y then y else x
  end.

(** A write into a [Float64Array]: ignored outside the array. *)
Fixpoint typed_set (a : list number) (i : nat) (v : number) : list number :=
  match a, i with
  | [], _ => []
  | _ :: t, O => v :: t
  | h :: t, S i' => h :: typed_set t i' v
  end.

Definition calculateQuantumParameters (layers : number) : number :=
  JS.floor (layers .* maxQubits
            .* (Fin 1 .- JS.exp (JS.neg layers ./ coherenceTime))).

Definition calculateParameters (layers : number) : number :=
  let baseParams := layers .* Fin 1000 in
  let quantumParams := calculateQuantumParameters layers in
  baseParams .+ quantumParams.

Definition generateHiddenLayerStructure (layers : nat) : list number :=
  map (fun i =>
         let layerSize :=
           JS.floor (Fin 256 .* JS.exp (JS.neg (JS.of_nat i) ./ JS.of_nat layers)
                     .+ Fin 64 .* JS.sin (JS.of_nat i .* Fin PI ./ JS.of_nat layers)) in
         max (Fin 32) layerSize)
      (List.seq 0 layers).

Definition baseGates : list string := ["H"; "CNOT"; "RX"; "RY"; "RZ"].

(** [baseGates[idx]]; outside the array the element is [undefined],
    which only ever reaches the [default] branch of [applyQuantumGate]. *)
Definition baseGate (idx : number) : string :=
  match idx with
  | Fin r =>
      if (Int_part r <? 0)%Z then "undefined"
      else nth (Z.to_nat (Int_part r)) baseGates "undefined"
  | _ => "undefined"
  end.

(** [for (let i = start; i < bound; i += step) body(i)] for a body that
    reads random draws. *)
Fixpoint for_rangeM (St : Type) (fuel start bound step : nat)
         (body : nat -> St -> Rand.M St) (s : St) : Rand.M St :=
  match fuel with
  | O => Rand.ret s
  | S fuel' =>
      if (start <? bound)%nat
      then s' <- body start s ;;
           for_rangeM fuel' (start + step) bound step body s'
      else Rand.ret s
  end.

Section WithRandom.

Variable rnd : Rand.source.

Definition generateQuantumGateSequence (layer : nat) : Rand.M (list string) :=
  let sequenceLength :=
    JS.floor (Fin 5 .* JS.log2 (JS.of_nat layer .+ Fin 2)) in
  Rand.mapM
    (fun _ : nat =>
       u <- Rand.random rnd ;;
       let idx := JS.floor (u .* JS.of_nat (length baseGates)) in
       Rand.ret (baseGate idx))
    (List.seq 0 (JS.to_length sequenceLength)).

Definition initializeQuantumLayers (layers : nat)
  : Rand.M (list QuantumLayer) :=
  Rand.mapM
    (fun i =>
       gs <- generateQuantumGateSequence i ;;
       Rand.ret
         (mkQuantumLayer
            (JS.min maxQubits
                    (JS.floor (Fin 10 .* JS.log2 (JS.of_nat i .+ Fin 2))))
            (if Nat.eqb (i mod 3) 0 then full
             else if Nat.eqb (i mod 2) 0 then circular else linear)
            gs))
    (List.seq 0 layers).

Definition initializeHybridOptimizer (m : AIModel) : HybridOptimizer :=
  mkHybridOptimizer
    "adam" "quantum_natural_gradient"
    (Fin 0.001 .* JS.exp (JS.neg (layers m) ./ Fin 10))
    (Fin 0.9) (Fin 0.01).

Definition initializeQuantumRegisters (ai : t) : Rand.M t :=
  mem <- Rand.foldM
           (fun (mem : Memory) (li : QuantumLayer * nat) =>
              let registerSize :=
                JS.to_length (layer_qubits (fst li) .* Fin 2) in
              register <-
                for_rangeM registerSize 0 registerSize 2
                  (fun i reg =>
                     u <- Rand.random rnd ;;
                     let theta := u .* Fin PI in
                     Rand.ret (typed_set
                                 (typed_set reg i (JS.cos theta))
                                 (i + 1) (JS.sin theta)))
                  (repeat (Fin 0) registerSize) ;;
              Rand.ret (memory_set mem (snd li) register))
           (combine (quantumLayers ai)
                    (List.seq 0 (length (quantumLayers ai))))
           (quantumMemory ai) ;;
  Rand.ret (mkQuantumAI (model ai) (architecture ai) (quantumLayers ai)
                        (optimizer ai) mem).

(** [new QuantumAI(layers)]. *)
Definition constructor (layers : nat) : Rand.M t :=
  let model :=
    mkAIModel hybrid (calculateParameters (JS.of_nat layers))
              (JS.of_nat layers) (Fin 0) (Fin 1.0) in
  let architecture :=
    mkNeuralArchitecture
      (Fin 128) (generateHiddenLayerStructure layers) (Fin 64)
      ["quantum_relu"; "quantum_tanh"; "hybrid_sigmoid"] in
  quantumLayers <- initializeQuantumLayers layers ;;
  let optimizer := initializeHybridOptimizer model in
  initializeQuantumRegisters
    (mkQuantumAI model architecture quantumLayers optimizer (fun _ => None)).

Definition applyQuantumGate (gate : string) (re im error : number)
  : number * number :=
  if String.eqb gate "H" then
    ((re .+ im) ./ JS.sqrt (Fin 2) .* (Fin 1 .- error),
     (re .- im) ./ JS.sqrt (Fin 2) .* (Fin 1 .- error))
  else if String.eqb gate "RX" then
    (re .* JS.cos error .- im .* JS.sin error,
     im .* JS.cos error .+ re .* JS.sin error)
  else
    (re .* (Fin 1 .- error), im .* (Fin 1 .- error)).

(** Returns the loss and the register as the call leaves it. *)
Definition simulateQuantumOperations
           (ai : t) (layer : QuantumLayer) (register : list number)
  : Rand.M (number * list number) :=
  Rand.foldM
    (fun (acc : number * list number) gate =>
       u <- Rand.random rnd ;;
       let gateError := u .* quantumNoiseThreshold (optimizer ai) in
       let loss := fst acc .+ gateError in
       let n := length (snd acc) in
       let reg :=
         JS.for_range n 0 n 2
           (fun i reg =>
              let (re, im) :=
                applyQuantumGate gate (JS.array_get reg i)
                                 (JS.array_get reg (i + 1)) gateError in
              typed_set (typed_set reg i re) (i + 1) im)
           (snd acc) in
       Rand.ret (loss, reg))
    (gateSequence layer) (Fin 0, register).

Definition applyQuantumNoiseReduction
           (ai : t) (register : list number) (epoch : nat) : list number :=
  let noiseReduction :=
    JS.exp (JS.neg (JS.of_nat epoch) ./ layers (model ai)) in
  map (fun x =>
         x .* (Fin 1 .- quantumNoiseThreshold (optimizer ai) .* noiseReduction))
      register.

(** Returns the epoch loss and the object as the call leaves it. *)
Definition trainEpoch (ai : t) (epoch : nat) : Rand.M (number * t) :=
  r <- Rand.foldM
         (fun (acc : number * Memory) (li : QuantumLayer * nat) =>
            match snd acc (snd li) with
            | None => Rand.ret acc
            | Some quantumRegister =>
                lr <- simulateQuantumOperations ai (fst li) quantumRegister ;;
                let epochLoss := fst acc .+ fst lr in
                let reg := applyQuantumNoiseReduction ai (snd lr) epoch in
                Rand.ret (epochLoss, memory_set (snd acc) (snd li) reg)
            end)
         (combine (quantumLayers ai)
                  (List.seq 0 (length (quantumLayers ai))))
         (Fin 0, quantumMemory ai) ;;
  Rand.ret (fst r ./ JS.of_nat (length (quantumLayers ai)),
            mkQuantumAI (model ai) (architecture ai) (quantumLayers ai)
                        (optimizer ai) (snd r)).

Definition updateModelMetrics (ai : t) (epochLoss : number) (epoch : nat) : t :=
  let m := model ai in
  let accuracyImprovement :=
    (Fin 1 .- accuracy m) .* Fin 0.1 .* JS.exp (JS.neg epochLoss)
    .* (Fin 1 .- JS.of_nat epoch ./ (layers m .* Fin 2)) in
  let accuracy' := JS.min (Fin 1) (accuracy m .+ accuracyImprovement) in
  let loss' :=
    epochLoss .* JS.exp (JS.neg (JS.of_nat epoch) ./ layers m)
    .+ quantumNoiseThreshold (optimizer ai) in
  mkQuantumAI
    (mkAIModel (model_type m) (parameters m) (layers m) accuracy' loss')
    (architecture ai) (quantumLayers ai) (optimizer ai) (quantumMemory ai).

(** The epochs [epoch], [epoch + 1], ..., [epoch + count - 1] of the
    loop of [train]. *)
Fixpoint trainFrom (count epoch : nat) (ai : t) : Rand.M t :=
  match count with
  | O => Rand.ret ai
  | S count' =>
      r <- trainEpoch ai epoch ;;
      trainFrom count' (S epoch) (updateModelMetrics (snd r) (fst r) epoch)
  end.

Definition train (epochs : nat) (ai : t) : Rand.M t := trainFrom epochs 0 ai.

End WithRandom.

Section WithClock.

Variable rnd : Rand.source.

(** [Date.now()]: the reading that the call for element [n] of the
    input makes. *)
Variable now : nat -> R.

Definition calculateQuantumNoise (ai : t) (n : nat) : Rand.M number :=
  let coherenceFactor :=
    JS.exp (JS.neg (Fin (now n)) ./ (coherenceTime .* Fin 1e6)) in
  u <- Rand.random rnd ;;
  Rand.ret ((u .- Fin 0.5) .* quantumNoiseThreshold (optimizer ai)
            .* coherenceFactor).

Definition predict (ai : t) (input : list number) : Rand.M (list number) :=
  Rand.mapM
    (fun xn : number * nat =>
       quantumNoise <- calculateQuantumNoise ai (snd xn) ;;
       u <- Rand.random rnd ;;
       let classicalNoise :=
         (u .- Fin 0.5) .* (Fin 1 .- accuracy (model ai)) in
       Rand.ret (max (Fin 0)
                     (JS.min (Fin 1)
                             (fst xn .+ quantumNoise .+ classicalNoise))))
    (combine input (List.seq 0 (length input))).

End WithClock.

Definition getModelStats (ai : t) : AIModel :=
  let m := model ai in
  mkAIModel (model_type m) (parameters m) (layers m) (accuracy m) (loss m).

End QuantumAI.

(* ================================================================= *)
(** ** Vocabulary of the properties *)

Module Props.

Import QuantumProcessor.
Open Scope R_scope.
Open Scope js_scope.

(** *** Streams of draws *)

(** A stream of draws that are all zero. *)
Definition zeros : Rand.source := fun _ => 0.

(** A stream whose draws are all 0.75. *)
Definition three_quarters : Rand.source := fun _ => 0.75.

(** *** The processor *)

(** The two factors of one decoherence step: dephasing over one
    nanosecond, and one minus the thermal noise. *)
Definition dephasing : R := exp (- (1e-9) / 70e-6).
Definition thermal : R :=
  1 - exp (- (6.62607015e-34 * 1e9) / (1.380649e-23 * 0.015)).

(** The decoherence model every constructed processor carries. *)
Definition standardModel : DecoherenceModel :=
  mkDecoherenceModel (Fin 50e-6) (Fin 70e-6) (Fin 0.001).

(** What neither the calibration nor the error-correction set-up
    touches. *)
Definition same_scalars (p q : t) : Prop :=
  coherence (this_state q) = coherence (this_state p)
  /\ entanglement (this_state q) = entanglement (this_state p)
  /\ superposition (this_state q) = superposition (this_state p)
  /\ decoherenceModel q = decoherenceModel p.

(** The exponent of the thermal noise: quantum energy over thermal
    energy. *)
Definition ratio : R := (6.62607015e-34 * 1e9) / (1.380649e-23 * 0.015).

(** A client of a processor: a sequence of calls on the object.  A
    call of [applyGate] that throws is caught, and leaves the object as
    it was; the report of a [measure] in the sequence is dropped. *)
Inductive call : Type :=
| ApplyGate (gate : QuantumGate)
| Measure.

Fixpoint drive (rnd : Rand.source) (cs : list call) (p : t) : Rand.M t :=
  match cs with
  | [] => Rand.ret p
  | ApplyGate gate :: cs' =>
      r <- applyGate rnd gate p ;; drive rnd cs' (snd r)
  | Measure :: cs' =>
      r <- measure rnd p ;; drive rnd cs' (snd r)
  end.

(** A call that applies a gate of kind H. *)
Definition is_H (c : call) : Prop :=
  match c with
  | ApplyGate gate => type gate = Gate_H
  | Measure => False
  end.

(** The invariant of a processor of [n] qubits on which no Hadamard
    gate was applied. *)
Definition healthy (n : nat) (p : t) : Prop :=
  decoherenceModel p = standardModel
  /\ (exists c, coherence (this_state p) = Fin c /\ 0 < c < 1)
  /\ length (qubits (this_state p)) = n
  /\ Forall (JS.in_range 0 1) (qubits (this_state p)).

(** What the specification asks of a report. *)
Definition report_in_unit_interval (r : ProcessingResult) : Prop :=
  Forall (JS.in_range 0 1) (qubits (state r))
  /\ JS.in_range 0 1 (probability r)
  /\ JS.in_range 0 1 (confidence r).

(** *** The optimizer *)

(** An [n]-by-[n] matrix. *)
Definition square (n : nat) (m : QuantumOptimizer.Matrix) : Prop :=
  length m = n /\ Forall (fun row => length row = n) m.

(** The real part of [m[i][i]]. *)
Definition diagonal_real (m : QuantumOptimizer.Matrix) (i : nat) : number :=
  match QuantumOptimizer.entry m i i with
  | Some c => real c
  | None => NaN
  end.

(** The update as the specification writes it:
    [p[i] - 0.01 * g[i] / (F[i][i].real + 1e-5)]. *)
Definition natural_gradient_spec
           (parameters : list number) (quantumFisher : QuantumOptimizer.Matrix)
           (gradient : list number) : list number :=
  map (fun pi : number * nat =>
         fst pi .- Fin 0.01 .* JS.array_get gradient (snd pi)
                   ./ (diagonal_real quantumFisher (snd pi) .+ Fin 1e-5))
      (QuantumOptimizer.indexed parameters).

(** The same update in the order in which the code computes it: the
    reciprocal of the regularized diagonal, times the gradient entry,
    times the learning rate:
    [p[i] - 0.01 * ((1 / (F[i][i].real + 1e-5)) * g[i])]. *)
Definition natural_gradient_steps
           (parameters : list number) (quantumFisher : QuantumOptimizer.Matrix)
           (gradient : list number) : list number :=
  map (fun pi : number * nat =>
         fst pi .- Fin 0.01
                   .* (Fin 1 ./ (diagonal_real quantumFisher (snd pi)
                                 .+ Fin 1e-5)
                       .* JS.array_get gradient (snd pi)))
      (QuantumOptimizer.indexed parameters).

(** The simplified inverse as the specification writes it: the
    reciprocal of the regularized diagonal on the diagonal, zero
    elsewhere; [k] rows of the diagonal are filled. *)
Definition diagonal_inverse (n k : nat) (m : QuantumOptimizer.Matrix)
  : QuantumOptimizer.Matrix :=
  map (fun i =>
         map (fun j =>
                if Nat.eqb j i && Nat.ltb i k
                then mkComplex (Fin 1 ./ diagonal_real m i) (Fin 0)
                else QuantumOptimizer.zero)
             (List.seq 0 n))
      (List.seq 0 n).

(** Complex arithmetic, as the specification uses it. *)
Definition cadd (a b : Complex) : Complex :=
  mkComplex (real a .+ real b) (imag a .+ imag b).

Definition cmul (a b : Complex) : Complex :=
  mkComplex (real a .* real b .- imag a .* imag b)
            (real a .* imag b .+ imag a .* real b).

Definition cscale (a : Complex) (x : number) : Complex :=
  mkComplex (real a .* x) (imag a .* x).

(** [acc + Sum_j row[j] * state[j] * dt], summed from the left. *)
Definition weighted_sum (row st : list Complex) (dt : number)
           (acc : Complex) : Complex :=
  fold_left (fun acc (hs : Complex * Complex) =>
               cadd acc (cscale (cmul (fst hs) (snd hs)) dt))
            (combine row st) acc.


(** The update without the previous value:
    [state[i] = Sum_j H[i][j] * state[j] * dt]. *)
Definition product_step (hamiltonian : QuantumOptimizer.Matrix)
           (st : list Complex) (dt : number) : list Complex :=
  map (fun row => weighted_sum row st dt QuantumOptimizer.zero) hamiltonian.

(** The Euclidean norm of a state vector. *)
Definition norm (st : list Complex) : number :=
  JS.sqrt (fold_left (fun acc s => acc .+ real s .* real s .+ imag s .* imag s)
                     st (Fin 0)).

(** [k] rounds of [f], the first round on [x]. *)
Fixpoint iterate (A : Type) (f : A -> A) (k : nat) (x : A) : A :=
  match k with
  | O => x
  | S k' => iterate f k' (f x)
  end.

(** The renormalization of the specification: every component of the
    vector divided by the vector's Euclidean norm. *)
Definition renormalize (st : list Complex) : list Complex :=
  map (fun s => mkComplex (real s ./ norm st) (imag s ./ norm st)) st.




(** A complex number whose two components are finite. *)
Definition finite_complex (c : Complex) : Prop :=
  JS.is_finite (real c) /\ JS.is_finite (imag c).

(** The sum of the squared moduli of a list of pairs of reals, and the
    complex number of a pair of reals. *)
Fixpoint sum_squares (zs : list (R * R)) (acc : R) : R :=
  match zs with
  | [] => acc
  | z :: zs' => sum_squares zs' (acc + fst z * fst z + snd z * snd z)
  end.

Definition inject (z : R * R) : Complex :=
  mkComplex (Fin (fst z)) (Fin (snd z)).

(** The objective of the QAOA loop and one step of gradient descent
    on it; neither reads the Hamiltonians nor the depth. *)
Definition objective (parameters : list number) : number :=
  fst (QuantumOptimizer.evaluateQAOAObjective parameters [] [] 0).

Definition descent (parameters : list number) : list number :=
  QuantumOptimizer.updateParameters
    parameters
    (snd (QuantumOptimizer.evaluateQAOAObjective parameters [] [] 0)).

(** The convergence test of round [it] of a run of the QAOA loop from
    [start]: the absolute change between the objective of the
    parameters of round [it] and the objective of the round before is
    below 1e-6.  Before round 0 the loop holds [Infinity]. *)
Definition previous_objective (start : list number) (it : nat) : number :=
  match it with
  | O => PInf
  | S j => objective (iterate descent j start)
  end.

Definition converged (start : list number) (it : nat) : bool :=
  JS.abs (objective (iterate descent it start) .- previous_objective start it)
  .< Fin 1e-6.

(** The objective of the VQE loop and one step of gradient descent on
    it; neither reads the Hamiltonian nor the ansatz. *)
Definition vqe_objective (parameters : list number) : number :=
  fst (QuantumOptimizer.evaluateVQEObjective parameters [] (fun _ => [])).

Definition vqe_descent (parameters : list number) : list number :=
  QuantumOptimizer.updateParameters
    parameters
    (snd (QuantumOptimizer.evaluateVQEObjective parameters [] (fun _ => []))).

(** Every entry [m[i][j]] with [i, j < n] exists. *)
Definition covers (n : nat) (m : QuantumOptimizer.Matrix) : Prop :=
  forall i j, (i < n)%nat -> (j < n)%nat ->
              QuantumOptimizer.entry m i j <> None.

(** The complex number whose two components are [NaN]. *)
Definition nan_complex : Complex := mkComplex NaN NaN.

(** The product [Sum_j h_j * z_j] of a row and a vector of pairs of
    reals, over the shorter of the two. *)
Fixpoint cdot (hs zs : list (R * R)) : R * R :=
  match hs, zs with
  | h :: hs', z :: zs' =>
      (fst h * fst z - snd h * snd z + fst (cdot hs' zs'),
       fst h * snd z + snd h * fst z + snd (cdot hs' zs'))
  | _, _ => (0, 0)
  end.

(** *** The trainer *)

(** A trainer of one layer with at most five gates, the noise threshold
    0.01, and an accuracy that is finite and at most [hi]. *)
Definition one_layer_trainer (hi : R) (ai : QuantumAI.t) : Prop :=
  length (QuantumAI.quantumLayers ai) = 1%nat
  /\ Forall (fun l => (length (QuantumAI.gateSequence l) <= 5)%nat)
            (QuantumAI.quantumLayers ai)
  /\ QuantumAI.quantumNoiseThreshold (QuantumAI.optimizer ai) = Fin 0.01
  /\ layers (QuantumAI.model ai) = JS.of_nat 1
  /\ exists a, accuracy (QuantumAI.model ai) = Fin a /\ a <= hi.

(** The bound on the accuracy after epoch [epoch] from a bound [hi]
    before it, for one layer and an epoch loss within [[0, 0.05]]. *)
Definition next_bound (hi : R) (epoch : nat) : R :=
  hi + (1 - hi) * Rmax (0.1 * (1 - INR epoch / 2))
                       (0.095 * (1 - INR epoch / 2)).

(** A trainer of [L] layers as the constructor and the training leave
    it: the noise threshold 0.01, the layer count in the model, and an
    accuracy that is finite and within [[lo, 1]]. *)
Definition trainer (L : nat) (lo : R) (ai : QuantumAI.t) : Prop :=
  length (QuantumAI.quantumLayers ai) = L
  /\ QuantumAI.quantumNoiseThreshold (QuantumAI.optimizer ai) = Fin 0.01
  /\ layers (QuantumAI.model ai) = Fin (INR L)
  /\ exists a, accuracy (QuantumAI.model ai) = Fin a /\ lo <= a <= 1.

(** *** Further vocabulary for the processor *)

(** Every qubit scalar is finite, at least 0 and strictly below 1. *)
Definition below_one (p : QuantumProcessor.t) : Prop :=
  Forall (fun q => exists r, q = Fin r /\ 0 <= r < 1)
         (qubits (QuantumProcessor.this_state p)).

(** The object with its entanglement replaced by [e]. *)
Definition with_entanglement (p : QuantumProcessor.t) (e : number)
  : QuantumProcessor.t :=
  QuantumProcessor.set_state
    p (QuantumProcessor.set_entanglement (QuantumProcessor.this_state p) e).

(** The scalar that [initializeErrorCorrection] leaves at index [i] of
    [n] qubits [q]: the first scalar of the triple of [i] when the
    triple is complete, the scalar itself in an incomplete last group. *)
Definition corrected_scalar (q : list number) (i : nat) : number :=
  if (3 * (i / 3) + 2 <? length q)%nat
  then JS.array_get q (3 * (i / 3))
  else JS.array_get q i.

(** *** Vocabulary for the algorithms *)

(** The componentwise sum of a list of pairs of reals. *)
Fixpoint csum (zs : list (R * R)) : R * R :=
  match zs with
  | [] => (0, 0)
  | z :: zs' => (fst z + fst (csum zs'), snd z + snd (csum zs'))
  end.

(** The term that round [(k, n)] of [quantumFourierTransform] adds to
    slot [k]. *)
Definition qft_term (amplitudes : list Complex) (k n : nat) : Complex :=
  let angle :=
    (Fin 2 .* Fin PI .* JS.of_nat k .* JS.of_nat n)
    ./ JS.of_nat (length amplitudes) in
  QuantumAlgorithms.multiplyComplex
    (QuantumAlgorithms.at_index amplitudes n)
    (mkComplex (JS.cos angle) (JS.neg (JS.sin angle))).

(** The discrete Fourier transform of [N] pairs of reals, entry [k]:
    [1/sqrt N * Sum_n z_n * exp(-2 pi i k n / N)]. *)
Definition dft_term (N k : nat) (nz : nat * (R * R)) : R * R :=
  let theta := 2 * PI * INR k * INR (fst nz) / INR N in
  let z := snd nz in
  (fst z * cos theta + snd z * sin theta,
   snd z * cos theta - fst z * sin theta).

Definition dft (zs : list (R * R)) (k : nat) : R * R :=
  let N := length zs in
  let s := csum (map (dft_term N k) (combine (List.seq 0 N) zs)) in
  (fst s / sqrt (INR N), snd s / sqrt (INR N)).

(** The basis state [|j>] of dimension [N], as pairs of reals. *)
Definition basis (N j : nat) : list (R * R) :=
  map (fun n => if (n =? j)%nat then (1, 0) else (0, 0)) (List.seq 0 N).

(** The squared modulus of a complex number, as the code computes it. *)
Definition modulus2 (c : Complex) : number :=
  real c .* real c .+ imag c .* imag c.

End Props.
(* ================================================================= *)
(** * Properties *)

(** ** Arithmetic of JavaScript numbers *)

Module JSFacts.

Open Scope R_scope.
Open Scope js_scope.

Lemma Rltb_true (x y : R) : x < y -> JS.Rltb x y = true.
Proof.
  intros H. unfold JS.Rltb.
  destruct (Rlt_dec x y); [reflexivity | contradiction].
Qed.

Lemma Rltb_false (x y : R) : y <= x -> JS.Rltb x y = false.
Proof.
  intros H. unfold JS.Rltb. destruct (Rlt_dec x y); [lra | reflexivity].
Qed.

Lemma Reqb_true (x y : R) : x = y -> JS.Reqb x y = true.
Proof.
  intros H. unfold JS.Reqb.
  destruct (Req_dec_T x y); [reflexivity | contradiction].
Qed.

Lemma Reqb_false (x y : R) : x <> y -> JS.Reqb x y = false.
Proof.
  intros H. unfold JS.Reqb.
  destruct (Req_dec_T x y); [contradiction | reflexivity].
Qed.

Lemma div_Fin (a b : R) : b <> 0 -> Fin a ./ Fin b = Fin (a / b).
Proof. intros H. simpl. now rewrite (Reqb_false H). Qed.

Lemma sqrt_Fin (a : R) : 0 <= a -> JS.sqrt (Fin a) = Fin (sqrt a).
Proof. intros H. simpl. now rewrite (Rltb_false H). Qed.

Lemma add_0_l (x : number) : Fin 0 .+ x = x.
Proof. destruct x; simpl; trivial. now rewrite Rplus_0_l. Qed.

Lemma add_0_r (x : number) : x .+ Fin 0 = x.
Proof. destruct x; simpl; trivial. now rewrite Rplus_0_r. Qed.

Lemma for_range_invariant (St : Type) (P : St -> Prop)
      (body : nat -> St -> St) :
  (forall i s, P s -> P (body i s)) ->
  forall fuel start bound step s,
    P s -> P (JS.for_range fuel start bound step body s).
Proof.
  intros Hbody fuel. induction fuel as [| fuel IH]; intros start bound step s Hs.
  - exact Hs.
  - simpl. destruct (start <? bound)%nat; auto.
Qed.

(** The fuel of [for_range] does not matter once it covers the
    distance to the bound. *)
Lemma for_range_enough_fuel (St : Type) (body : nat -> St -> St)
      (bound step : nat) :
  (1 <= step)%nat ->
  forall fuel fuel' start s,
    (bound - start <= fuel)%nat -> (bound - start <= fuel')%nat ->
    JS.for_range fuel start bound step body s
    = JS.for_range fuel' start bound step body s.
Proof.
  intros Hstep fuel.
  induction fuel as [| fuel IH]; intros fuel' start s Hf Hf'.
  - destruct fuel' as [| fuel']; simpl; [reflexivity |].
    destruct (Nat.ltb_spec start bound); [lia | reflexivity].
  - simpl. destruct (Nat.ltb_spec start bound) as [Hlt | Hge].
    + destruct fuel' as [| fuel']; [lia |]. simpl.
      destruct (Nat.ltb_spec start bound); [| lia].
      apply IH; lia.
    + destruct fuel' as [| fuel']; simpl; [reflexivity |].
      destruct (Nat.ltb_spec start bound); [lia | reflexivity].
Qed.

(** *** Lists, arrays and effectful maps *)

Lemma fold_left_invariant (A B : Type) (P : B -> Prop) (f : B -> A -> B)
      (l : list A) :
  (forall acc x, In x l -> P acc -> P (f acc x)) ->
  forall init, P init -> P (fold_left f l init).
Proof.
  induction l as [| x l IH]; intros Hf init Hinit; simpl.
  - exact Hinit.
  - apply IH.
    + intros acc y Hy. apply Hf. now right.
    + apply Hf; [now left | exact Hinit].
Qed.

Lemma array_get_Forall (P : number -> Prop) (q : list number) (i : nat) :
  Forall P q -> (i < length q)%nat -> P (JS.array_get q i).
Proof.
  intros HP Hi. unfold JS.array_get.
  rewrite Forall_forall in HP. apply HP. now apply nth_In.
Qed.

Lemma for_range_invariant_below (St : Type) (P : St -> Prop)
      (body : nat -> St -> St) (bound step : nat) :
  (forall i s, (i < bound)%nat -> P s -> P (body i s)) ->
  forall fuel start s,
    P s -> P (JS.for_range fuel start bound step body s).
Proof.
  intros Hbody fuel.
  induction fuel as [| fuel IH]; intros start s Hs; simpl.
  - exact Hs.
  - destruct (Nat.ltb_spec start bound); auto.
Qed.

Lemma array_set_length (a : list number) (i : nat) (v : number) :
  (i < length a)%nat -> length (JS.array_set a i v) = length a.
Proof.
  revert i. induction a as [| h a IH]; intros [| i] Hi; simpl in *;
    try lia; auto with arith.
Qed.

Lemma array_set_Forall (P : number -> Prop) (a : list number) (i : nat)
      (v : number) :
  (i < length a)%nat -> Forall P a -> P v -> Forall P (JS.array_set a i v).
Proof.
  revert i. induction a as [| h a IH]; intros [| i] Hi Ha Hv; simpl in *;
    try lia; inversion Ha; subst; constructor; auto with arith.
Qed.

Lemma mapM_Forall (A B : Type) (Q : B -> Prop) (f : A -> Rand.M B)
      (xs : list A) :
  (forall x k, In x xs -> Q (fst (f x k))) ->
  forall k, Forall Q (fst (Rand.mapM f xs k))
            /\ length (fst (Rand.mapM f xs k)) = length xs.
Proof.
  induction xs as [| x xs IH]; intros Hf k; simpl.
  - split; [constructor | reflexivity].
  - unfold Rand.bind.
    pose proof (Hf x k (or_introl eq_refl)) as Hx.
    destruct (f x k) as [y k1].
    destruct (IH (fun x' k' Hin => Hf x' k' (or_intror Hin)) k1) as [Hys Hlen].
    destruct (Rand.mapM f xs k1) as [ys k2]. simpl in *.
    split; [constructor; assumption | now rewrite Hlen].
Qed.

End JSFacts.

(** ** The processor *)

Module ProcessorFacts.

Import QuantumProcessor Props.
Open Scope R_scope.
Open Scope js_scope.


Lemma exp_neg_bounds (x : R) : x < 0 -> 0 < exp x < 1.
Proof.
  intros Hx. split; [apply exp_pos |].
  pose proof (exp_increasing x 0 Hx) as H. now rewrite exp_0 in H.
Qed.

Lemma dephasing_bounds : 0 < dephasing < 1.
Proof. unfold dephasing. apply exp_neg_bounds. lra. Qed.

Lemma thermal_bounds : 0 < thermal < 1.
Proof.
  unfold thermal.
  assert (H : 0 < exp (- (6.62607015e-34 * 1e9) / (1.380649e-23 * 0.015)) < 1)
    by (apply exp_neg_bounds; lra).
  lra.
Qed.

Lemma applyDecoherenceEffects_state (p : t) (c : R) :
  decoherenceModel p = standardModel ->
  coherence (this_state p) = Fin c ->
  applyDecoherenceEffects p =
  set_state p (set_coherence (this_state p) (Fin (c * dephasing * thermal))).
Proof.
  intros Hm Hc. unfold applyDecoherenceEffects. rewrite Hm, Hc.
  unfold standardModel, boltzmannConstant, temperature, planckConstant.
  cbn [T2 JS.neg JS.mul].
  rewrite !JSFacts.div_Fin by lra.
  reflexivity || (cbn [JS.exp JS.mul JS.sub]; reflexivity).
Qed.


Section Frame.

Variable rnd : Rand.source.


Lemma calibrateQuantumRegisters_scalars (p : t) (k : nat) :
  same_scalars p (fst (calibrateQuantumRegisters rnd p k)).
Proof.
  unfold calibrateQuantumRegisters, Rand.bind.
  destruct (Rand.mapM _ _ k) as [qs k']. simpl. repeat split.
Qed.

Lemma initializeErrorCorrection_scalars (p : t) :
  same_scalars p (initializeErrorCorrection p).
Proof.
  unfold initializeErrorCorrection.
  destruct (3 <=? _)%nat; [| repeat split].
  apply JSFacts.for_range_invariant; [| repeat split].
  intros i s (Hc & He & Hs & Hm). repeat split; simpl; assumption.
Qed.

Lemma constructor_scalars (n k : nat) :
  let p := fst (constructor rnd n k) in
  coherence (this_state p) = Fin (dephasing * thermal)
  /\ entanglement (this_state p) = Fin 0
  /\ superposition (this_state p) = false
  /\ decoherenceModel p = standardModel.
Proof.
  unfold constructor, initializeQuantumSystem, Rand.bind.
  rewrite (@applyDecoherenceEffects_state _ 1.0) by reflexivity.
  match goal with
  | |- context [calibrateQuantumRegisters rnd ?q k] =>
      pose proof (calibrateQuantumRegisters_scalars q k) as Hcal;
      destruct (calibrateQuantumRegisters rnd q k) as [p1 k1]
  end.
  pose proof (initializeErrorCorrection_scalars p1) as Hec.
  unfold same_scalars, set_state, set_coherence in Hcal, Hec.
  cbn in Hcal, Hec |- *.
  destruct Hcal as (Hc & He & Hs & Hm), Hec as (Hc' & He' & Hs' & Hm').
  rewrite Hc', He', Hs', Hm', Hc, He, Hs, Hm.
  repeat split. f_equal. replace 1.0 with 1 by lra. ring.
Qed.

End Frame.


(** *** Construction *)

Lemma decay_bounds : 0 < dephasing * thermal < 1.
Proof.
  pose proof dephasing_bounds. pose proof thermal_bounds. nra.
Qed.

(** C1, as the code has it: the constructor runs one decoherence step,
    so for every qubit count [n >= 1] (and every stream of draws) the
    fresh state has coherence [exp(-1ns/T2) * (1 - thermalNoise)], a
    value strictly between 0 and 1, and entanglement 0. *)
Theorem constructor_fresh_state (rnd : Rand.source) (n k : nat) :
  (1 <= n)%nat ->
  let p := fst (constructor rnd n k) in
  coherence (this_state p) = Fin (dephasing * thermal)
  /\ 0 < dephasing * thermal < 1
  /\ entanglement (this_state p) = Fin 0.
Proof.
  intros _ p. destruct (constructor_scalars rnd n k) as (Hc & He & _).
  repeat split; try assumption; apply decay_bounds.
Qed.

Lemma constructor_fresh_state_witness :
  (1 <= 1)%nat
  /\ (let p := fst (constructor zeros 1%nat 0%nat) in
      coherence (this_state p) = Fin (dephasing * thermal)
      /\ 0 < dephasing * thermal < 1
      /\ entanglement (this_state p) = Fin 0).
Proof.
  split; [lia |].
  apply (@constructor_fresh_state zeros 1%nat 0%nat). lia.
Defined.

(** C1 as stated fails: a one-qubit processor is not born with
    coherence 1.0. *)
Lemma constructor_coherence_not_one :
  ~ (coherence (this_state (fst (constructor zeros 1%nat 0%nat))) = Fin 1.0
     /\ entanglement (this_state (fst (constructor zeros 1%nat 0%nat)))
        = Fin 0.0).
Proof.
  intros [Hc _].
  destruct (constructor_scalars zeros 1%nat 0%nat) as (Hc' & _).
  rewrite Hc' in Hc. injection Hc as Hc.
  pose proof decay_bounds. lra.
Qed.

(** *** Gate application *)

Example validate_target_out_of_range :
  validateGateOperation
    (mkQuantumGate Gate_H 2 None None)
    (mkProcessor (mkQuantumState [Fin 0; Fin 0] false (Fin 0) (Fin 1))
                 standardModel)
  = InvalidTargetQubit 2.
Proof. reflexivity. Qed.

Example validate_control_out_of_range :
  validateGateOperation
    (mkQuantumGate Gate_CNOT 1 (Some 5%nat) None)
    (mkProcessor (mkQuantumState [Fin 0; Fin 0] false (Fin 0) (Fin 1))
                 standardModel)
  = InvalidControlQubit 5.
Proof. reflexivity. Qed.

(** C6: [applyGate] throws exactly when the target, or a control that
    is present, is not an index of a qubit; and a call that throws
    leaves the object as it was. *)
Theorem applyGate_throws_iff_invalid
        (rnd : Rand.source) (gate : QuantumGate) (p : t) (k : nat) :
  let r := fst (applyGate rnd gate p k) in
  (fst r <> Returned <->
   (length (qubits (this_state p)) <= target gate)%nat
   \/ (exists c, control gate = Some c
                 /\ (length (qubits (this_state p)) <= c)%nat))
  /\ (fst r <> Returned -> snd r = p).
Proof.
  unfold applyGate, validateGateOperation.
  destruct (Nat.leb_spec (length (qubits (this_state p))) (target gate))
    as [Ht | Ht].
  - simpl. split; [| reflexivity].
    split; [intros _; now left | discriminate].
  - destruct (control gate) as [c |] eqn:Hctl.
    + destruct (Nat.leb_spec (length (qubits (this_state p))) c) as [Hc | Hc].
      * simpl. split; [| reflexivity].
        split; [intros _; right; now exists c | discriminate].
      * destruct (gateOperations rnd (type gate)) as [op |];
          unfold Rand.bind; [destruct (op _ _ _ _) as [p1 k1] |]; simpl;
          (split; [| congruence]);
          (split; [congruence |]);
          intros [Hbad | (c' & Hc' & Hbad)]; try lia;
          injection Hc' as <-; lia.
    + destruct (gateOperations rnd (type gate)) as [op |];
        unfold Rand.bind; [destruct (op _ _ _ _) as [p1 k1] |]; simpl;
        (split; [| congruence]);
        (split; [congruence |]);
        intros [Hbad | (c' & Hc' & Hbad)]; try lia; discriminate.
Qed.

Lemma applyGate_throws_iff_invalid_witness :
  let p := mkProcessor
             (mkQuantumState [Fin 0; Fin 1] false (Fin 0) (Fin 0.9))
             standardModel in
  let gate := mkQuantumGate Gate_X 3 None None in
  let r := fst (applyGate zeros gate p 0%nat) in
  (fst r <> Returned <->
   (length (qubits (this_state p)) <= target gate)%nat
   \/ (exists c, control gate = Some c
                 /\ (length (qubits (this_state p)) <= c)%nat))
  /\ (fst r <> Returned -> snd r = p).
Proof.
  intros p gate. apply (@applyGate_throws_iff_invalid zeros gate p 0%nat).
Defined.

(** C10: a gate of a kind without an entry in the dispatch table, with
    valid indices, returns and changes nothing: no decoherence step, no
    recomputation of the entanglement, no random draw. *)
Theorem applyGate_undispatched
        (rnd : Rand.source) (gate : QuantumGate) (p : t) (k : nat) :
  In (type gate) [Gate_Y; Gate_Z; Gate_RX; Gate_RY; Gate_RZ; Gate_T; Gate_S] ->
  (target gate < length (qubits (this_state p)))%nat ->
  (forall c, control gate = Some c ->
             (c < length (qubits (this_state p)))%nat) ->
  applyGate rnd gate p k = ((Returned, p), k).
Proof.
  intros Hkind Ht Hc. unfold applyGate, validateGateOperation.
  destruct (Nat.leb_spec (length (qubits (this_state p))) (target gate));
    [lia |].
  assert (Hnone : gateOperations rnd (type gate) = None).
  { simpl in Hkind.
    repeat (destruct Hkind as [<- | Hkind]; [reflexivity |]).
    contradiction. }
  destruct (control gate) as [c |].
  - specialize (Hc c eq_refl).
    destruct (Nat.leb_spec (length (qubits (this_state p))) c); [lia |].
    now rewrite Hnone.
  - now rewrite Hnone.
Qed.

Lemma applyGate_undispatched_witness :
  let p := mkProcessor (mkQuantumState [Fin 0; Fin 1] true (Fin 0.5) (Fin 0.9))
                       standardModel in
  let gate := mkQuantumGate Gate_RZ 1 (Some 0%nat) (Some (Fin 0.3)) in
  applyGate zeros gate p 0%nat = ((Returned, p), 0%nat).
Proof.
  intros p gate.
  apply (@applyGate_undispatched zeros gate p 0%nat).
  - simpl. tauto.
  - simpl. lia.
  - intros c Hc. injection Hc as <-. simpl. lia.
Defined.

End ProcessorFacts.

(** ** The entanglement estimator *)

Module EntanglementFacts.

Import QuantumProcessor Props.
Open Scope R_scope.
Open Scope js_scope.

(** One term of the sum, for two scalars of absolute value at most 1. *)
Lemma pair_term_nonneg (a b : R) :
  -1 <= a <= 1 -> -1 <= b <= 1 ->
  exists t, 0 <= t /\
    JS.abs (Fin a .* Fin b
            .- JS.sqrt ((Fin 1 .- JS.pow2 (Fin a))
                        .* (Fin 1 .- JS.pow2 (Fin b)))) = Fin t.
Proof.
  intros Ha Hb.
  assert (Hp : 0 <= (1 - a * a) * (1 - b * b))
    by (apply Rmult_le_pos; nra).
  cbn [JS.pow2 JS.mul JS.sub].
  rewrite (JSFacts.sqrt_Fin Hp). cbn [JS.sub JS.abs].
  eexists; split; [| reflexivity]. apply Rabs_pos.
Qed.

Lemma pairSum_nonneg (q : list number) :
  Forall (JS.in_range (-1) 1) q ->
  exists s, 0 <= s /\ pairSum q = Fin s.
Proof.
  intros Hq. unfold pairSum.
  apply (JSFacts.fold_left_invariant (fun acc => exists s, 0 <= s /\ acc = Fin s));
    [| exists 0; split; [lra | reflexivity]].
  intros acc i Hi Hacc.
  apply in_seq in Hi.
  apply (JSFacts.fold_left_invariant (fun acc => exists s, 0 <= s /\ acc = Fin s));
    [| exact Hacc].
  intros acc' j Hj (s & Hs & ->). apply in_seq in Hj.
  destruct (@JSFacts.array_get_Forall _ q i Hq) as (a & -> & Ha); [lia |].
  destruct (@JSFacts.array_get_Forall _ q j Hq) as (b & -> & Hb); [lia |].
  destruct (pair_term_nonneg Ha Hb) as (t & Ht & ->).
  exists (s + t). split; [lra | reflexivity].
Qed.

Lemma pair_count_pos (n : nat) :
  (2 <= n)%nat -> 0 < INR n * (INR n - 1) / 2.
Proof.
  intros Hn. apply le_INR in Hn. simpl in Hn. nra.
Qed.

(** C5, as the code has it: with at least two qubits, all of absolute
    value at most 1, the entanglement that [updateSystemEntanglement]
    stores lies within [[0, 1]]. *)
Theorem updateSystemEntanglement_in_unit_interval (p : t) :
  (2 <= length (qubits (this_state p)))%nat ->
  Forall (JS.in_range (-1) 1) (qubits (this_state p)) ->
  JS.in_range 0 1 (entanglement (this_state (updateSystemEntanglement p))).
Proof.
  intros Hn Hq. unfold updateSystemEntanglement.
  destruct (pairSum_nonneg Hq) as (s & Hs & ->).
  pose proof (pair_count_pos Hn) as Hpos.
  cbn [this_state set_state entanglement set_entanglement JS.of_nat
       JS.mul JS.sub].
  rewrite !JSFacts.div_Fin by lra.
  set (d := INR (length (qubits (this_state p))) * _ / 2) in *.
  assert (Hd : 0 <= s / d).
  { apply Rmult_le_pos; [exact Hs |]. left. now apply Rinv_0_lt_compat. }
  unfold JS.min, JS.ltb, JS.Rltb.
  destruct (Rlt_dec (s / d) 1).
  - exists (s / d). split; [reflexivity | lra].
  - exists 1. split; [reflexivity | lra].
Qed.

Lemma updateSystemEntanglement_in_unit_interval_witness :
  let p := mkProcessor
             (mkQuantumState [Fin 0; Fin 1; Fin 0.5] false (Fin 0) (Fin 0.9))
             standardModel in
  JS.in_range 0 1 (entanglement (this_state (updateSystemEntanglement p))).
Proof.
  intros p. apply (@updateSystemEntanglement_in_unit_interval p).
  - simpl. lia.
  - simpl. repeat constructor;
      eexists; (split; [reflexivity | lra]).
Defined.

(** The scalars 2 and 0: the product under the square root is -3. *)
Lemma entanglement_of_scalars_NaN :
  let p := mkProcessor
             (mkQuantumState [Fin 2; Fin 0] false (Fin 0) (Fin 1))
             standardModel in
  entanglement (this_state (updateSystemEntanglement p)) = NaN.
Proof.
  intros p. unfold updateSystemEntanglement, pairSum. simpl.
  rewrite (@JSFacts.Rltb_true ((1 - 2 * 2) * (1 - 0 * 0)) 0) by lra.
  reflexivity.
Qed.

(** C5 as stated fails: with the scalars 2 and 0 the square root is
    taken of a negative number and the stored entanglement is [NaN]. *)
Lemma updateSystemEntanglement_outside_unit_interval :
  ~ JS.in_range 0 1
      (entanglement
         (this_state
            (updateSystemEntanglement
               (mkProcessor
                  (mkQuantumState [Fin 2; Fin 0] false (Fin 0) (Fin 1))
                  standardModel)))).
Proof.
  pose proof entanglement_of_scalars_NaN as H. cbv zeta in H.
  rewrite H. intros (r & Hr & _). discriminate.
Qed.

(** With a single qubit there is no pair: the sum 0 is divided by 0. *)
Lemma updateSystemEntanglement_single_qubit (x : number) (p : t) :
  qubits (this_state p) = [x] ->
  entanglement (this_state (updateSystemEntanglement p)) = NaN.
Proof.
  intros Hq. unfold updateSystemEntanglement, pairSum. rewrite Hq. simpl.
  rewrite (@JSFacts.Reqb_false 2 0) by lra.
  replace (1 * (1 - 1) / 2) with 0 by lra.
  unfold JS.inf_times. rewrite !(@JSFacts.Reqb_true 0 0) by reflexivity.
  reflexivity.
Qed.

End EntanglementFacts.

(** ** Numeric bounds on the decoherence factors *)

Module DecayBounds.

Import Props.
Open Scope R_scope.

Lemma exp_half_square (x : R) : exp x = exp (x / 2) * exp (x / 2).
Proof. rewrite <- exp_plus. f_equal. lra. Qed.

Lemma exp_square_bound (l x : R) :
  0 <= l <= exp (x / 2) -> l * l <= exp x.
Proof. intros H. rewrite (exp_half_square x). nra. Qed.

(** [(1 + x/32)^32 <= exp x], by squaring [1 + y <= exp y] five times. *)
Lemma exp_lower_32 (x : R) :
  0 <= 1 + x / 32 ->
  let l1 := 1 + x / 32 in
  let l2 := l1 * l1 in
  let l4 := l2 * l2 in
  let l8 := l4 * l4 in
  let l16 := l8 * l8 in
  l16 * l16 <= exp x.
Proof.
  intros H0 l1 l2 l4 l8 l16.
  assert (H1 : 0 <= l1 <= exp (x / 32)).
  { split; [exact H0 |]. apply exp_ineq1_le. }
  assert (H2 : 0 <= l2 <= exp (x / 16)).
  { split; [unfold l2; nra |].
    apply exp_square_bound. now replace (x / 16 / 2) with (x / 32) by lra. }
  assert (H4 : 0 <= l4 <= exp (x / 8)).
  { split; [unfold l4; nra |].
    apply exp_square_bound. now replace (x / 8 / 2) with (x / 16) by lra. }
  assert (H8 : 0 <= l8 <= exp (x / 4)).
  { split; [unfold l8; nra |].
    apply exp_square_bound. now replace (x / 4 / 2) with (x / 8) by lra. }
  assert (H16 : 0 <= l16 <= exp (x / 2)).
  { split; [unfold l16; nra |].
    apply exp_square_bound. now replace (x / 2 / 2) with (x / 4) by lra. }
  now apply exp_square_bound.
Qed.

Lemma ratio_bounds : 3.19 <= ratio <= 3.2.
Proof. unfold ratio. lra. Qed.

Lemma thermal_noise_lower : 0.03 <= exp (- ratio).
Proof.
  pose proof ratio_bounds as Hr.
  pose proof (@exp_lower_32 (- ratio)) as H. cbv zeta in H.
  assert (H0 : 0.9 <= 1 + - ratio / 32) by lra.
  specialize (H ltac:(lra)).
  set (l1 := 1 + - ratio / 32) in *.
  assert (H2 : 0.81 <= l1 * l1) by nra.
  set (l2 := l1 * l1) in *.
  assert (H4 : 0.6561 <= l2 * l2) by nra.
  set (l4 := l2 * l2) in *.
  assert (H8 : 0.43 <= l4 * l4) by nra.
  set (l8 := l4 * l4) in *.
  assert (H16 : 0.1849 <= l8 * l8) by nra.
  set (l16 := l8 * l8) in *.
  assert (H32 : 0.03 <= l16 * l16) by nra.
  lra.
Qed.

Lemma thermal_noise_upper : exp (- ratio) <= 0.05.
Proof.
  pose proof ratio_bounds as Hr.
  pose proof (@exp_lower_32 ratio) as H. cbv zeta in H.
  assert (H0 : 1.0996 <= 1 + ratio / 32) by lra.
  specialize (H ltac:(lra)).
  set (l1 := 1 + ratio / 32) in *.
  assert (H2 : 1.209 <= l1 * l1) by nra.
  set (l2 := l1 * l1) in *.
  assert (H4 : 1.46 <= l2 * l2) by nra.
  set (l4 := l2 * l2) in *.
  assert (H8 : 2.13 <= l4 * l4) by nra.
  set (l8 := l4 * l4) in *.
  assert (H16 : 4.53 <= l8 * l8) by nra.
  set (l16 := l8 * l8) in *.
  assert (H32 : 20 <= l16 * l16) by nra.
  assert (Hexp : 20 <= exp ratio) by lra.
  rewrite exp_Ropp.
  assert (Hinv : / exp ratio <= / 20).
  { apply Rinv_le_contravar; lra. }
  lra.
Qed.

Lemma thermal_numeric : 0.95 <= thermal <= 0.97.
Proof.
  pose proof thermal_noise_lower. pose proof thermal_noise_upper.
  unfold thermal. fold ratio.
  replace (- ratio) with (- ratio) in * by reflexivity.
  unfold ratio in *.
  replace (- (6.62607015e-34 * 1e9) / (1.380649e-23 * 0.015))
    with (- (6.62607015e-34 * 1e9 / (1.380649e-23 * 0.015))) by lra.
  lra.
Qed.

Lemma dephasing_numeric : 0.9999 <= dephasing <= 1.
Proof.
  unfold dephasing. split.
  - pose proof (exp_ineq1_le (- (1e-9) / 70e-6)). lra.
  - left. apply ProcessorFacts.exp_neg_bounds. lra.
Qed.

Lemma decay_numeric : 0.949 <= dephasing * thermal <= 0.97.
Proof.
  pose proof thermal_numeric. pose proof dephasing_numeric. nra.
Qed.

End DecayBounds.

(** ** Measurement *)

Module MeasureFacts.

Import QuantumProcessor Props.
Open Scope R_scope.
Open Scope js_scope.

Section WithRandom.

Variable rnd : Rand.source.

(** With a coherence strictly between 0 and 1 the pseudo-wavefunction
    is finite, and its probability is [1 - coherence^2]. *)
Lemma calculateWaveFunction_value (p : t) (c : R) (qubit k : nat) :
  coherence (this_state p) = Fin c -> 0 <= 1 - c * c ->
  calculateWaveFunction rnd p qubit k =
  (mkWaveFunctionCollapse (Fin (sqrt (1 - c * c)))
                          (Fin (2 * PI * rnd k))
                          (Fin (1 - c * c)),
   S k).
Proof.
  intros Hc Hpos. unfold calculateWaveFunction, Rand.bind, Rand.random.
  rewrite Hc. cbn [JS.pow2 JS.mul JS.sub].
  rewrite (JSFacts.sqrt_Fin Hpos). cbn [JS.pow2 JS.mul Rand.ret].
  now rewrite (sqrt_sqrt _ Hpos).
Qed.

Lemma healthy_wave (n : nat) (p : t) :
  healthy n p ->
  exists c, coherence (this_state p) = Fin c /\ 0 < c < 1
            /\ 0 < 1 - c * c < 1.
Proof.
  intros (_ & (c & Hc & Hr) & _). exists c. repeat split; try tauto; nra.
Qed.

Lemma applyDecoherenceEffects_healthy (n : nat) (p : t) :
  healthy n p -> healthy n (applyDecoherenceEffects p).
Proof.
  intros (Hm & (c & Hc & Hr) & Hlen & Hq).
  rewrite (@ProcessorFacts.applyDecoherenceEffects_state p _ Hm Hc).
  repeat split; try assumption.
  exists (c * dephasing * thermal). split; [reflexivity |].
  pose proof ProcessorFacts.decay_bounds.
  pose proof ProcessorFacts.dephasing_bounds.
  pose proof ProcessorFacts.thermal_bounds. nra.
Qed.

Lemma calibrateQuantumRegisters_healthy (n : nat) (p : t) (k : nat) :
  healthy n p -> healthy n (fst (calibrateQuantumRegisters rnd p k)).
Proof.
  intros Hp. destruct (healthy_wave Hp) as (c & Hc & Hr & Hpr).
  destruct Hp as (Hm & Hcoh & Hlen & Hq).
  unfold calibrateQuantumRegisters, Rand.bind.
  match goal with
  | |- context [Rand.mapM ?f ?xs k] =>
      destruct (@JSFacts.mapM_Forall _ _ (JS.in_range 0 1) f xs) with (k := k)
        as [HF HL]
  end.
  - intros [q i] k0 Hin. apply in_combine_l in Hin.
    rewrite Forall_forall in Hq. destruct (Hq q Hin) as (a & -> & Ha).
    unfold Rand.bind. cbn [fst snd].
    rewrite (@calculateWaveFunction_value p c i k0 Hc) by lra.
    rewrite Hm. simpl.
    eexists; split; [reflexivity |]. nra.
  - destruct (Rand.mapM _ _ k) as [qs k']. simpl in *.
    repeat split; try assumption.
    cbn [qubits this_state set_state set_qubits].
    rewrite HL, length_combine, length_seq, Hlen. apply Nat.min_id.
Qed.

Lemma applySurfaceCode_healthy (n i : nat) (p : t) :
  (i < n - 2)%nat -> healthy n p -> healthy n (applySurfaceCode i p).
Proof.
  intros Hi (Hm & Hcoh & Hlen & Hq). unfold applySurfaceCode.
  assert (Ha : JS.in_range 0 1 (JS.array_get (qubits (this_state p)) i))
    by (apply JSFacts.array_get_Forall; [assumption | lia]).
  repeat split; try assumption; simpl.
  - rewrite !JSFacts.array_set_length; rewrite ?JSFacts.array_set_length; lia.
  - apply JSFacts.array_set_Forall; [rewrite JSFacts.array_set_length; lia | | assumption].
    apply JSFacts.array_set_Forall; [lia | assumption | assumption].
Qed.

Lemma initializeErrorCorrection_healthy (n : nat) (p : t) :
  healthy n p -> healthy n (initializeErrorCorrection p).
Proof.
  intros Hp. unfold initializeErrorCorrection.
  destruct (3 <=? _)%nat; [| exact Hp].
  destruct Hp as (Hm & Hcoh & Hlen & Hq). rewrite Hlen.
  apply JSFacts.for_range_invariant_below; [| repeat split; assumption].
  intros i s Hi Hs. now apply applySurfaceCode_healthy.
Qed.

Lemma constructor_healthy (n k : nat) :
  healthy n (fst (constructor rnd n k)).
Proof.
  unfold constructor, initializeQuantumSystem, Rand.bind.
  match goal with
  | |- context [calibrateQuantumRegisters rnd ?q k] =>
      assert (Hq : healthy n q)
  end.
  { rewrite (@ProcessorFacts.applyDecoherenceEffects_state _ 1.0)
      by reflexivity.
    repeat split; simpl.
    - exists (1.0 * dephasing * thermal). split; [reflexivity |].
      pose proof ProcessorFacts.decay_bounds. lra.
    - apply repeat_length.
    - apply Forall_forall. intros x Hx. apply repeat_spec in Hx. subst x.
      exists 0. split; [reflexivity | lra]. }
  pose proof (calibrateQuantumRegisters_healthy k Hq) as Hcal.
  destruct (calibrateQuantumRegisters rnd _ k) as [p1 k1]. simpl in *.
  now apply initializeErrorCorrection_healthy.
Qed.

Lemma pauliXGate_healthy (n tgt : nat) (p : t) (k : nat) :
  (tgt < n)%nat -> healthy n p -> healthy n (fst (pauliXGate rnd tgt p k)).
Proof.
  intros Ht Hp. destruct (healthy_wave Hp) as (c & Hc & Hr & Hpr).
  destruct Hp as (Hm & Hcoh & Hlen & Hq).
  unfold pauliXGate, Rand.bind.
  rewrite (@calculateWaveFunction_value p c tgt k Hc) by lra.
  rewrite Hm. cbn [fst Rand.ret environmentalNoise standardModel
                   wf_probability this_state set_state].
  repeat split; try assumption; simpl.
  - rewrite JSFacts.array_set_length; lia.
  - apply JSFacts.array_set_Forall; [lia | assumption |].
    match goal with |- context [if ?b then _ else _] => destruct b end;
      eexists; (split; [reflexivity | nra]).
Qed.

Lemma updateEntanglementMetric_healthy (n ctl tgt : nat) (p : t) :
  healthy n p -> healthy n (updateEntanglementMetric ctl tgt p).
Proof. intros (Hm & Hcoh & Hlen & Hq). repeat split; assumption. Qed.

Lemma updateSystemEntanglement_healthy (n : nat) (p : t) :
  healthy n p -> healthy n (updateSystemEntanglement p).
Proof. intros (Hm & Hcoh & Hlen & Hq). repeat split; assumption. Qed.

Lemma cnotGate_healthy (n tgt : nat) (ctl : option nat) (p : t) (k : nat) :
  (tgt < n)%nat -> healthy n p -> healthy n (fst (cnotGate rnd tgt ctl p k)).
Proof.
  intros Ht Hp. unfold cnotGate. destruct ctl as [c |]; [| exact Hp].
  unfold Rand.bind. destruct (_ === _).
  - pose proof (pauliXGate_healthy k Ht Hp) as HX.
    destruct (pauliXGate rnd tgt p k) as [p1 k1]. simpl in *.
    now apply updateEntanglementMetric_healthy.
  - simpl. now apply updateEntanglementMetric_healthy.
Qed.

Lemma applyGate_healthy (n : nat) (gate : QuantumGate) (p : t) (k : nat) :
  type gate <> Gate_H ->
  healthy n p -> healthy n (snd (fst (applyGate rnd gate p k))).
Proof.
  intros HnotH Hp. unfold applyGate, validateGateOperation.
  assert (Hlen : length (qubits (this_state p)) = n) by apply Hp.
  rewrite Hlen.
  destruct (Nat.leb_spec n (target gate)) as [Ht | Ht]; [exact Hp |].
  assert (Hgo :
    healthy n
      (snd (fst (match gateOperations rnd (type gate) with
                 | Some operation =>
                     p1 <- operation (target gate) (control gate) p ;;
                     Rand.ret (Returned,
                               updateSystemEntanglement
                                 (applyDecoherenceEffects p1))
                 | None => Rand.ret (Returned, p)
                 end k)))).
  { destruct (type gate); try contradiction; cbn [gateOperations];
      try exact Hp; unfold Rand.bind.
    - pose proof (pauliXGate_healthy k Ht Hp) as HX.
      destruct (pauliXGate rnd (target gate) p k) as [p1 k1].
      unfold Rand.ret. cbn [fst snd] in HX |- *.
      now apply updateSystemEntanglement_healthy,
                applyDecoherenceEffects_healthy.
    - pose proof (cnotGate_healthy (control gate) k Ht Hp) as HX.
      destruct (cnotGate rnd (target gate) (control gate) p k) as [p1 k1].
      unfold Rand.ret. cbn [fst snd] in HX |- *.
      now apply updateSystemEntanglement_healthy,
                applyDecoherenceEffects_healthy. }
  destruct (control gate) as [c |]; [| exact Hgo].
  destruct (n <=? c)%nat; [exact Hp | exact Hgo].
Qed.

Lemma fidelity_factor :
  0 < (1 - 0.001) * (1 - 0.015 * 1.380649e-23 / (6.62607015e-34 * 1e9)) < 1.
Proof. lra. Qed.

Lemma measure_healthy (n : nat) (p : t) (k : nat) :
  healthy n p ->
  healthy n (snd (fst (measure rnd p k)))
  /\ report_in_unit_interval (fst (fst (measure rnd p k))).
Proof.
  intros Hp. apply applyDecoherenceEffects_healthy in Hp.
  unfold measure. set (p1 := applyDecoherenceEffects p) in *.
  destruct (healthy_wave Hp) as (c & Hc & Hr & Hpr).
  destruct Hp as (Hm & Hcoh & Hlen & Hq).
  unfold Rand.bind.
  match goal with
  | |- context [Rand.mapM ?f ?xs k] =>
      destruct (@JSFacts.mapM_Forall _ _ (JS.in_range 0 1) f xs) with (k := k)
        as [HF HL]
  end.
  - intros [q i] k0 Hin. apply in_combine_l in Hin.
    rewrite Forall_forall in Hq. pose proof (Hq q Hin) as Hqi.
    unfold Rand.bind. cbn [fst snd].
    rewrite (@calculateWaveFunction_value p1 c i k0 Hc) by lra.
    simpl.
    match goal with |- context [if ?b then _ else _] => destruct b end;
      [| exact Hqi].
    exists 1. split; [reflexivity | lra].
  - destruct (Rand.mapM _ _ k) as [qs k1].
    destruct (calculateSystemEnergy rnd p1 k1) as [e k2].
    unfold calculateExecutionTime, Rand.bind, Rand.random, Rand.ret.
    cbn [fst snd]. split; [repeat split; assumption |].
    unfold report_in_unit_interval.
    cbn [state probability confidence qubits set_qubits].
    split; [exact HF | split].
    + unfold calculateMeasurementFidelity. rewrite Hm, Hc.
      unfold temperature, boltzmannConstant, planckConstant.
      cbn [environmentalNoise standardModel JS.sub JS.mul].
      rewrite JSFacts.div_Fin by lra. cbn [JS.sub JS.mul].
      eexists; split; [reflexivity |].
      pose proof fidelity_factor. nra.
    + exists c. split; [exact Hc | lra].
Qed.

Lemma drive_healthy (n : nat) (cs : list call) :
  Forall (fun c => ~ is_H c) cs ->
  forall p k, healthy n p -> healthy n (fst (drive rnd cs p k)).
Proof.
  induction 1 as [| c cs HnotH _ IH]; intros p k Hp; simpl.
  - exact Hp.
  - destruct c as [gate |]; unfold Rand.bind.
    + pose proof (@applyGate_healthy n gate p k HnotH Hp) as Hg.
      destruct (applyGate rnd gate p k) as [r k1]. now apply IH.
    + destruct (measure_healthy k Hp) as [Hm _].
      destruct (measure rnd p k) as [r k1]. now apply IH.
Qed.

(** The paths that keep the bound: on a processor that was constructed
    and then driven by any sequence of calls none of which applies a
    Hadamard gate, and for every stream of draws, [measure] reports
    qubit scalars, a probability and a confidence within [[0, 1]]. *)
Theorem measure_without_hadamard_in_unit_interval
        (n : nat) (cs : list call) (k : nat) :
  Forall (fun c => ~ is_H c) cs ->
  let (p0, k0) := constructor rnd n k in
  let (p, k1) := drive rnd cs p0 k0 in
  report_in_unit_interval (fst (fst (measure rnd p k1))).
Proof.
  intros Hcs.
  pose proof (constructor_healthy n k) as H0.
  destruct (constructor rnd n k) as [p0 k0].
  pose proof (@drive_healthy n cs Hcs p0 k0 H0) as H1.
  destruct (drive rnd cs p0 k0) as [p k1].
  now apply (@measure_healthy n p k1 H1).
Qed.

(** *** What a Hadamard gate does to the coherence *)

Lemma hadamardGate_coherence (tgt : nat) (p : t) (c : R) (k : nat) :
  decoherenceModel p = standardModel ->
  coherence (this_state p) = Fin c -> 0 <= 1 - c * c ->
  let p' := fst (hadamardGate rnd tgt p k) in
  coherence (this_state p')
  = Fin (c * (1 - sqrt (1 - c * c) * sin (2 * PI * rnd k))
         * (1 - rnd (S k) * 0.001))
  /\ decoherenceModel p' = standardModel.
Proof.
  intros Hm Hc Hpos. unfold hadamardGate, Rand.bind.
  rewrite (@calculateWaveFunction_value p c tgt k Hc Hpos).
  unfold Rand.random, Rand.ret.
  cbn [fst snd this_state set_state coherence set_coherence
       set_superposition decoherenceModel amplitude phase].
  rewrite Hm, Hc. cbn. split; reflexivity.
Qed.

Lemma applyGate_hadamard_coherence (tgt : nat) (p : t) (c : R) (k : nat) :
  decoherenceModel p = standardModel ->
  coherence (this_state p) = Fin c -> 0 <= 1 - c * c ->
  (tgt < length (qubits (this_state p)))%nat ->
  let p' := snd (fst (applyGate rnd (mkQuantumGate Gate_H tgt None None) p k)) in
  coherence (this_state p')
  = Fin (c * (1 - sqrt (1 - c * c) * sin (2 * PI * rnd k))
         * (1 - rnd (S k) * 0.001) * dephasing * thermal)
  /\ decoherenceModel p' = standardModel.
Proof.
  intros Hm Hc Hpos Ht. unfold applyGate, validateGateOperation.
  cbn [target control type gateOperations].
  destruct (Nat.leb_spec (length (qubits (this_state p))) tgt); [lia |].
  unfold Rand.bind.
  destruct (@hadamardGate_coherence tgt p c k Hm Hc Hpos) as [Hc1 Hm1].
  destruct (hadamardGate rnd tgt p k) as [p1 k1].
  unfold Rand.ret. cbn [fst snd] in Hc1, Hm1 |- *.
  rewrite (@ProcessorFacts.applyDecoherenceEffects_state p1 _ Hm1 Hc1).
  split; [reflexivity | exact Hm1].
Qed.

Lemma measure_confidence (p : t) (c : R) (k : nat) :
  decoherenceModel p = standardModel ->
  coherence (this_state p) = Fin c ->
  confidence (fst (fst (measure rnd p k))) = Fin (c * dephasing * thermal).
Proof.
  intros Hm Hc. unfold measure, Rand.bind.
  rewrite (@ProcessorFacts.applyDecoherenceEffects_state p _ Hm Hc).
  destruct (Rand.mapM _ _ k) as [qs k1].
  destruct (calculateSystemEnergy rnd _ k1) as [e k2].
  destruct (calculateExecutionTime rnd k2) as [time k3].
  reflexivity.
Qed.

End WithRandom.

Lemma measure_without_hadamard_in_unit_interval_witness :
  let cs := [ApplyGate (mkQuantumGate Gate_X 2 None None);
             ApplyGate (mkQuantumGate Gate_CNOT 1 (Some 0%nat) None);
             Measure;
             ApplyGate (mkQuantumGate Gate_RY 7 None (Some (Fin 0.5)))] in
  let (p0, k0) := constructor zeros 4%nat 0%nat in
  let (p, k1) := drive zeros cs p0 k0 in
  report_in_unit_interval (fst (fst (measure zeros p k1))).
Proof.
  intros cs.
  apply (@measure_without_hadamard_in_unit_interval zeros 4%nat cs 0%nat).
  repeat constructor; simpl; try discriminate; tauto.
Defined.

Lemma sqrt_lower (x l : R) : 0 <= l -> l * l <= x -> l <= sqrt x.
Proof.
  intros Hl Hx. rewrite <- (sqrt_square l Hl). now apply sqrt_le_1_alt.
Qed.

(** C4 is broken by [hadamardGate]: it multiplies the coherence by
    [1 - amplitude * sin(phase)] and does not clamp the product, where
    the entanglement updates beside it clamp theirs with
    [Math.min(1, ...)].  On a processor of one qubit, one Hadamard
    gate whose phase draw is 0.75 multiplies the coherence by
    [1 + sqrt(1 - coherence^2)], and the report of [measure] is not
    within [[0, 1]]: its confidence is above 1. *)
Theorem measure_after_hadamard_above_one :
  let (p0, k0) := constructor three_quarters 1%nat 0%nat in
  let (p, k1) :=
    drive three_quarters [ApplyGate (mkQuantumGate Gate_H 0 None None)]
          p0 k0 in
  ~ report_in_unit_interval (fst (fst (measure three_quarters p k1)))
  /\ exists x : R,
       confidence (fst (fst (measure three_quarters p k1))) = Fin x
       /\ 1 < x.
Proof.
  pose proof (ProcessorFacts.constructor_scalars three_quarters 1%nat 0%nat)
    as (Hc0 & _ & _ & Hm0).
  pose proof (constructor_healthy three_quarters 1%nat 0%nat) as (_ & _ & Hlen & _).
  destruct (constructor three_quarters 1%nat 0%nat) as [p0 k0].
  cbn [fst] in Hc0, Hm0, Hlen. cbn [drive]. unfold Rand.bind.
  pose proof DecayBounds.decay_numeric as Hd.
  set (c0 := dephasing * thermal) in *.
  assert (Hpos : 0 <= 1 - c0 * c0) by nra.
  destruct (@applyGate_hadamard_coherence three_quarters 0%nat p0 c0 k0
              Hm0 Hc0 Hpos ltac:(lia)) as [Hc1 Hm1].
  destruct (applyGate three_quarters _ p0 k0) as [[o p1] k1].
  unfold Rand.ret. cbn [fst snd] in Hc1, Hm1 |- *.
  pose proof (@measure_confidence three_quarters p1 _ k1 Hm1 Hc1) as Hx.
  unfold three_quarters in Hx at 2 3.
  replace (2 * PI * 0.75) with (3 * (PI / 2)) in Hx by lra.
  rewrite sin_3PI2 in Hx.
  match type of Hx with _ = Fin ?e => set (x := e) in Hx end.
  assert (Hgt : 1 < x).
  { assert (Hs : 0.24 <= sqrt (1 - c0 * c0)) by (apply sqrt_lower; nra).
    set (s := sqrt (1 - c0 * c0)) in *.
    assert (H2 : 0.9 <= c0 * c0 <= 1) by nra.
    set (y := c0 * c0) in *.
    assert (H3 : 0.854 <= y * c0 <= 1) by nra.
    assert (Hx' : x = y * c0 * ((1 + s) * (1 - 0.75 * 0.001))).
    { unfold x, y, c0. ring. }
    set (z := y * c0) in *.
    assert (H4 : 1.239 <= (1 + s) * (1 - 0.75 * 0.001)) by nra.
    nra. }
  split.
  - intros (_ & _ & (x' & Hx' & Hx01)).
    rewrite Hx in Hx'. injection Hx' as <-. lra.
  - exists x. split; [exact Hx | exact Hgt].
Qed.

End MeasureFacts.

(** ** Teleportation corrections *)

Module TeleportFacts.

Import QuantumAlgorithms.
Open Scope R_scope.
Open Scope js_scope.

Lemma neg_involutive (x : number) : JS.neg (JS.neg x) = x.
Proof. destruct x; simpl; trivial. now rewrite Ropp_involutive. Qed.

Lemma truthy_1 : JS.truthy (Fin 1) = true.
Proof. simpl. now rewrite (@JSFacts.Reqb_false 1 0) by lra. Qed.

Lemma truthy_0 : JS.truthy (Fin 0) = false.
Proof. simpl. now rewrite (@JSFacts.Reqb_true 0 0) by reflexivity. Qed.

Example corrections_both_bits :
  applyTeleportationCorrections (mkComplex (Fin 3) (Fin 4)) (Fin 1, Fin 1)
  = mkComplex (Fin 4) (Fin (- 3)).
Proof.
  unfold applyTeleportationCorrections. cbn [fst snd].
  rewrite truthy_1. reflexivity.
Qed.

Example corrections_no_bit :
  applyTeleportationCorrections (mkComplex (Fin 3) (Fin 4)) (Fin 0, Fin 0)
  = mkComplex (Fin 3) (Fin 4).
Proof.
  unfold applyTeleportationCorrections. cbn [fst snd].
  rewrite truthy_0. reflexivity.
Qed.

(** C3, as the code has it: for measurement bits in {0, 1}, applying
    the correction step twice gives back the qubit value unless both
    bits are 1; when both are 1 the swap and the negation do not
    commute, and two applications negate both components. *)
Theorem corrections_twice (q : Complex) (m1 m2 : number) :
  m1 = Fin 0 \/ m1 = Fin 1 ->
  m2 = Fin 0 \/ m2 = Fin 1 ->
  applyTeleportationCorrections
    (applyTeleportationCorrections q (m1, m2)) (m1, m2)
  = if JS.truthy m1 && JS.truthy m2
    then mkComplex (JS.neg (real q)) (JS.neg (imag q))
    else q.
Proof.
  intros [-> | ->] [-> | ->]; unfold applyTeleportationCorrections;
    cbn [fst snd]; rewrite ?truthy_0, ?truthy_1; cbn [andb];
    destruct q as [re im]; unfold pauliX, pauliZ; cbn [real imag];
    rewrite ?neg_involutive; reflexivity.
Qed.

Lemma corrections_twice_witness :
  applyTeleportationCorrections
    (applyTeleportationCorrections (mkComplex (Fin 0.6) (Fin 0.8))
                                   (Fin 1, Fin 0))
    (Fin 1, Fin 0)
  = if JS.truthy (Fin 1) && JS.truthy (Fin 0)
    then mkComplex (JS.neg (Fin 0.6)) (JS.neg (Fin 0.8))
    else mkComplex (Fin 0.6) (Fin 0.8).
Proof.
  apply (@corrections_twice (mkComplex (Fin 0.6) (Fin 0.8)) (Fin 1) (Fin 0)).
  - right. reflexivity.
  - left. reflexivity.
Defined.

(** C3 as stated fails: with both measurement bits 1, two applications
    take the qubit [(1, 0)] to [(-1, -0)]. *)
Lemma corrections_twice_not_identity :
  applyTeleportationCorrections
    (applyTeleportationCorrections (mkComplex (Fin 1) (Fin 0)) (Fin 1, Fin 1))
    (Fin 1, Fin 1)
  <> mkComplex (Fin 1) (Fin 0).
Proof.
  unfold applyTeleportationCorrections. cbn [fst snd].
  rewrite truthy_1. unfold pauliX, pauliZ. cbn [real imag JS.neg].
  intros H. injection H as H _. lra.
Qed.

End TeleportFacts.

(** ** The quantum natural gradient step *)

Module GradientFacts.

Import QuantumOptimizer Props.
Open Scope R_scope.
Open Scope js_scope.

Lemma nth_error_map_seq (A : Type) (f : nat -> A) (s n i : nat) :
  (i < n)%nat -> nth_error (map f (List.seq s n)) i = Some (f (s + i)%nat).
Proof.
  intros Hi. rewrite nth_error_map, nth_error_seq.
  destruct (Nat.ltb_spec i n); [reflexivity | lia].
Qed.

Lemma set_nth_map_seq (A : Type) (f : nat -> A) (s n i : nat) (v : A) :
  set_nth (map f (List.seq s n)) i v
  = map (fun j => if Nat.eqb j (s + i) then v else f j) (List.seq s n).
Proof.
  revert s i. induction n as [| n IH]; intros s i; simpl; [reflexivity |].
  destruct i as [| i].
  - rewrite Nat.add_0_r, Nat.eqb_refl. f_equal.
    apply map_ext_in. intros j Hj. apply in_seq in Hj.
    destruct (Nat.eqb_spec j s); [lia | reflexivity].
  - destruct (Nat.eqb_spec s (s + S i)); [lia |]. f_equal.
    rewrite IH. apply map_ext. intros j.
    now replace (S s + i)%nat with (s + S i)%nat by lia.
Qed.

Lemma map_throw_total (A B : Type) (f : A -> option B) (h : A -> B)
      (xs : list A) :
  (forall x, In x xs -> f x = Some (h x)) ->
  map_throw f xs = Some (map h xs).
Proof.
  induction xs as [| x xs IH]; intros Hf; simpl; [reflexivity |].
  rewrite (Hf x (or_introl eq_refl)), IH; [reflexivity |].
  intros y Hy. apply Hf. now right.
Qed.

Lemma indexed_In (A : Type) (xs : list A) (x : A) (i : nat) :
  In (x, i) (indexed xs) -> nth_error xs i = Some x.
Proof.
  assert (G : forall s, In (x, i) (combine xs (List.seq s (length xs))) ->
                        (s <= i)%nat /\ nth_error xs (i - s) = Some x).
  { induction xs as [| y xs IH]; intros s Hin; simpl in Hin; [contradiction |].
    destruct Hin as [Heq | Hin].
    - injection Heq as -> ->. rewrite Nat.sub_diag. split; [lia | reflexivity].
    - destruct (IH (S s) Hin) as [Hle Hnth]. split; [lia |].
      replace (i - s)%nat with (S (i - S s)) by lia. exact Hnth. }
  intros Hin. destruct (G 0%nat Hin) as [_ Hnth].
  now rewrite Nat.sub_0_r in Hnth.
Qed.

Lemma map_const_seq (A : Type) (c : A) (s n : nat) :
  map (fun _ => c) (List.seq s n) = repeat c n.
Proof.
  revert s. induction n as [| n IH]; intros s; simpl; [reflexivity |].
  now rewrite IH.
Qed.

Lemma square_entry (n : nat) (m : Matrix) (i j : nat) :
  square n m -> (i < n)%nat -> (j < n)%nat ->
  exists c, entry m i j = Some c.
Proof.
  intros [Hlen Hrows] Hi Hj. unfold entry.
  destruct (nth_error m i) as [row |] eqn:Hrow.
  - rewrite Forall_forall in Hrows.
    pose proof (Hrows row (nth_error_In _ _ Hrow)) as Hr.
    destruct (nth_error row j) as [c |] eqn:Hc; [now exists c |].
    apply nth_error_None in Hc. lia.
  - apply nth_error_None in Hrow. lia.
Qed.

(** *** The simplified inverse *)

Lemma entry_diagonal_inverse (n k : nat) (m : Matrix) (i j : nat) :
  (i < n)%nat -> (j < n)%nat ->
  entry (diagonal_inverse n k m) i j
  = Some (if Nat.eqb j i && Nat.ltb i k
          then mkComplex (Fin 1 ./ diagonal_real m i) (Fin 0)
          else zero).
Proof.
  intros Hi Hj. unfold entry, diagonal_inverse.
  rewrite (nth_error_map_seq _ 0 Hi). cbn [Nat.add].
  now rewrite (nth_error_map_seq _ 0 Hj).
Qed.

Lemma set_entry_diagonal_inverse (n k : nat) (m : Matrix) :
  (k < n)%nat ->
  set_entry (diagonal_inverse n k m) k k
            (mkComplex (Fin 1 ./ diagonal_real m k) (Fin 0))
  = diagonal_inverse n (S k) m.
Proof.
  intros Hk. unfold set_entry, diagonal_inverse.
  rewrite (nth_error_map_seq _ 0 Hk). cbn [Nat.add].
  rewrite !set_nth_map_seq. cbn [Nat.add].
  apply map_ext_in. intros i Hi. apply in_seq in Hi.
  destruct (Nat.eqb_spec i k) as [-> | Hne].
  - apply map_ext. intros j.
    destruct (Nat.eqb_spec j k); cbn [andb].
    + now rewrite (proj2 (Nat.ltb_lt k (S k))) by lia.
    + reflexivity.
  - apply map_ext. intros j.
    destruct (Nat.eqb_spec j i); cbn [andb]; [| reflexivity].
    destruct (Nat.ltb_spec i k), (Nat.ltb_spec i (S k)); try lia; reflexivity.
Qed.

Lemma inverse_loop (n : nat) (m : Matrix) :
  square n m ->
  forall len a, (a + len <= n)%nat ->
    reduce_throw
      (fun (result : Matrix) i =>
         let? mii := entry m i i in
         Some (set_entry result i i (mkComplex (Fin 1 ./ real mii) (Fin 0))))
      (List.seq a len) (diagonal_inverse n a m)
    = Some (diagonal_inverse n (a + len) m).
Proof.
  intros Hsq len. induction len as [| len IH]; intros a Ha; simpl.
  - now rewrite Nat.add_0_r.
  - destruct (@square_entry n m a a Hsq) as [c Hc]; try lia.
    rewrite Hc.
    assert (Hd : real c = diagonal_real m a)
      by (unfold diagonal_real; now rewrite Hc).
    rewrite Hd, set_entry_diagonal_inverse by lia.
    rewrite IH by lia. f_equal. f_equal. lia.
Qed.

Lemma inverseMatrix_square (n : nat) (m : Matrix) :
  square n m -> inverseMatrix m = Some (diagonal_inverse n n m).
Proof.
  intros Hsq. unfold inverseMatrix. destruct Hsq as [Hlen Hrows] eqn:E.
  rewrite Hlen.
  replace (repeat (repeat zero n) n) with (diagonal_inverse n 0 m).
  - apply (inverse_loop (conj Hlen Hrows) n 0). lia.
  - unfold diagonal_inverse.
    rewrite <- (map_const_seq (repeat zero n) 0 n).
    apply map_ext. intros i. rewrite <- (map_const_seq zero 0 n).
    apply map_ext. intros j. now rewrite andb_false_r.
Qed.

Example inverse_of_a_two_by_two :
  inverseMatrix [[mkComplex (Fin 2) (Fin 1); mkComplex (Fin 9) (Fin 0)];
                 [mkComplex (Fin 7) (Fin 0); mkComplex (Fin 4) (Fin 3)]]
  = Some [[mkComplex (Fin (1 / 2)) (Fin 0); zero];
          [zero; mkComplex (Fin (1 / 4)) (Fin 0)]].
Proof.
  unfold inverseMatrix. cbn -[JS.div]. rewrite !JSFacts.div_Fin by lra.
  reflexivity.
Qed.

(** *** Regularization *)

Lemma regularize_square (n : nat) (fisher : Matrix) :
  square n fisher -> square n (regularizeQuantumFisher fisher).
Proof.
  intros [Hlen Hrows]. unfold regularizeQuantumFisher. split.
  - now rewrite length_map.
  - apply Forall_map. eapply Forall_impl; [| exact Hrows].
    intros row Hrow. now rewrite length_map.
Qed.

Lemma regularize_diagonal (n : nat) (fisher : Matrix) (i : nat) :
  square n fisher -> (i < n)%nat ->
  diagonal_real (regularizeQuantumFisher fisher) i
  = diagonal_real fisher i .+ Fin 1e-5.
Proof.
  intros Hsq Hi. destruct (@square_entry n fisher i i Hsq Hi Hi) as [c Hc].
  unfold diagonal_real. rewrite Hc.
  unfold entry, regularizeQuantumFisher in *.
  rewrite nth_error_map.
  destruct (nth_error fisher i) as [row |]; [| discriminate].
  cbn [option_map]. rewrite nth_error_map, Hc. reflexivity.
Qed.

(** *** The update *)

Lemma update_loop (n : nat) (m : Matrix) (gradient : list number) (i : nat) :
  (i < n)%nat -> Forall JS.is_finite gradient ->
  forall len a update, (a + len <= n)%nat -> (a + len <= length gradient)%nat ->
    reduce_throw
      (fun update j =>
         let? inv_ij := entry (diagonal_inverse n n m) i j in
         Some (update .+ real inv_ij .* JS.array_get gradient j))
      (List.seq a len) update
    = Some (if Nat.leb a i && Nat.ltb i (a + len)
            then update .+ Fin 1 ./ diagonal_real m i .* JS.array_get gradient i
            else update).
Proof.
  intros Hi Hg len. induction len as [| len IH]; intros a update Ha Hag; simpl.
  - replace (Nat.leb a i && Nat.ltb i (a + 0))%bool with false; [reflexivity |].
    destruct (Nat.leb_spec a i), (Nat.ltb_spec i (a + 0)); try reflexivity; lia.
  - rewrite entry_diagonal_inverse by lia.
    rewrite (proj2 (Nat.ltb_lt i n) Hi), andb_true_r.
    rewrite IH by lia.
    destruct (Nat.eqb_spec a i) as [-> | Hne]; cbn [real].
    + rewrite Nat.leb_refl, (proj2 (Nat.ltb_lt i (i + S len))) by lia.
      replace (Nat.leb (S i) i) with false
        by (symmetry; apply Nat.leb_gt; lia).
      reflexivity.
    + assert (Hfin : JS.is_finite (JS.array_get gradient a))
        by (apply JSFacts.array_get_Forall; [assumption | lia]).
      destruct Hfin as [ga ->]. unfold zero. cbn [real JS.mul].
      rewrite Rmult_0_l, JSFacts.add_0_r. f_equal.
      destruct (Nat.leb_spec a i), (Nat.leb_spec (S a) i),
               (Nat.ltb_spec i (a + S len)), (Nat.ltb_spec i (S a + len));
        cbn [andb]; try reflexivity; lia.
Qed.

(** Multiplying by the reciprocal and dividing agree, also when the
    divisor is zero or not finite. *)
Lemma reciprocal_times (f : number) (g : R) :
  LEARNING_RATE .* (Fin 1 ./ f .* Fin g) = Fin 0.01 .* Fin g ./ f.
Proof.
  unfold LEARNING_RATE.
  destruct f as [f | | |]; cbn [JS.div JS.mul]; trivial.
  - unfold JS.Reqb. destruct (Req_dec_T f 0) as [-> | Hf].
    + unfold JS.inf_times, JS.Reqb, JS.Rltb.
      destruct (Req_dec_T 1 0); [lra |].
      destruct (Rlt_dec 0 1); [| lra]. cbn [JS.mul].
      unfold JS.inf_times, JS.Reqb, JS.Rltb.
      destruct (Req_dec_T g 0), (Req_dec_T (0.01 * g) 0); try lra; trivial.
      destruct (Rlt_dec 0 g), (Rlt_dec 0 (0.01 * g)); try lra;
        cbn [JS.mul]; unfold JS.inf_times, JS.Reqb, JS.Rltb;
        destruct (Req_dec_T 0.01 0); try lra;
        destruct (Rlt_dec 0 0.01); try lra; reflexivity.
    + cbn [JS.mul]. f_equal. field. exact Hf.
  - f_equal. lra.
  - f_equal. lra.
Qed.

Lemma quantumNaturalGradient_steps
      (parameters : list number) (quantumFisher : Matrix)
      (gradient : list number) :
  square (length parameters) quantumFisher ->
  length gradient = length parameters ->
  Forall JS.is_finite gradient ->
  quantumNaturalGradient parameters quantumFisher gradient
  = Some (natural_gradient_steps parameters quantumFisher gradient).
Proof.
  intros Hsq Hlen Hg. set (n := length parameters) in *.
  pose proof (regularize_square Hsq) as Hreg.
  pose proof (inverseMatrix_square Hreg) as Hinv.
  unfold quantumNaturalGradient. rewrite Hinv.
  apply map_throw_total. intros [p i] Hin.
  assert (Hi : (i < n)%nat).
  { apply indexed_In in Hin. apply nth_error_Some. congruence. }
  cbn [fst snd].
  rewrite (@update_loop n _ gradient i Hi Hg (length gradient) 0%nat) by lia.
  cbn [Nat.leb andb Nat.add].
  rewrite (proj2 (Nat.ltb_lt i (length gradient))) by lia.
  rewrite JSFacts.add_0_l, (regularize_diagonal Hsq Hi).
  reflexivity.
Qed.

(** On a finite gradient the order of the operations does not matter
    in exact arithmetic. *)
Lemma steps_as_specified
      (parameters : list number) (quantumFisher : Matrix)
      (gradient : list number) :
  length gradient = length parameters ->
  Forall JS.is_finite gradient ->
  natural_gradient_steps parameters quantumFisher gradient
  = natural_gradient_spec parameters quantumFisher gradient.
Proof.
  intros Hlen Hg. unfold natural_gradient_steps, natural_gradient_spec.
  apply map_ext_in. intros [p i] Hin. cbn [fst snd].
  assert (Hi : (i < length gradient)%nat).
  { apply indexed_In in Hin. rewrite Hlen. apply nth_error_Some. congruence. }
  destruct (JSFacts.array_get_Forall Hg Hi) as [gi ->].
  pose proof (reciprocal_times
                (diagonal_real quantumFisher i .+ Fin 1e-5) gi) as H.
  unfold LEARNING_RATE in H. now rewrite H.
Qed.

(** C7, as the code has it: on a square Fisher matrix of the dimension
    of the parameter vector and a gradient of finite numbers of the
    same length, [quantumNaturalGradient] returns the vector of the
    [p[i] - 0.01 * g[i] / (F[i][i].real + 1e-5)]; the code computes the
    entry as [p[i] - 0.01 * ((1 / (F[i][i].real + 1e-5)) * g[i])],
    which is the same number in exact arithmetic; and the simplified
    inverse of the regularized matrix has the reciprocals of the
    regularized diagonal on its diagonal and zero everywhere else. *)
Theorem quantumNaturalGradient_diagonal
        (parameters : list number) (quantumFisher : Matrix)
        (gradient : list number) :
  square (length parameters) quantumFisher ->
  length gradient = length parameters ->
  Forall JS.is_finite gradient ->
  quantumNaturalGradient parameters quantumFisher gradient
  = Some (natural_gradient_spec parameters quantumFisher gradient)
  /\ inverseMatrix (regularizeQuantumFisher quantumFisher)
     = Some (diagonal_inverse (length parameters) (length parameters)
                              (regularizeQuantumFisher quantumFisher))
  /\ quantumNaturalGradient parameters quantumFisher gradient
     = Some (natural_gradient_steps parameters quantumFisher gradient).
Proof.
  intros Hsq Hlen Hg.
  pose proof (@quantumNaturalGradient_steps parameters quantumFisher gradient
                Hsq Hlen Hg) as Hsteps.
  split; [| split; [| exact Hsteps]].
  - rewrite Hsteps. f_equal. now apply steps_as_specified.
  - apply inverseMatrix_square. now apply regularize_square.
Qed.

Lemma quantumNaturalGradient_diagonal_witness :
  let parameters := [Fin 1; Fin 2] in
  let quantumFisher :=
    [[mkComplex (Fin 2) (Fin 0); mkComplex (Fin 5) (Fin 1)];
     [mkComplex (Fin 7) (Fin 0); mkComplex (Fin 4) (Fin 0)]] in
  let gradient := [Fin 3; Fin (-1)] in
  quantumNaturalGradient parameters quantumFisher gradient
  = Some (natural_gradient_spec parameters quantumFisher gradient)
  /\ inverseMatrix (regularizeQuantumFisher quantumFisher)
     = Some (diagonal_inverse (length parameters) (length parameters)
                              (regularizeQuantumFisher quantumFisher))
  /\ quantumNaturalGradient parameters quantumFisher gradient
     = Some (natural_gradient_steps parameters quantumFisher gradient).
Proof.
  intros parameters quantumFisher gradient.
  apply (@quantumNaturalGradient_diagonal parameters quantumFisher gradient).
  - split; [reflexivity | repeat constructor].
  - reflexivity.
  - repeat constructor; eexists; reflexivity.
Defined.

(** *** A gradient that is not finite *)

Lemma zero_times_infinity : Fin 0 .* PInf = NaN.
Proof.
  cbn [JS.mul]. unfold JS.inf_times.
  now rewrite JSFacts.Reqb_true by reflexivity.
Qed.

Lemma positive_times_infinity (r : R) : 0 < r -> Fin r .* PInf = PInf.
Proof.
  intros H. cbn [JS.mul]. unfold JS.inf_times.
  rewrite (@JSFacts.Reqb_false r 0) by lra.
  now rewrite (@JSFacts.Rltb_true 0 r) by lra.
Qed.

(** What the code returns on the 2-by-2 identity with the gradient
    [[Infinity, 0]]: the zero of the inverse off the diagonal, times
    [Infinity], is [NaN], and the second update is lost. *)
Lemma infinite_gradient_of_the_code :
  quantumNaturalGradient
    [Fin 0; Fin 0]
    [[mkComplex (Fin 1) (Fin 0); mkComplex (Fin 0) (Fin 0)];
     [mkComplex (Fin 0) (Fin 0); mkComplex (Fin 1) (Fin 0)]]
    [PInf; Fin 0]
  = Some [NInf; NaN].
Proof.
  unfold quantumNaturalGradient.
  rewrite (@inverseMatrix_square 2)
    by (split; [reflexivity | repeat constructor]).
  cbn -[JS.div JS.mul JS.add JS.sub].
  rewrite zero_times_infinity.
  repeat match goal with
         | |- context [Fin 1 .+ Fin ?e] =>
             change (Fin 1 .+ Fin e) with (Fin (1 + e))
         end.
  rewrite !JSFacts.div_Fin by lra.
  rewrite positive_times_infinity by (apply Rdiv_lt_0_compat; lra).
  cbn [JS.add JS.mul].
  change (LEARNING_RATE .* PInf) with (Fin 0.01 .* PInf).
  rewrite positive_times_infinity by lra.
  reflexivity.
Qed.

(** C7 as stated fails: with the parameters [[0, 0]], the 2-by-2
    identity and the gradient [[Infinity, 0]], the second entry that
    the code returns is [NaN], and the second entry of the formula,
    [0 - 0.01 * 0 / (1 + 1e-5)], is a finite number: the term [j = 0]
    contributes [0 * Infinity] to the second update. *)
Lemma quantumNaturalGradient_infinite_gradient :
  let parameters := [Fin 0; Fin 0] in
  let quantumFisher :=
    [[mkComplex (Fin 1) (Fin 0); mkComplex (Fin 0) (Fin 0)];
     [mkComplex (Fin 0) (Fin 0); mkComplex (Fin 1) (Fin 0)]] in
  let gradient := [PInf; Fin 0] in
  quantumNaturalGradient parameters quantumFisher gradient
  <> Some (natural_gradient_spec parameters quantumFisher gradient).
Proof.
  intros parameters quantumFisher gradient.
  subst parameters quantumFisher gradient.
  rewrite infinite_gradient_of_the_code.
  unfold natural_gradient_spec.
  cbn -[JS.div JS.mul JS.add JS.sub].
  intros H. injection H as _ H. revert H.
  rewrite JSFacts.Reqb_false by lra. discriminate.
Qed.

End GradientFacts.

(** ** Imaginary-time evolution *)

Module EvolutionFacts.

Import QuantumOptimizer Props.
Open Scope R_scope.
Open Scope js_scope.

(** *** One evolution step is a matrix-vector product *)

Lemma entry_row (m : Matrix) (i j : nat) (row : list Complex) :
  nth_error m i = Some row -> entry m i j = nth_error row j.
Proof. intros H. unfold entry. now rewrite H. Qed.

Lemma reduce_row (hamiltonian : Matrix) (i : nat) (row : list Complex)
      (dt : number) :
  nth_error hamiltonian i = Some row ->
  forall (st' row' : list Complex) (b : nat) (acc : Complex),
    length row' = length st' ->
    (forall j, (j < length row')%nat ->
               nth_error row (b + j) = nth_error row' j) ->
    reduce_throw
      (fun acc (sj : Complex * nat) =>
         let? h := entry hamiltonian i (snd sj) in
         Some (cadd acc (cscale (cmul h (fst sj)) dt)))
      (combine st' (List.seq b (length st'))) acc
    = Some (weighted_sum row' st' dt acc).
Proof.
  intros Hrow.
  induction st' as [| s st' IH]; intros row' b acc Hlen Hnth.
  - destruct row'; [reflexivity | discriminate].
  - destruct row' as [| h row']; [discriminate |].
    cbn [length List.seq combine reduce_throw fst snd].
    pose proof (Hnth 0%nat ltac:(simpl; lia)) as H0.
    rewrite Nat.add_0_r in H0. cbn [nth_error] in H0.
    rewrite (@entry_row hamiltonian i b row Hrow), H0.
    rewrite (IH row' (S b)).
    + reflexivity.
    + simpl in Hlen. lia.
    + intros j Hj. specialize (Hnth (S j) ltac:(simpl; lia)).
      now replace (S b + j)%nat with (b + S j)%nat by lia.
Qed.

Lemma evolve_rows (hamiltonian : Matrix) (st : list Complex) (dt : number) :
  forall (rest : list Complex) (rows : Matrix) (a : nat),
    length rows = length rest ->
    Forall (fun row => length row = length st) rows ->
    (forall i, (i < length rows)%nat ->
               nth_error hamiltonian (a + i) = nth_error rows i) ->
    map_throw
      (fun (si : Complex * nat) =>
         reduce_throw
           (fun acc (sj : Complex * nat) =>
              let? h := entry hamiltonian (snd si) (snd sj) in
              Some (cadd acc (cscale (cmul h (fst sj)) dt)))
           (indexed st) zero)
      (combine rest (List.seq a (length rest)))
    = Some (map (fun row => weighted_sum row st dt zero) rows).
Proof.
  induction rest as [| s rest IH]; intros rows a Hlen Hrows Hnth.
  - destruct rows; [reflexivity | discriminate].
  - destruct rows as [| row rows]; [discriminate |].
    cbn [length List.seq combine map_throw map fst snd].
    pose proof (Hnth 0%nat ltac:(simpl; lia)) as H0.
    rewrite Nat.add_0_r in H0. cbn [nth_error] in H0.
    inversion Hrows as [| ? ? Hrow Hrows']; subst.
    unfold indexed at 1.
    rewrite (@reduce_row hamiltonian a row dt H0 st row 0%nat zero Hrow)
      by (intros; reflexivity).
    rewrite (IH rows (S a)).
    + reflexivity.
    + simpl in Hlen. lia.
    + assumption.
    + intros i Hi. specialize (Hnth (S i) ltac:(simpl; lia)).
      now replace (S a + i)%nat with (a + S i)%nat by lia.
Qed.

Lemma evolveState_product (hamiltonian : Matrix) (st : list Complex)
      (dt : number) :
  square (length st) hamiltonian ->
  evolveState st hamiltonian dt = Some (product_step hamiltonian st dt).
Proof.
  intros [Hlen Hrows]. unfold product_step.
  exact (@evolve_rows hamiltonian st dt st hamiltonian 0%nat Hlen Hrows
                      (fun i _ => eq_refl)).
Qed.

Lemma product_step_length (hamiltonian : Matrix) (st : list Complex)
      (dt : number) :
  length (product_step hamiltonian st dt) = length hamiltonian.
Proof. unfold product_step. apply length_map. Qed.

Lemma normalizeState_length (st : list Complex) :
  length (normalizeState st) = length st.
Proof. unfold normalizeState. apply length_map. Qed.

Lemma evolutionLoop_product (hamiltonian : Matrix) (dt : number) :
  forall (timeSteps : nat) (st : list Complex),
    square (length st) hamiltonian ->
    evolutionLoop hamiltonian dt timeSteps st
    = Some (iterate (fun st => normalizeState (product_step hamiltonian st dt))
                    timeSteps st).
Proof.
  induction timeSteps as [| k IH]; intros st Hsq; simpl; [reflexivity |].
  rewrite (@evolveState_product hamiltonian st dt Hsq). apply IH.
  rewrite normalizeState_length, product_step_length.
  destruct Hsq as [Hlen Hrows]. rewrite Hlen. split; assumption.
Qed.


(** *** Renormalization *)

Lemma finite_inject (st : list Complex) :
  Forall finite_complex st -> exists zs, st = map inject zs.
Proof.
  induction 1 as [| c st [[re Hre] [im Him]] _ [zs ->]].
  - now exists [].
  - exists ((re, im) :: zs). destruct c as [r i]. simpl in *. now subst.
Qed.

Lemma fold_sum_squares (zs : list (R * R)) (acc : R) :
  fold_left (fun acc s => acc .+ real s .* real s .+ imag s .* imag s)
            (map inject zs) (Fin acc)
  = Fin (sum_squares zs acc).
Proof.
  revert acc. induction zs as [| z zs IH]; intros acc; simpl; [reflexivity |].
  apply IH.
Qed.

Lemma sum_squares_ge (zs : list (R * R)) (acc : R) :
  acc <= sum_squares zs acc.
Proof.
  revert acc. induction zs as [| z zs IH]; intros acc; simpl; [lra |].
  specialize (IH (acc + fst z * fst z + snd z * snd z)). nra.
Qed.

Lemma sum_squares_scaled (n : R) (zs : list (R * R)) (acc : R) :
  n <> 0 ->
  sum_squares (map (fun z => (fst z / n, snd z / n)) zs) (acc / (n * n))
  = sum_squares zs acc / (n * n).
Proof.
  intros Hn. revert acc. induction zs as [| z zs IH]; intros acc; simpl;
    [reflexivity |].
  rewrite <- IH. f_equal. field. exact Hn.
Qed.

(** In exact arithmetic, where the sum of the squares neither rounds
    nor overflows, a vector of finite numbers that is not the zero
    vector is renormalized to norm 1. *)
Lemma normalizeState_unit_norm (st : list Complex) :
  Forall finite_complex st -> norm st <> Fin 0 ->
  norm (normalizeState st) = Fin 1.
Proof.
  intros Hfin Hnz. destruct (finite_inject Hfin) as [zs ->].
  unfold normalizeState. fold (norm (map inject zs)).
  unfold norm in *. rewrite fold_sum_squares in *.
  pose proof (sum_squares_ge zs 0) as Hge.
  rewrite (JSFacts.sqrt_Fin Hge) in *.
  set (S := sum_squares zs 0) in *.
  assert (Hs : sqrt S <> 0) by congruence.
  assert (HS : sqrt S * sqrt S = S) by now apply sqrt_sqrt.
  rewrite map_map.
  rewrite (map_ext _ (fun z => inject (fst z / sqrt S, snd z / sqrt S))).
  - rewrite <- (map_map (fun z => (fst z / sqrt S, snd z / sqrt S)) inject).
    rewrite fold_sum_squares.
    replace 0 with (0 / (sqrt S * sqrt S)) at 1 by (field; exact Hs).
    rewrite sum_squares_scaled by exact Hs. fold S. rewrite HS.
    assert (HSnz : S <> 0) by (intros E; apply Hs; rewrite E; apply sqrt_0).
    replace (S / S) with 1 by (field; exact HSnz).
    rewrite JSFacts.sqrt_Fin by lra. now rewrite sqrt_1.
  - intros z. unfold inject. cbn [real imag fst snd].
    now rewrite !JSFacts.div_Fin by exact Hs.
Qed.

(** [normalizeState] is the division of every component by the
    Euclidean norm of the vector. *)
Lemma normalizeState_renormalize (st : list Complex) :
  normalizeState st = renormalize st.
Proof. reflexivity. Qed.





(** *** The Euler update is not what a round computes *)





(** *** Products that are all zero *)

(** A round whose products are all zero divides zero by zero: the
    state returned holds [NaN], and its norm is not 1. *)
Lemma imaginaryTimeEvolution_zero_products :
  imaginaryTimeEvolution [[mkComplex (Fin 0) (Fin 0)]]
                         [mkComplex (Fin 1) (Fin 0)] (Fin 1) 1
  = Some [nan_complex]
  /\ norm [nan_complex] <> Fin 1.
Proof.
  split; [| discriminate].
  unfold imaginaryTimeEvolution, JS.of_nat. cbn [INR].
  rewrite JSFacts.div_Fin by lra.
  cbn -[Rplus Rmult Rminus Rdiv Ropp JS.sqrt JS.div].
  match goal with
  | |- context [JS.sqrt (Fin ?x)] => replace x with 0 by lra
  end.
  rewrite (@JSFacts.sqrt_Fin 0) by lra. rewrite sqrt_0.
  replace (0 + (0 * 1 - 0 * 0) * (1 / 1)) with 0 by lra.
  replace (0 + (0 * 0 + 0 * 1) * (1 / 1)) with 0 by lra.
  cbn [JS.div]. unfold JS.inf_times.
  now rewrite !(@JSFacts.Reqb_true 0 0) by reflexivity.
Qed.

End EvolutionFacts.

(** ** The QAOA loop *)

Module QAOAFacts.

Import QuantumOptimizer Props.
Open Scope R_scope.
Open Scope js_scope.

Lemma indexed_length (A : Type) (xs : list A) :
  length (indexed xs) = length xs.
Proof.
  unfold indexed. rewrite length_combine, length_seq. apply Nat.min_id.
Qed.

Lemma nth_error_indexed (A : Type) (xs : list A) (i : nat) (x : A) :
  nth_error xs i = Some x -> nth_error (indexed xs) i = Some (x, i).
Proof.
  unfold indexed.
  assert (G : forall s j, nth_error xs j = Some x ->
                nth_error (combine xs (List.seq s (length xs))) j
                = Some (x, (s + j)%nat)).
  { induction xs as [| y xs IH]; intros s [| j] Hj; simpl in *;
      try discriminate.
    - injection Hj as ->. now rewrite Nat.add_0_r.
    - rewrite (IH (S s) j Hj). do 2 f_equal. lia. }
  intros H. apply (G 0%nat i H).
Qed.

Example alternate_even : alternate 4 = Fin (-1).
Proof. reflexivity. Qed.

Example alternate_odd : alternate 7 = Fin 1.
Proof. reflexivity. Qed.

Lemma alternate_finite (idx : nat) :
  alternate idx = Fin (-1) \/ alternate idx = Fin 1.
Proof. unfold alternate. destruct (Nat.eqb _ _); auto. Qed.

(** The update is gradient descent with learning rate 0.01: entry [i]
    becomes [p[i] - 0.01 * (-sin(p[i]) * sign(i))]. *)
Lemma descent_explicit (parameters : list number) :
  descent parameters
  = map (fun pi : number * nat =>
           fst pi .- Fin 0.01 .* (JS.neg (JS.sin (fst pi)) .* alternate (snd pi)))
        (indexed parameters).
Proof.
  unfold descent, updateParameters, evaluateQAOAObjective. cbn [snd].
  apply map_ext_in. intros [x i] Hin. cbn [fst snd].
  apply GradientFacts.indexed_In in Hin.
  apply nth_error_indexed in Hin. unfold JS.array_get.
  erewrite nth_error_nth; [reflexivity |].
  rewrite nth_error_map, Hin. reflexivity.
Qed.

Lemma descent_length (parameters : list number) :
  length (descent parameters) = length parameters.
Proof. rewrite descent_explicit, length_map. apply indexed_length. Qed.

Lemma descent_finite (parameters : list number) :
  Forall JS.is_finite parameters -> Forall JS.is_finite (descent parameters).
Proof.
  intros Hp. rewrite descent_explicit. apply Forall_forall.
  intros y Hy. apply in_map_iff in Hy. destruct Hy as ([x i] & <- & Hin).
  apply GradientFacts.indexed_In, nth_error_In in Hin.
  rewrite Forall_forall in Hp. destruct (Hp x Hin) as [r ->]. cbn [fst snd].
  destruct (alternate_finite i) as [-> | ->]; eexists; reflexivity.
Qed.

Lemma objective_finite (parameters : list number) :
  Forall JS.is_finite parameters -> JS.is_finite (objective parameters).
Proof.
  intros Hp. unfold objective, evaluateQAOAObjective. cbn [fst].
  apply JSFacts.fold_left_invariant; [| now exists 0].
  intros acc [x i] Hin [a ->].
  apply GradientFacts.indexed_In, nth_error_In in Hin.
  rewrite Forall_forall in Hp. destruct (Hp x Hin) as [r ->]. cbn [fst snd].
  destruct (alternate_finite i) as [-> | ->]; eexists; reflexivity.
Qed.

Lemma iterate_descent_finite (k : nat) (parameters : list number) :
  Forall JS.is_finite parameters ->
  Forall JS.is_finite (iterate descent k parameters)
  /\ length (iterate descent k parameters) = length parameters.
Proof.
  revert parameters. induction k as [| k IH]; intros p Hp; simpl.
  - split; [exact Hp | reflexivity].
  - destruct (IH (descent p) (descent_finite Hp)) as [HF HL].
    split; [exact HF | now rewrite HL, descent_length].
Qed.

(** The loop leaves with the parameters of [iteration - it] descent
    steps, the objective of the step before, and either the cap
    reached or a change of the objective below the threshold. *)
Lemma qaoaLoop_result (costH mixingH : Matrix) (depth : nat) :
  forall (fuel : nat) (parameters : list number) (currentEnergy : number)
         (it : nat),
    (it <= MAX_ITERATIONS)%nat -> (MAX_ITERATIONS - it < fuel)%nat ->
    exists r,
      qaoaLoop costH mixingH depth fuel parameters currentEnergy it = Some r
      /\ (it <= iteration r <= MAX_ITERATIONS)%nat
      /\ qaoa_parameters r = iterate descent (iteration r - it) parameters
      /\ energy r
         = (if Nat.eqb (iteration r) it then currentEnergy
            else objective (iterate descent (iteration r - it - 1) parameters))
      /\ (iteration r = MAX_ITERATIONS
          \/ (JS.abs (objective (qaoa_parameters r) .- energy r)
              .< CONVERGENCE_THRESHOLD) = true).
Proof.
  induction fuel as [| fuel IH]; intros p cur it Hit Hfuel; [lia |].
  cbn [qaoaLoop].
  destruct (Nat.ltb_spec it MAX_ITERATIONS) as [Hlt | Hge].
  - change (evaluateQAOAObjective p costH mixingH depth)
      with (objective p, snd (evaluateQAOAObjective p [] [] 0)).
    cbv iota beta.
    destruct (JS.abs (objective p .- cur) .< CONVERGENCE_THRESHOLD) eqn:Hexit.
    + eexists. split; [reflexivity |]. cbn [iteration qaoa_parameters energy].
      rewrite Nat.sub_diag, Nat.eqb_refl. simpl.
      repeat split; lia || (right; exact Hexit).
    + fold (descent p).
      destruct (IH (descent p) (objective p) (S it)) as
        (r & Hr & Hrange & Hpar & Hen & Hstop); try lia.
      exists r. split; [exact Hr |]. split; [lia |].
      replace (iteration r - it)%nat with (S (iteration r - S it)) by lia.
      split; [exact Hpar |]. split; [| exact Hstop].
      rewrite Hen.
      destruct (Nat.eqb_spec (iteration r) (S it)) as [E | E].
      * destruct (Nat.eqb_spec (iteration r) it); [lia |].
        now replace (S (iteration r - S it) - 1)%nat with 0%nat by lia.
      * destruct (Nat.eqb_spec (iteration r) it); [lia |].
        now replace (S (iteration r - S it) - 1)%nat
          with (S (iteration r - S it - 1)) by lia.
  - eexists. split; [reflexivity |]. cbn [iteration qaoa_parameters energy].
    rewrite Nat.sub_diag, Nat.eqb_refl. simpl.
    repeat split; lia.
Qed.

Lemma initializeRandomParameters_finite (rnd : Rand.source) (count k : nat) :
  Forall JS.is_finite (fst (initializeRandomParameters rnd count k))
  /\ length (fst (initializeRandomParameters rnd count k)) = count.
Proof.
  unfold initializeRandomParameters.
  match goal with
  | |- context [Rand.mapM ?f ?xs k] =>
      destruct (@JSFacts.mapM_Forall _ _ JS.is_finite f xs) with (k := k)
        as [HF HL]
  end.
  - intros x k0 _. unfold Rand.bind, Rand.random, Rand.ret. simpl.
    eexists. reflexivity.
  - split; [exact HF | now rewrite HL, length_seq].
Qed.

(** No round before the one at which the loop leaves passed the
    convergence test. *)
Lemma qaoaLoop_first_exit (costH mixingH : Matrix) (depth : nat) :
  forall (fuel : nat) (parameters : list number) (currentEnergy : number)
         (it : nat) (r : QAOAResult),
    qaoaLoop costH mixingH depth fuel parameters currentEnergy it = Some r ->
    forall j : nat,
      (it <= j < iteration r)%nat ->
      (JS.abs (objective (iterate descent (j - it) parameters)
               .- (if Nat.eqb j it then currentEnergy
                   else objective (iterate descent (j - it - 1) parameters)))
       .< CONVERGENCE_THRESHOLD) = false.
Proof.
  induction fuel as [| fuel IH]; intros p cur it r Hr j Hj;
    [discriminate Hr |].
  cbn [qaoaLoop] in Hr.
  destruct (Nat.ltb_spec it MAX_ITERATIONS) as [Hlt | Hge].
  - change (evaluateQAOAObjective p costH mixingH depth)
      with (objective p, snd (evaluateQAOAObjective p [] [] 0)) in Hr.
    cbv iota beta in Hr.
    destruct (JS.abs (objective p .- cur) .< CONVERGENCE_THRESHOLD) eqn:Hexit.
    + injection Hr as <-. cbn [iteration] in Hj. lia.
    + fold (descent p) in Hr.
      destruct (Nat.eqb_spec j it) as [-> | Hne].
      * rewrite Nat.sub_diag. exact Hexit.
      * pose proof (IH (descent p) (objective p) (S it) r Hr j
                       ltac:(lia)) as Hj'.
        replace (j - it)%nat with (S (j - S it)) by lia.
        cbn [iterate].
        destruct (Nat.eqb_spec j (S it)) as [E | E].
        -- now replace (S (j - S it) - 1)%nat with 0%nat by lia.
        -- replace (S (j - S it) - 1)%nat with (S (j - S it - 1)) by lia.
           exact Hj'.
  - injection Hr as <-. cbn [iteration] in Hj. lia.
Qed.

(** The round at which a run from [start] leaves the loop: the first
    round that passes the convergence test, or round 1000 when no
    earlier round passes it. *)
Lemma qaoaLoop_exit_round
      (costH mixingH : Matrix) (depth fuel : nat) (start : list number)
      (r : QAOAResult) :
  Forall JS.is_finite start ->
  qaoaLoop costH mixingH depth fuel start PInf 0 = Some r ->
  (iteration r <= MAX_ITERATIONS)%nat ->
  (iteration r = MAX_ITERATIONS
   \/ (JS.abs (objective (iterate descent (iteration r) start)
               .- (if Nat.eqb (iteration r) 0 then PInf
                   else objective (iterate descent (iteration r - 1)
                                           start)))
       .< CONVERGENCE_THRESHOLD) = true) ->
  (forall it : nat, (it < iteration r)%nat -> converged start it = false)
  /\ (iteration r = 1000%nat \/ converged start (iteration r) = true).
Proof.
  intros Hfin Hr Hle Hstop. split.
  - intros it Hit.
    pose proof (@qaoaLoop_first_exit costH mixingH depth fuel start PInf 0 r
                  Hr it ltac:(lia)) as H.
    rewrite Nat.sub_0_r in H. unfold converged, previous_objective.
    destruct it as [| j]; [exact H |].
    cbn [Nat.eqb Nat.sub] in H. now rewrite ?Nat.sub_0_r in H.
  - destruct Hstop as [Hcap | Hlow]; [left; exact Hcap | right].
    unfold converged, previous_objective.
    destruct (iteration r) as [| j]; [exact Hlow |].
    cbn [Nat.eqb Nat.sub] in Hlow. now rewrite ?Nat.sub_0_r in Hlow.
Qed.

(** C8: with [depth = 2], for all Hamiltonians and all draws, the loop
    of [optimizeQAOA] leaves after at least one and at most 1000
    rounds; the result has 4 parameters and a finite energy; the
    parameters are those of [iteration] steps of gradient descent with
    learning rate 0.01 from the random start, and the energy is the
    objective one step before.  Convergence is declared by the change
    of the objective between successive rounds: no round before the
    last one had an absolute change below 1e-6, and the loop left at
    the first round whose change is below 1e-6, or at round 1000 when
    there is no such round before. *)
Theorem optimizeQAOA_depth_two
        (rnd : Rand.source) (costHamiltonian mixingHamiltonian : Matrix)
        (k fuel : nat) :
  (MAX_ITERATIONS < fuel)%nat ->
  exists r,
    fst (optimizeQAOA rnd fuel costHamiltonian mixingHamiltonian 2 k) = Some r
    /\ length (qaoa_parameters r) = 4%nat
    /\ (1 <= iteration r <= 1000)%nat
    /\ JS.is_finite (energy r)
    /\ qaoa_parameters r
       = iterate descent (iteration r)
                 (fst (initializeRandomParameters rnd 4 k))
    /\ energy r
       = objective (iterate descent (iteration r - 1)
                            (fst (initializeRandomParameters rnd 4 k)))
    /\ (iteration r = 1000%nat
        \/ (JS.abs (objective (qaoa_parameters r) .- energy r) .< Fin 1e-6)
           = true)
    /\ (forall parameters,
          descent parameters
          = map (fun pi : number * nat =>
                   fst pi .- Fin 0.01
                          .* (JS.neg (JS.sin (fst pi)) .* alternate (snd pi)))
                (indexed parameters))
    /\ (forall it : nat,
          (it < iteration r)%nat ->
          converged (fst (initializeRandomParameters rnd 4 k)) it = false)
    /\ (iteration r = 1000%nat
        \/ converged (fst (initializeRandomParameters rnd 4 k)) (iteration r)
           = true).
Proof.
  intros Hfuel. unfold optimizeQAOA, Rand.bind.
  change (2 * 2)%nat with 4%nat.
  destruct (initializeRandomParameters_finite rnd 4 k) as [Hfin Hlen].
  destruct (initializeRandomParameters rnd 4 k) as [p0 k1].
  cbn [fst] in Hfin, Hlen |- *. unfold Rand.ret. cbn [fst].
  destruct (@qaoaLoop_result costHamiltonian mixingHamiltonian 2 fuel p0 PInf 0)
    as (r & Hr & Hrange & Hpar & Hen & Hstop); [lia | lia |].
  assert (Hexit :
            (forall it : nat, (it < iteration r)%nat -> converged p0 it = false)
            /\ (iteration r = 1000%nat \/ converged p0 (iteration r) = true)).
  { apply (@qaoaLoop_exit_round costHamiltonian mixingHamiltonian 2 fuel p0 r
             Hfin Hr (proj2 Hrange)).
    destruct Hstop as [Hcap | Hlow]; [left; exact Hcap | right].
    rewrite Hpar, Hen in Hlow. rewrite !Nat.sub_0_r in Hlow. exact Hlow. }
  rewrite Nat.sub_0_r in Hpar, Hen.
  destruct (iterate_descent_finite (iteration r) Hfin) as [HFr HLr].
  rewrite <- Hpar in HFr, HLr.
  assert (Hpos : (1 <= iteration r)%nat).
  { destruct (iteration r) as [| n] eqn:Hn; [| lia]. exfalso.
    cbn [Nat.eqb] in Hen.
    destruct Hstop as [Hcap | Hlow]; [discriminate Hcap |].
    destruct (objective_finite HFr) as [e He].
    rewrite He, Hen in Hlow. discriminate Hlow. }
  destruct (Nat.eqb_spec (iteration r) 0) as [E | _]; [lia |].
  exists r. split; [exact Hr |]. split; [congruence |].
  split; [unfold MAX_ITERATIONS in Hrange; lia |].
  split.
  { rewrite Hen. apply objective_finite.
    apply (iterate_descent_finite (iteration r - 1) Hfin). }
  split; [exact Hpar |]. split; [exact Hen |].
  split; [destruct Hstop as [Hcap | Hlow];
          [left; exact Hcap | right; exact Hlow] |].
  split; [exact descent_explicit |].
  exact Hexit.
Qed.

Lemma optimizeQAOA_depth_two_witness :
  exists r,
    fst (optimizeQAOA three_quarters 1001 [] [] 2 0%nat) = Some r
    /\ length (qaoa_parameters r) = 4%nat
    /\ (1 <= iteration r <= 1000)%nat
    /\ JS.is_finite (energy r)
    /\ qaoa_parameters r
       = iterate descent (iteration r)
                 (fst (initializeRandomParameters three_quarters 4 0%nat))
    /\ energy r
       = objective (iterate descent (iteration r - 1)
                            (fst (initializeRandomParameters three_quarters
                                                             4 0%nat)))
    /\ (iteration r = 1000%nat
        \/ (JS.abs (objective (qaoa_parameters r) .- energy r) .< Fin 1e-6)
           = true)
    /\ (forall parameters,
          descent parameters
          = map (fun pi : number * nat =>
                   fst pi .- Fin 0.01
                          .* (JS.neg (JS.sin (fst pi)) .* alternate (snd pi)))
                (indexed parameters))
    /\ (forall it : nat,
          (it < iteration r)%nat ->
          converged (fst (initializeRandomParameters three_quarters 4 0%nat))
                    it = false)
    /\ (iteration r = 1000%nat
        \/ converged (fst (initializeRandomParameters three_quarters 4 0%nat))
                     (iteration r)
           = true).
Proof.
  apply (@optimizeQAOA_depth_two three_quarters [] [] 0%nat 1001%nat).
  unfold MAX_ITERATIONS. lia.
Defined.

(** *** A run that does not start at a stationary point *)

Lemma sin_hundredth : 1 / 200 <= sin 0.01.
Proof.
  assert (H0 : 0 <= 0.01) by lra.
  assert (H1 : 0.01 <= PI) by (pose proof PI2_1; lra).
  destruct (SIN 0.01 H0 H1) as [Hlb _].
  eapply Rle_trans; [| exact Hlb].
  unfold sin_lb, sin_approx, sin_term. cbn [sum_f_R0].
  rewrite !INR_IZR_INZ. simpl. lra.
Qed.

Lemma quarter_turn_start :
  fst (initializeRandomParameters three_quarters 4 0%nat)
  = [Fin (PI / 2); Fin (PI / 2); Fin (PI / 2); Fin (PI / 2)].
Proof.
  unfold initializeRandomParameters, three_quarters, Rand.bind, Rand.random,
    Rand.ret.
  cbn -[PI Rmult Rminus Rdiv].
  replace ((0.75 - 0.5) * 2 * PI) with (PI / 2) by lra.
  reflexivity.
Qed.

Lemma quarter_turn_objective :
  objective [Fin (PI / 2); Fin (PI / 2); Fin (PI / 2); Fin (PI / 2)] = Fin 0.
Proof.
  unfold objective, evaluateQAOAObjective.
  cbn -[PI Rmult Rminus Rdiv Rplus cos].
  rewrite cos_PI2. f_equal. lra.
Qed.

Lemma quarter_turn_descent :
  objective (descent [Fin (PI / 2); Fin (PI / 2); Fin (PI / 2); Fin (PI / 2)])
  = Fin (- 4 * sin 0.01).
Proof.
  rewrite descent_explicit.
  unfold objective, evaluateQAOAObjective.
  cbn -[PI Rmult Rminus Rdiv Rplus cos sin Ropp].
  rewrite sin_PI2.
  replace (PI / 2 - 0.01 * (- (1) * -1)) with (PI / 2 - 0.01) by lra.
  replace (PI / 2 - 0.01 * (- (1) * 1)) with (PI / 2 + 0.01) by lra.
  rewrite cos_shift.
  replace (cos (PI / 2 + 0.01)) with (- sin 0.01)
    by (rewrite (sin_cos 0.01); lra).
  f_equal. lra.
Qed.

Lemma quarter_turn_not_converged :
  let start := [Fin (PI / 2); Fin (PI / 2); Fin (PI / 2); Fin (PI / 2)] in
  converged start 0 = false /\ converged start 1 = false.
Proof.
  intros start. unfold converged, previous_objective. cbn [iterate].
  subst start. rewrite quarter_turn_descent, quarter_turn_objective.
  split; [reflexivity |].
  cbn [JS.sub JS.abs JS.ltb]. apply JSFacts.Rltb_false.
  pose proof sin_hundredth. rewrite Rabs_left by lra. lra.
Qed.

(** With every draw at 0.75 the start is the quarter turn, where the
    gradient has modulus 1 in every entry: the objective moves by
    [4 sin 0.01] in the first step, and the loop runs into a third
    round at least. *)
Lemma optimizeQAOA_quarter_turn (costHamiltonian mixingHamiltonian : Matrix) :
  exists r,
    fst (optimizeQAOA three_quarters 1001 costHamiltonian mixingHamiltonian
                      2 0%nat) = Some r
    /\ (2 <= iteration r)%nat.
Proof.
  unfold optimizeQAOA, Rand.bind. change (2 * 2)%nat with 4%nat.
  pose proof quarter_turn_start as Hstart.
  destruct (initializeRandomParameters_finite three_quarters 4 0%nat)
    as [Hfin _].
  destruct (initializeRandomParameters three_quarters 4 0%nat) as [p0 k1].
  cbn [fst] in Hstart, Hfin |- *. unfold Rand.ret. cbn [fst].
  destruct (@qaoaLoop_result costHamiltonian mixingHamiltonian 2 1001
              p0 PInf 0%nat)
    as (r & Hr & Hrange & Hpar & Hen & Hstop);
    [unfold MAX_ITERATIONS; lia | unfold MAX_ITERATIONS; lia |].
  exists r. split; [exact Hr |].
  rewrite Hpar, Hen in Hstop. rewrite !Nat.sub_0_r in Hstop.
  destruct (@qaoaLoop_exit_round costHamiltonian mixingHamiltonian 2
              1001 p0 r Hfin Hr (proj2 Hrange) Hstop) as [_ Hexit].
  destruct quarter_turn_not_converged as [H0 H1]. rewrite <- Hstart in H0, H1.
  destruct Hexit as [Hcap | Hconv]; [lia |].
  destruct (iteration r) as [| [| n]]; [congruence | congruence | lia].
Qed.

End QAOAFacts.

(** ** The trainer *)

Module TrainerFacts.

Import QuantumAI Props.
Open Scope R_scope.
Open Scope js_scope.

Lemma Int_part_IZR (z : Z) : Int_part (IZR z) = z.
Proof. symmetry. apply Int_part_spec. lra. Qed.

Lemma ln_2_neq_0 : ln 2 <> 0.
Proof. pose proof ln_lt_2. lra. Qed.

(** Layer 0 has [floor(5 * log2(2)) = 5] gates. *)
Lemma sequenceLength_0 :
  JS.to_length (JS.floor (Fin 5 .* JS.log2 (JS.of_nat 0 .+ Fin 2))) = 5%nat.
Proof.
  unfold JS.of_nat. cbn [INR JS.add JS.log2].
  rewrite (@JSFacts.Rltb_false (0 + 2) 0) by lra.
  rewrite (@JSFacts.Reqb_false (0 + 2) 0) by lra.
  cbn [JS.mul JS.floor JS.to_length].
  replace (5 * (ln (0 + 2) / ln 2)) with 5.
  - rewrite !Int_part_IZR. reflexivity.
  - replace (0 + 2) with 2 by lra. field. exact ln_2_neq_0.
Qed.

(** The fuel of [for_rangeM] does not matter once it covers the
    distance to the bound. *)
Lemma for_rangeM_enough_fuel (St : Type) (body : nat -> St -> Rand.M St)
      (bound step : nat) :
  (1 <= step)%nat ->
  forall fuel fuel' start s k,
    (bound - start <= fuel)%nat -> (bound - start <= fuel')%nat ->
    for_rangeM fuel start bound step body s k
    = for_rangeM fuel' start bound step body s k.
Proof.
  intros Hstep fuel.
  induction fuel as [| fuel IH]; intros fuel' start s k Hf Hf'.
  - destruct fuel' as [| fuel']; simpl; [reflexivity |].
    destruct (Nat.ltb_spec start bound); [lia | reflexivity].
  - simpl. destruct (Nat.ltb_spec start bound) as [Hlt | Hge].
    + destruct fuel' as [| fuel']; [lia |]. simpl.
      destruct (Nat.ltb_spec start bound); [| lia].
      unfold Rand.bind. destruct (body start s k) as [s' k'].
      apply IH; lia.
    + destruct fuel' as [| fuel']; simpl; [reflexivity |].
      destruct (Nat.ltb_spec start bound); [lia | reflexivity].
Qed.

Section WithRandom.

Variable rnd : Rand.source.
Hypothesis rnd_fair : Rand.fair rnd.

Lemma constructor_one_layer (k : nat) :
  one_layer_trainer 0 (fst (constructor rnd 1 k)).
Proof.
  unfold constructor, initializeQuantumLayers. cbn [List.seq Rand.mapM].
  unfold Rand.bind at 1 2 3. unfold generateQuantumGateSequence.
  rewrite sequenceLength_0.
  match goal with
  | |- context [Rand.mapM ?f ?xs k] =>
      destruct (@JSFacts.mapM_Forall _ _ (fun _ => True) f xs
                  (fun _ _ _ => I) k) as [_ HL];
      destruct (Rand.mapM f xs k) as [gs k1]
  end.
  cbn [fst] in HL. unfold Rand.ret at 1 2 3.
  unfold initializeQuantumRegisters, Rand.bind.
  match goal with
  | |- context [Rand.foldM ?f ?xs ?m k1] =>
      destruct (Rand.foldM f xs m k1) as [mem k2]
  end.
  unfold Rand.ret. cbn [fst]. unfold one_layer_trainer.
  cbn [quantumLayers optimizer model layers accuracy quantumNoiseThreshold
       initializeHybridOptimizer length].
  repeat split.
  - constructor; [| constructor]. cbn [gateSequence]. rewrite HL.
    cbn [length List.seq]. lia.
  - exists 0. split; [reflexivity | lra].
Qed.

(** The loss of a layer: the sum of its gate errors, each in
    [[0, 0.01)]. *)
Lemma simulateQuantumOperations_loss (ai : t) (layer : QuantumLayer) :
  quantumNoiseThreshold (optimizer ai) = Fin 0.01 ->
  forall (register : list number) (k : nat),
  exists l, fst (fst (simulateQuantumOperations rnd ai layer register k)) = Fin l
            /\ 0 <= l <= 0.01 * INR (length (gateSequence layer)).
Proof.
  intros Hthr register k. unfold simulateQuantumOperations. rewrite Hthr.
  match goal with
  | |- context [Rand.foldM ?f _ _ _] => set (body := f)
  end.
  assert (G : forall gates l0 reg k0, 0 <= l0 ->
    exists l,
      fst (fst (Rand.foldM body gates (Fin l0, reg) k0)) = Fin l
      /\ l0 <= l <= l0 + 0.01 * INR (length gates)).
  { induction gates as [| g gates IH]; intros l0 reg k0 Hl0.
    - exists l0. split; [reflexivity |]. simpl. lra.
    - cbn [Rand.foldM]. unfold Rand.bind at 1. unfold body at 1.
      unfold Rand.bind at 1. unfold Rand.random, Rand.ret at 1.
      cbn [fst snd JS.mul JS.add].
      pose proof (rnd_fair k0) as Hu.
      match goal with
      | |- context [Rand.foldM body gates (Fin ?l1, ?reg1) ?k1] =>
          destruct (IH l1 reg1 k1) as (l & Hl & Hb); [nra |]
      end.
      exists l. split; [exact Hl |].
      rewrite length_cons, S_INR. nra. }
  destruct (G (gateSequence layer) 0 register k (Rle_refl 0)) as (l & Hl & Hb).
  exists l. split; [exact Hl | lra].
Qed.

Lemma gate_count_bound (n : nat) : (n <= 5)%nat -> 0.01 * INR n <= 0.05.
Proof. intros Hn. apply le_INR in Hn. simpl in Hn. lra. Qed.

(** The loss of an epoch with one layer lies within [[0, 0.05]]; the
    epoch rewrites the registers only. *)
Lemma trainEpoch_loss (hi : R) (ai : t) (epoch k : nat) :
  one_layer_trainer hi ai ->
  exists l ai',
    fst (trainEpoch rnd ai epoch k) = (Fin l, ai')
    /\ 0 <= l <= 0.05
    /\ model ai' = model ai
    /\ quantumLayers ai' = quantumLayers ai
    /\ optimizer ai' = optimizer ai.
Proof.
  intros (Hlen & Hgates & Hthr & Hlayers & Hacc). unfold trainEpoch.
  match goal with
  | |- context [Rand.foldM ?f _ _] => set (body := f)
  end.
  assert (G : forall lis s0 mem k0,
    Forall (fun li : QuantumLayer * nat =>
              (length (gateSequence (fst li)) <= 5)%nat) lis ->
    0 <= s0 ->
    exists s,
      fst (fst (Rand.foldM body lis (Fin s0, mem) k0)) = Fin s
      /\ s0 <= s <= s0 + 0.05 * INR (length lis)).
  { induction lis as [| [layer i] lis IH]; intros s0 mem k0 Hlis Hs0.
    - exists s0. split; [reflexivity |]. simpl. lra.
    - inversion Hlis as [| ? ? Hl Hlis']; subst. cbn [fst] in Hl.
      cbn [Rand.foldM]. unfold Rand.bind at 1. unfold body at 1.
      cbn [fst snd]. rewrite length_cons, S_INR.
      destruct (mem i) as [register |].
      + unfold Rand.bind at 1.
        destruct (@simulateQuantumOperations_loss ai layer Hthr register k0)
          as (l & Hl0 & Hlb).
        destruct (simulateQuantumOperations rnd ai layer register k0)
          as [[loss reg] k1].
        cbn [fst snd] in Hl0 |- *. subst loss. unfold Rand.ret at 1.
        cbn [JS.add].
        pose proof (gate_count_bound Hl) as Hg.
        destruct (IH (s0 + l) (memory_set mem i
                                 (applyQuantumNoiseReduction ai reg epoch)) k1
                     Hlis') as (s & Hs & Hb); [lra |].
        exists s. split; [exact Hs | lra].
      + unfold Rand.ret at 1.
        destruct (IH s0 mem k0 Hlis' Hs0) as (s & Hs & Hb).
        exists s. split; [exact Hs | lra]. }
  unfold Rand.bind.
  destruct (G (combine (quantumLayers ai)
                       (List.seq 0 (length (quantumLayers ai))))
              0 (quantumMemory ai) k) as (s & Hs & Hb).
  - apply Forall_forall. intros [layer i] Hin. apply in_combine_l in Hin.
    rewrite Forall_forall in Hgates. now apply Hgates.
  - lra.
  - rewrite length_combine, length_seq, Nat.min_id, Hlen in Hb.
    destruct (Rand.foldM body _ _ k) as [[loss mem] k1].
    cbn [fst snd] in Hs |- *. subst loss. unfold Rand.ret. cbn [fst].
    rewrite Hlen. unfold JS.of_nat. cbn [INR].
    rewrite JSFacts.div_Fin by lra.
    eexists. eexists. split; [reflexivity |].
    simpl in Hb. repeat split; lra.
Qed.

(** One step of the accuracy recurrence, on reals. *)
Lemma accuracy_step_bound (a hi l : R) (epoch : nat) :
  a <= hi -> hi < 1 -> 0 <= l <= 0.05 ->
  a + (1 - a) * 0.1 * exp (- l) * (1 - INR epoch / (1 * 2))
  <= next_bound hi epoch.
Proof.
  intros Ha Hhi Hl. unfold next_bound.
  replace (1 * 2) with 2 by lra.
  set (f := 1 - INR epoch / 2).
  assert (He : 0.95 <= exp (- l) <= 1).
  { split.
    - pose proof (exp_ineq1_le (- l)). lra.
    - destruct (Req_dec l 0) as [-> | Hnz].
      + rewrite Ropp_0, exp_0. lra.
      + left. apply ProcessorFacts.exp_neg_bounds. lra. }
  set (E := exp (- l)) in *.
  assert (Hf1 : f <= 1).
  { unfold f. pose proof (pos_INR epoch). lra. }
  replace ((1 - a) * 0.1 * E * f) with (0.1 * E * ((1 - a) * f)) by ring.
  destruct (Rle_dec 0 f) as [Hf | Hf].
  - assert (Hmax : 0.1 * f <= Rmax (0.1 * f) (0.095 * f)) by apply Rmax_l.
    assert (Hg : 0 <= (1 - a) * f) by (apply Rmult_le_pos; lra).
    assert (H1 : 0.1 * E * ((1 - a) * f) <= 0.1 * ((1 - a) * f)) by nra.
    assert (H2 : a + 0.1 * ((1 - a) * f) <= hi + (1 - hi) * (0.1 * f)) by nra.
    assert (H3 : (1 - hi) * (0.1 * f)
                 <= (1 - hi) * Rmax (0.1 * f) (0.095 * f))
      by (apply Rmult_le_compat_l; lra).
    lra.
  - assert (Hmax : 0.095 * f <= Rmax (0.1 * f) (0.095 * f)) by apply Rmax_r.
    assert (Hg : (1 - a) * f <= 0) by nra.
    assert (H1 : 0.1 * E * ((1 - a) * f) <= 0.095 * ((1 - a) * f)) by nra.
    assert (H2 : a + 0.095 * ((1 - a) * f) <= hi + (1 - hi) * (0.095 * f))
      by nra.
    assert (H3 : (1 - hi) * (0.095 * f)
                 <= (1 - hi) * Rmax (0.1 * f) (0.095 * f))
      by (apply Rmult_le_compat_l; lra).
    lra.
Qed.

Lemma epoch_step (hi hi' : R) (ai : t) (epoch k : nat) :
  one_layer_trainer hi ai -> hi < 1 ->
  next_bound hi epoch <= hi' -> hi' < 1 ->
  one_layer_trainer
    hi'
    (updateModelMetrics (snd (fst (trainEpoch rnd ai epoch k)))
                        (fst (fst (trainEpoch rnd ai epoch k))) epoch).
Proof.
  intros Hai Hhi Hnext Hhi'.
  destruct (@trainEpoch_loss hi ai epoch k Hai)
    as (l & ai' & Hr & Hl & Hm & Hq & Ho).
  destruct Hai as (Hlen & Hgates & Hthr & Hlayers & (a & Hacc & Ha)).
  rewrite Hr. cbn [fst snd]. unfold one_layer_trainer, updateModelMetrics.
  cbn [quantumLayers optimizer model layers accuracy].
  rewrite Hq, Ho, Hm, Hlayers, Hacc.
  repeat split; try assumption.
  unfold JS.of_nat. cbn [INR JS.mul JS.neg JS.exp JS.sub].
  rewrite JSFacts.div_Fin by lra. cbn [JS.sub JS.mul JS.add].
  pose proof (@accuracy_step_bound a hi l epoch Ha Hhi Hl) as Hb.
  unfold JS.min, JS.ltb. rewrite JSFacts.Rltb_true by lra.
  eexists. split; [reflexivity | lra].
Qed.

Lemma trainFrom_step (hi hi' : R) (count epoch : nat) (ai : t) (k : nat) :
  one_layer_trainer hi ai -> hi < 1 ->
  next_bound hi epoch <= hi' -> hi' < 1 ->
  exists ai' k',
    trainFrom rnd (S count) epoch ai k = trainFrom rnd count (S epoch) ai' k'
    /\ one_layer_trainer hi' ai'.
Proof.
  intros Hai Hhi Hnext Hhi'.
  pose proof (@epoch_step hi hi' ai epoch k Hai Hhi Hnext Hhi') as H.
  cbn [trainFrom]. unfold Rand.bind at 1.
  destruct (trainEpoch rnd ai epoch k) as [r k1]. cbn [fst snd] in H.
  eexists. eexists. split; [reflexivity | exact H].
Qed.

Ltac solve_bound :=
  first [ lra
        | unfold next_bound, Rmax; cbn [INR]; destruct (Rle_dec _ _); lra ].

(** The accuracy after six epochs of a one-layer trainer is negative,
    whatever the draws. *)
Lemma six_epochs (ai : t) (k : nat) :
  one_layer_trainer 0 ai ->
  exists a, accuracy (model (fst (train rnd 6 ai k))) = Fin a /\ a < 0.
Proof.
  intros H0. unfold train.
  destruct (@trainFrom_step 0 0.1 5 0 ai k H0) as (ai1 & k1 & -> & H1);
    try solve_bound.
  destruct (@trainFrom_step 0.1 0.145 4 1 ai1 k1 H1) as (ai2 & k2 & -> & H2);
    try solve_bound.
  destruct (@trainFrom_step 0.145 0.145 3 2 ai2 k2 H2) as (ai3 & k3 & -> & H3);
    try solve_bound.
  destruct (@trainFrom_step 0.145 0.105 2 3 ai3 k3 H3) as (ai4 & k4 & -> & H4);
    try solve_bound.
  destruct (@trainFrom_step 0.105 0.02 1 4 ai4 k4 H4) as (ai5 & k5 & -> & H5);
    try solve_bound.
  destruct (@trainFrom_step 0.02 (-0.1) 0 5 ai5 k5 H5) as (ai6 & k6 & -> & H6);
    try solve_bound.
  cbn [trainFrom]. unfold Rand.ret. cbn [fst].
  destruct H6 as (_ & _ & _ & _ & (a & Ha & Hb)).
  exists a. split; [exact Ha | lra].
Qed.

(** C9 fails on the code: a trainer of one layer that is trained for
    six epochs reports a negative accuracy, for every outcome of the
    random draws. *)
Theorem accuracy_negative_after_six_epochs (k : nat) :
  let (ai, k1) := constructor rnd 1 k in
  exists a,
    accuracy (getModelStats (fst (train rnd 6 ai k1))) = Fin a /\ a < 0.
Proof.
  pose proof (constructor_one_layer k) as H0.
  destruct (constructor rnd 1 k) as [ai k1]. cbn [fst] in H0.
  unfold getModelStats. cbn [accuracy].
  now apply six_epochs.
Qed.

End WithRandom.

Lemma zeros_fair : Rand.fair zeros.
Proof. intros n. unfold zeros. lra. Qed.

Lemma accuracy_negative_after_six_epochs_witness :
  Rand.fair zeros
  /\ (let (ai, k1) := constructor zeros 1 0%nat in
      exists a,
        accuracy (getModelStats (fst (train zeros 6 ai k1))) = Fin a /\ a < 0).
Proof.
  split; [exact zeros_fair |].
  apply (@accuracy_negative_after_six_epochs zeros zeros_fair 0%nat).
Defined.

End TrainerFacts.


(* ================================================================= *)
(** * Further properties of the code *)

(** ** Decoherence, construction and measurement *)

Module ProcessorMoreFacts.

Import QuantumProcessor Props.
Open Scope R_scope.
Open Scope js_scope.

Lemma iterate_decoherence (p : t) (c : R) (k : nat) :
  decoherenceModel p = standardModel ->
  coherence (this_state p) = Fin c ->
  iterate applyDecoherenceEffects k p
  = set_state p (set_coherence (this_state p)
                               (Fin (c * (dephasing * thermal) ^ k))).
Proof.
  revert p c. induction k as [| k IH]; intros p c Hm Hc.
  - simpl. rewrite Rmult_1_r, <- Hc. now destruct p as [[q s e co] m].
  - cbn [iterate].
    rewrite (@ProcessorFacts.applyDecoherenceEffects_state p c Hm Hc).
    rewrite (IH _ (c * dephasing * thermal)); [| exact Hm | reflexivity].
    unfold set_state, set_coherence. cbn. do 3 f_equal. ring.
Qed.

(** X1.  Decoherence steps in a row, without a gate: after [k] steps a
    coherence [c] in (0, 1] has become [c * (dephasing * thermal)^k];
    every further step makes it strictly smaller, it stays positive,
    and nothing else in the state changes. *)
Theorem repeated_decoherence_decreases (p : t) (c : R) (k : nat) :
  decoherenceModel p = standardModel ->
  coherence (this_state p) = Fin c ->
  0 < c <= 1 ->
  exists ck ck',
    coherence (this_state (iterate applyDecoherenceEffects k p)) = Fin ck
    /\ coherence (this_state (iterate applyDecoherenceEffects (S k) p)) = Fin ck'
    /\ 0 < ck' < ck /\ ck <= c
    /\ qubits (this_state (iterate applyDecoherenceEffects k p))
       = qubits (this_state p)
    /\ entanglement (this_state (iterate applyDecoherenceEffects k p))
       = entanglement (this_state p)
    /\ superposition (this_state (iterate applyDecoherenceEffects k p))
       = superposition (this_state p).
Proof.
  intros Hm Hc Hr.
  rewrite !(@iterate_decoherence p c _ Hm Hc). cbn.
  pose proof ProcessorFacts.decay_bounds as Hd.
  set (d := dephasing * thermal) in *.
  assert (Hk : 0 < d ^ k <= 1).
  { clear -Hd. induction k as [| k IH]; simpl; [lra | nra]. }
  set (x := d ^ k) in *.
  assert (Hy : 0 < c * x) by (apply Rmult_lt_0_compat; lra).
  exists (c * x), (c * (d * x)).
  repeat split; try reflexivity; nra.
Qed.

Lemma repeated_decoherence_decreases_witness :
  let p := mkProcessor (mkQuantumState [Fin 0; Fin 0] false (Fin 0) (Fin 0.5))
                       standardModel in
  exists ck ck',
    coherence (this_state (iterate applyDecoherenceEffects 3 p)) = Fin ck
    /\ coherence (this_state (iterate applyDecoherenceEffects 4 p)) = Fin ck'
    /\ 0 < ck' < ck /\ ck <= 0.5
    /\ qubits (this_state (iterate applyDecoherenceEffects 3 p))
       = qubits (this_state p)
    /\ entanglement (this_state (iterate applyDecoherenceEffects 3 p))
       = entanglement (this_state p)
    /\ superposition (this_state (iterate applyDecoherenceEffects 3 p))
       = superposition (this_state p).
Proof.
  intros p.
  apply (@repeated_decoherence_decreases p 0.5 3%nat); [reflexivity .. | lra].
Defined.

(** *** The qubits of a fresh processor *)

Lemma mapM_pure (A B : Type) (f : A -> Rand.M B) (g : A -> B) (xs : list A) :
  (forall x k, In x xs -> f x k = (g x, S k)) ->
  forall k, Rand.mapM f xs k = (map g xs, (length xs + k)%nat).
Proof.
  induction xs as [| x xs IH]; intros Hf k; simpl; [reflexivity |].
  unfold Rand.bind. rewrite (Hf x k (or_introl eq_refl)).
  rewrite IH by (intros y k' Hy; apply Hf; now right).
  unfold Rand.ret. do 2 f_equal. lia.
Qed.

Lemma map_const_indexed (A : Type) (v : A) (l : list A) (s : nat) :
  map (fun _ : A * nat => v) (combine l (List.seq s (length l)))
  = repeat v (length l).
Proof.
  revert s. induction l as [| x l IH]; intros s; simpl; [reflexivity |].
  now rewrite IH.
Qed.

Lemma array_set_repeat (v : number) (n i : nat) :
  (i < n)%nat -> JS.array_set (repeat v n) i v = repeat v n.
Proof.
  revert i. induction n as [| n IH]; intros [| i] Hi; simpl; try lia;
    [reflexivity |]. rewrite IH by lia. reflexivity.
Qed.

Lemma array_get_repeat (v : number) (n i : nat) :
  (i < n)%nat -> JS.array_get (repeat v n) i = v.
Proof.
  intros Hi. unfold JS.array_get. apply nth_repeat_lt. exact Hi.
Qed.

Lemma constructor_fresh_qubits (rnd : Rand.source) (n k : nat) :
  qubits (this_state (fst (constructor rnd n k))) = repeat (Fin 0) n
  /\ superposition (this_state (fst (constructor rnd n k))) = false
  /\ snd (constructor rnd n k) = (n + k)%nat.
Proof.
  unfold constructor, initializeQuantumSystem, Rand.bind.
  rewrite (@ProcessorFacts.applyDecoherenceEffects_state _ 1.0)
    by reflexivity.
  pose proof ProcessorFacts.decay_bounds as Hd.
  unfold calibrateQuantumRegisters, Rand.bind.
  cbn [this_state set_state qubits set_coherence decoherenceModel
       environmentalNoise].
  rewrite (@mapM_pure _ _ _ (fun _ => Fin 0)).
  - rewrite length_combine, length_seq, repeat_length, Nat.min_id.
    unfold Rand.ret. cbn [fst snd]. split; [| split; [| reflexivity]].
    + unfold initializeErrorCorrection.
      cbn [this_state set_state qubits set_qubits].
      rewrite length_map, length_combine, length_seq, repeat_length,
        Nat.min_id.
      pose proof (map_const_indexed (Fin 0) (repeat (Fin 0) n) 0) as Hz.
      rewrite repeat_length in Hz. rewrite Hz. destruct (3 <=? n)%nat; [| reflexivity].
      apply (@JSFacts.for_range_invariant_below _
               (fun q => qubits (this_state q) = repeat (Fin 0) n));
        [| reflexivity].
      intros i s Hi Hs. unfold applySurfaceCode.
      cbn [this_state set_state qubits set_qubits]. rewrite Hs.
      rewrite array_get_repeat by lia.
      now rewrite !array_set_repeat by lia.
    + unfold initializeErrorCorrection.
      destruct (3 <=? _)%nat; [| reflexivity].
      apply (@JSFacts.for_range_invariant_below _
               (fun q => superposition (this_state q) = false));
        [| reflexivity].
      intros i s Hi Hs. exact Hs.
  - intros [q i] k0 Hin. apply in_combine_l, repeat_spec in Hin. subst q.
    unfold Rand.bind. cbn [fst snd].
    rewrite (@MeasureFacts.calculateWaveFunction_value
               rnd _ (1.0 * dephasing * thermal) i k0)
      by (try reflexivity; nra).
    unfold Rand.ret. cbn. f_equal. f_equal. ring.
Qed.

(** X2.  A fresh processor of [n] qubits has [n] qubit scalars, all 0, no
    superposition, and its construction has read exactly [n] draws,
    whatever they are. *)
Theorem constructor_qubits_zero (rnd : Rand.source) (n k : nat) :
  qubits (this_state (fst (constructor rnd n k))) = repeat (Fin 0) n
  /\ length (qubits (this_state (fst (constructor rnd n k)))) = n
  /\ superposition (this_state (fst (constructor rnd n k))) = false
  /\ snd (constructor rnd n k) = (n + k)%nat.
Proof.
  destruct (constructor_fresh_qubits rnd n k) as (Hq & Hs & Hk).
  repeat split; try assumption. rewrite Hq. apply repeat_length.
Qed.

(** *** Measurement is read-only sampling *)

Lemma measured_scalars (f : number * nat -> Rand.M number) :
  (forall q i k, fst (f (q, i) k) = Fin 1 \/ fst (f (q, i) k) = q) ->
  forall (q : list number) (s k : nat),
    Forall2 (fun live seen => seen = Fin 1 \/ seen = live)
            q (fst (Rand.mapM f (combine q (List.seq s (length q))) k)).
Proof.
  intros Hf. induction q as [| x q IH]; intros s k; simpl.
  - constructor.
  - unfold Rand.bind. pose proof (Hf x s k) as Hx.
    destruct (f (x, s) k) as [y k1].
    specialize (IH (S s) k1).
    destruct (Rand.mapM f _ k1) as [ys k2]. simpl in *.
    constructor; assumption.
Qed.

Lemma measure_frame (rnd : Rand.source) (p : t) (k : nat) :
  qubits (this_state (snd (fst (measure rnd p k)))) = qubits (this_state p)
  /\ superposition (this_state (snd (fst (measure rnd p k))))
     = superposition (this_state p)
  /\ entanglement (this_state (snd (fst (measure rnd p k))))
     = entanglement (this_state p).
Proof.
  unfold measure, Rand.bind.
  destruct (Rand.mapM _ _ k) as [qs k1].
  destruct (calculateSystemEnergy rnd _ k1) as [e k2].
  destruct (calculateExecutionTime rnd k2) as [time k3].
  repeat split.
Qed.

(** X3.  [measure] does not write the observed values back: the live qubit
    scalars, the superposition flag and the entanglement are as
    before the call; the report has one scalar per qubit, each either 1
    or the live scalar; and the confidence reported is the coherence
    the call leaves on the object. *)
Theorem measure_read_only (rnd : Rand.source) (p : t) (k : nat) :
  let r := fst (fst (measure rnd p k)) in
  let p' := snd (fst (measure rnd p k)) in
  qubits (this_state p') = qubits (this_state p)
  /\ superposition (this_state p') = superposition (this_state p)
  /\ entanglement (this_state p') = entanglement (this_state p)
  /\ confidence r = coherence (this_state p')
  /\ Forall2 (fun live seen => seen = Fin 1 \/ seen = live)
             (qubits (this_state p)) (qubits (state r)).
Proof.
  unfold measure, Rand.bind.
  match goal with
  | |- context [Rand.mapM ?f (combine ?q _) k] =>
      pose proof (@measured_scalars f) as HM
  end.
  specialize (HM ltac:(
    intros q i k0; unfold Rand.bind, Rand.random, Rand.ret;
    destruct (calculateWaveFunction rnd _ _ k0) as [w k1]; cbn [fst snd];
    destruct (_ .< _); auto)).
  specialize (HM (qubits (this_state (applyDecoherenceEffects p))) 0%nat k).
  destruct (Rand.mapM _ _ k) as [qs k1].
  destruct (calculateSystemEnergy rnd _ k1) as [e k2].
  destruct (calculateExecutionTime rnd k2) as [time k3].
  cbn [fst snd] in HM |- *. unfold Rand.ret. cbn [fst snd].
  repeat split. exact HM.
Qed.

(** X4.  The execution time that [measure] reports lies in [[120, 170)]
    when the draws lie in [[0, 1)]. *)
Theorem measure_execution_time (rnd : Rand.source) (p : t) (k : nat) :
  Rand.fair rnd ->
  exists time, executionTime (fst (fst (measure rnd p k))) = Fin time
               /\ 120 <= time < 170.
Proof.
  intros Hfair. unfold measure, Rand.bind.
  destruct (Rand.mapM _ _ k) as [qs k1].
  destruct (calculateSystemEnergy rnd _ k1) as [e k2].
  unfold calculateExecutionTime, Rand.bind, Rand.random, Rand.ret.
  cbn [fst snd executionTime JS.add JS.mul].
  eexists. split; [reflexivity |].
  pose proof (Hfair k2). lra.
Qed.

Lemma measure_execution_time_witness :
  Rand.fair zeros
  /\ exists time,
       executionTime
         (fst (fst (measure zeros
                            (mkProcessor
                               (mkQuantumState [Fin 0] false (Fin 0) (Fin 1))
                               standardModel) 0%nat)))
       = Fin time
       /\ 120 <= time < 170.
Proof.
  split; [exact TrainerFacts.zeros_fair |].
  apply (@measure_execution_time zeros _ 0%nat TrainerFacts.zeros_fair).
Defined.

End ProcessorMoreFacts.

(** ** Gates *)

Module GateFacts.

Import QuantumProcessor Props.
Open Scope R_scope.
Open Scope js_scope.

Lemma array_get_set (a : list number) (i j : nat) (v : number) :
  (i < length a)%nat ->
  JS.array_get (JS.array_set a i v) j
  = if Nat.eqb j i then v else JS.array_get a j.
Proof.
  unfold JS.array_get. revert i j.
  induction a as [| h a IH]; intros [| i] [| j] Hi; simpl in *;
    try lia; try reflexivity.
  apply IH. lia.
Qed.

(** *** The error-correction set-up *)

Lemma corrected_scalar_short (q : list number) (i : nat) :
  (length q <= 3 * (i / 3) + 2)%nat ->
  corrected_scalar q i = JS.array_get q i.
Proof.
  intros H. unfold corrected_scalar.
  destruct (Nat.ltb_spec (3 * (i / 3) + 2) (length q)); [lia | reflexivity].
Qed.

Lemma correction_loop (q : list number) :
  forall (fuel m : nat) (s : t),
    (length q - 2 - 3 * m <= fuel)%nat ->
    length (qubits (this_state s)) = length q ->
    (forall i, (i < length q)%nat ->
               JS.array_get (qubits (this_state s)) i
               = if (i <? 3 * m)%nat then corrected_scalar q i
                 else JS.array_get q i) ->
    let r := JS.for_range fuel (3 * m) (length q - 2) 3 applySurfaceCode s in
    length (qubits (this_state r)) = length q
    /\ forall i, (i < length q)%nat ->
                 JS.array_get (qubits (this_state r)) i = corrected_scalar q i.
Proof.
  induction fuel as [| fuel IH]; intros m s Hfuel Hlen Hs; cbn zeta.
  - simpl. split; [exact Hlen |]. intros i Hi. rewrite (Hs i Hi).
    destruct (Nat.ltb_spec i (3 * m)); [reflexivity |].
    symmetry. apply corrected_scalar_short.
    pose proof (Nat.div_mod_eq i 3). pose proof (Nat.mod_upper_bound i 3).
    assert ((m <= i / 3)%nat) by (apply Nat.div_le_lower_bound; lia). lia.
  - cbn [JS.for_range].
    destruct (Nat.ltb_spec (3 * m) (length q - 2)) as [Hlt | Hge].
    + replace (3 * m + 3)%nat with (3 * S m)%nat by lia.
      apply IH; [lia | |].
      * unfold applySurfaceCode.
        cbn [this_state set_state qubits set_qubits].
        rewrite !JSFacts.array_set_length;
          rewrite ?JSFacts.array_set_length; lia.
      * intros i Hi. unfold applySurfaceCode.
        cbn [this_state set_state qubits set_qubits].
        rewrite !array_get_set
          by (rewrite ?JSFacts.array_set_length; lia).
        assert (H3m : JS.array_get (qubits (this_state s)) (3 * m)
                      = JS.array_get q (3 * m)).
        { rewrite Hs by lia.
          destruct (Nat.ltb_spec (3 * m) (3 * m)); [lia | reflexivity]. }
        assert (Hdiv : forall j, (j < 3)%nat -> ((3 * m + j) / 3 = m)%nat).
        { intros j Hj. rewrite Nat.mul_comm, Nat.div_add_l by lia.
          rewrite (Nat.div_small j 3) by lia. lia. }
        destruct (Nat.eqb_spec i (3 * m + 2)) as [-> | H2].
        { rewrite H3m. destruct (Nat.ltb_spec (3 * m + 2) (3 * S m)); [| lia].
          unfold corrected_scalar. rewrite (Hdiv 2%nat) by lia.
          destruct (Nat.ltb_spec (3 * m + 2) (length q)); [reflexivity | lia]. }
        destruct (Nat.eqb_spec i (3 * m + 1)) as [-> | H1].
        { rewrite H3m. destruct (Nat.ltb_spec (3 * m + 1) (3 * S m)); [| lia].
          unfold corrected_scalar. rewrite (Hdiv 1%nat) by lia.
          destruct (Nat.ltb_spec (3 * m + 2) (length q)); [reflexivity | lia]. }
        rewrite (Hs i Hi).
        destruct (Nat.ltb_spec i (3 * m)), (Nat.ltb_spec i (3 * S m));
          try reflexivity; try lia.
        assert (i = (3 * m + 0)%nat) as -> by lia.
        unfold corrected_scalar. rewrite (Hdiv 0%nat) by lia.
        destruct (Nat.ltb_spec (3 * m + 2) (length q)); [| lia].
        now rewrite Nat.add_0_r.
    + split; [exact Hlen |]. intros i Hi. rewrite (Hs i Hi).
      destruct (Nat.ltb_spec i (3 * m)); [reflexivity |].
      symmetry. apply corrected_scalar_short.
      assert ((m <= i / 3)%nat) by (apply Nat.div_le_lower_bound; lia). lia.
Qed.

(** X5.  [initializeErrorCorrection] keeps the number of qubits and, in every
    complete group of three consecutive qubits, copies the first scalar
    over the other two; the qubits of an incomplete last group, the
    coherence, the entanglement and the superposition flag are left as
    they are. *)
Theorem initializeErrorCorrection_copies (p : t) :
  let p' := initializeErrorCorrection p in
  length (qubits (this_state p')) = length (qubits (this_state p))
  /\ (forall i, (i < length (qubits (this_state p)))%nat ->
                JS.array_get (qubits (this_state p')) i
                = corrected_scalar (qubits (this_state p)) i)
  /\ same_scalars p p'.
Proof.
  cbn zeta. split; [| split];
    [| | apply ProcessorFacts.initializeErrorCorrection_scalars].
  - unfold initializeErrorCorrection.
    destruct (Nat.leb_spec 3 (length (qubits (this_state p)))); [| reflexivity].
    apply (@correction_loop (qubits (this_state p)) _ 0%nat p);
      [lia | reflexivity | intros i Hi; reflexivity].
  - unfold initializeErrorCorrection.
    destruct (Nat.leb_spec 3 (length (qubits (this_state p)))) as [H3 | H3].
    + apply (@correction_loop (qubits (this_state p)) _ 0%nat p);
        [lia | reflexivity | intros i Hi; reflexivity].
    + intros i Hi. symmetry. apply corrected_scalar_short. lia.
Qed.

Example error_correction_of_seven :
  map (corrected_scalar [Fin 1; Fin 2; Fin 3; Fin 4; Fin 5; Fin 6; Fin 7])
      (List.seq 0 7)
  = [Fin 1; Fin 1; Fin 1; Fin 4; Fin 4; Fin 4; Fin 7].
Proof. reflexivity. Qed.

Section WithRandom.

Variable rnd : Rand.source.

(** *** CNOT never finds its control at 1 *)

Lemma pauliXGate_below_one (n tgt : nat) (p : t) (k : nat) :
  (tgt < n)%nat -> healthy n p -> below_one p ->
  below_one (fst (pauliXGate rnd tgt p k)).
Proof.
  intros Ht Hp Hb. destruct (MeasureFacts.healthy_wave Hp)
    as (c & Hc & Hr & Hpr).
  destruct Hp as (Hm & Hcoh & Hlen & Hq).
  unfold pauliXGate, Rand.bind.
  rewrite (@MeasureFacts.calculateWaveFunction_value rnd p c tgt k Hc) by lra.
  rewrite Hm. unfold below_one.
  cbn [fst Rand.ret environmentalNoise standardModel
       wf_probability this_state set_state qubits set_qubits].
  apply JSFacts.array_set_Forall; [lia | exact Hb |].
  match goal with |- context [if ?b then _ else _] => destruct b end;
    simpl; eexists; (split; [reflexivity | nra]).
Qed.

Lemma cnotGate_qubits (tgt : nat) (ctl : option nat) (p : t) (k : nat) :
  below_one p ->
  (forall c, ctl = Some c -> (c < length (qubits (this_state p)))%nat) ->
  qubits (this_state (fst (cnotGate rnd tgt ctl p k))) = qubits (this_state p)
  /\ snd (cnotGate rnd tgt ctl p k) = k.
Proof.
  intros Hb Hc. unfold cnotGate. destruct ctl as [c |]; [| now split].
  specialize (Hc c eq_refl).
  destruct (@JSFacts.array_get_Forall _ _ c Hb Hc) as (r & Hr & Hlt).
  rewrite Hr. cbn [JS.strict_eq].
  rewrite JSFacts.Reqb_false by lra.
  unfold Rand.bind, Rand.ret. now split.
Qed.

Lemma applyGate_below_one (n : nat) (gate : QuantumGate) (p : t) (k : nat) :
  type gate <> Gate_H -> healthy n p -> below_one p ->
  below_one (snd (fst (applyGate rnd gate p k))).
Proof.
  intros HnotH Hp Hb. unfold applyGate, validateGateOperation.
  assert (Hlen : length (qubits (this_state p)) = n) by apply Hp.
  rewrite Hlen.
  destruct (Nat.leb_spec n (target gate)) as [Ht | Ht]; [exact Hb |].
  assert (Hgo : forall ctl,
    (forall c, ctl = Some c -> (c < n)%nat) ->
    below_one
      (snd (fst (match gateOperations rnd (type gate) with
                 | Some operation =>
                     p1 <- operation (target gate) ctl p ;;
                     Rand.ret (Returned,
                               updateSystemEntanglement
                                 (applyDecoherenceEffects p1))
                 | None => Rand.ret (Returned, p)
                 end k)))).
  { intros ctl Hctl.
    destruct (type gate); try contradiction; cbn [gateOperations];
      try exact Hb; unfold Rand.bind.
    - pose proof (@pauliXGate_below_one n (target gate) p k Ht Hp Hb) as HX.
      destruct (pauliXGate rnd (target gate) p k) as [p1 k1].
      exact HX.
    - rewrite <- Hlen in Hctl.
      destruct (@cnotGate_qubits (target gate) ctl p k Hb Hctl) as [HX _].
      destruct (cnotGate rnd (target gate) ctl p k) as [p1 k1].
      unfold below_one, Rand.ret. cbn [fst snd] in HX |- *.
      unfold updateSystemEntanglement, applyDecoherenceEffects.
      cbn [this_state set_state qubits set_entanglement set_coherence].
      rewrite HX. exact Hb. }
  destruct (control gate) as [c |].
  - destruct (Nat.leb_spec n c); [exact Hb |].
    apply Hgo. intros c' Hc'. injection Hc' as <-. assumption.
  - apply Hgo. discriminate.
Qed.

Lemma drive_below_one (n : nat) (cs : list call) :
  Forall (fun c => ~ is_H c) cs ->
  forall p k, healthy n p -> below_one p ->
              healthy n (fst (drive rnd cs p k))
              /\ below_one (fst (drive rnd cs p k)).
Proof.
  induction 1 as [| c cs HnotH _ IH]; intros p k Hp Hb; simpl.
  - now split.
  - destruct c as [gate |]; unfold Rand.bind.
    + pose proof (@MeasureFacts.applyGate_healthy rnd n gate p k HnotH Hp) as Hg.
      pose proof (@applyGate_below_one n gate p k HnotH Hp Hb) as Hg'.
      destruct (applyGate rnd gate p k) as [r k1]. now apply IH.
    + destruct (@MeasureFacts.measure_healthy rnd n p k Hp) as [Hm _].
      destruct (@ProcessorMoreFacts.measure_frame rnd p k) as (Hq & _).
      destruct (measure rnd p k) as [r k1]. cbn [fst snd] in *.
      apply IH; [exact Hm |]. unfold below_one. now rewrite Hq.
Qed.

(** X6.  On a processor that was constructed and then driven by calls none
    of which applies a Hadamard gate, no qubit scalar is ever exactly
    1 (an X gate leaves [1 - 0.001 * (1 - coherence^2)]), so a CNOT
    gate never changes a qubit scalar, and reads no draw, whatever its
    control and target. *)
Theorem cnot_never_flips (n : nat) (cs : list call) (gate : QuantumGate)
        (k : nat) :
  Forall (fun c => ~ is_H c) cs ->
  type gate = Gate_CNOT ->
  let (p0, k0) := constructor rnd n k in
  let (p, k1) := drive rnd cs p0 k0 in
  qubits (this_state (snd (fst (applyGate rnd gate p k1))))
  = qubits (this_state p)
  /\ snd (applyGate rnd gate p k1) = k1.
Proof.
  intros Hcs Hty.
  pose proof (MeasureFacts.constructor_healthy rnd n k) as H0.
  destruct (ProcessorMoreFacts.constructor_fresh_qubits rnd n k) as (Hz & _).
  destruct (constructor rnd n k) as [p0 k0]. cbn [fst] in H0, Hz.
  assert (Hb0 : below_one p0).
  { unfold below_one. rewrite Hz. apply Forall_forall.
    intros x Hx. apply repeat_spec in Hx. subst x.
    exists 0. split; [reflexivity | lra]. }
  destruct (@drive_below_one n cs Hcs p0 k0 H0 Hb0) as [Hp Hb].
  destruct (drive rnd cs p0 k0) as [p k1]. cbn [fst] in Hp, Hb.
  unfold applyGate, validateGateOperation. rewrite Hty.
  cbn [gateOperations].
  destruct (Nat.leb_spec (length (qubits (this_state p))) (target gate));
    [now split |].
  assert (Hgo : forall ctl,
    (forall c, ctl = Some c -> (c < length (qubits (this_state p)))%nat) ->
    qubits (this_state (snd (fst
      ((p1 <- cnotGate rnd (target gate) ctl p ;;
        Rand.ret (Returned,
                  updateSystemEntanglement (applyDecoherenceEffects p1)))
         k1))))
    = qubits (this_state p)
    /\ snd ((p1 <- cnotGate rnd (target gate) ctl p ;;
             Rand.ret (Returned,
                       updateSystemEntanglement (applyDecoherenceEffects p1)))
              k1) = k1).
  { intros ctl Hctl. unfold Rand.bind.
    destruct (@cnotGate_qubits (target gate) ctl p k1 Hb Hctl) as [HX Hk].
    destruct (cnotGate rnd (target gate) ctl p k1) as [p1 k2].
    cbn [fst snd] in HX, Hk |- *. unfold Rand.ret. cbn [fst snd].
    split; [exact HX | exact Hk]. }
  destruct (control gate) as [c |].
  - destruct (Nat.leb_spec (length (qubits (this_state p))) c); [now split |].
    apply Hgo. intros c' Hc'. injection Hc' as <-. assumption.
  - apply Hgo. discriminate.
Qed.

(** *** What the X gate writes *)

Lemma applyGate_X (n tgt : nat) (p : t) (c : R) (k : nat) :
  healthy n p -> coherence (this_state p) = Fin c -> (tgt < n)%nat ->
  let p' := snd (fst (applyGate rnd (mkQuantumGate Gate_X tgt None None) p k)) in
  qubits (this_state p')
  = JS.array_set (qubits (this_state p)) tgt
      (if JS.array_get (qubits (this_state p)) tgt === Fin 0
       then Fin (1 - (1 - c * c) * 0.001)
       else Fin (0 + (1 - c * c) * 0.001))
  /\ coherence (this_state p') = Fin (c * dephasing * thermal)
  /\ healthy n p'.
Proof.
  intros Hp Hc Ht.
  pose proof (@MeasureFacts.applyGate_healthy rnd n
                (mkQuantumGate Gate_X tgt None None) p k
                ltac:(discriminate) Hp) as Hh.
  destruct (MeasureFacts.healthy_wave Hp) as (c' & Hc' & Hr & Hpr).
  assert (c' = c) as -> by congruence.
  destruct Hp as (Hm & Hcoh & Hlen & Hq).
  cbn zeta. split; [| split; [| exact Hh]]; clear Hh;
    unfold applyGate, validateGateOperation;
    cbn [target control type gateOperations]; rewrite Hlen;
    (destruct (Nat.leb_spec n tgt); [lia |]);
    unfold pauliXGate, Rand.bind;
    rewrite (@MeasureFacts.calculateWaveFunction_value rnd p c tgt k Hc)
      by lra;
    rewrite Hm; unfold Rand.ret; cbn [fst snd].
  - cbn [updateSystemEntanglement applyDecoherenceEffects this_state
         set_state qubits set_qubits set_entanglement set_coherence
         wf_probability environmentalNoise standardModel].
    destruct (_ === _); reflexivity.
  - match goal with
    | |- coherence (this_state (updateSystemEntanglement
                                  (applyDecoherenceEffects ?q))) = _ =>
        rewrite (@ProcessorFacts.applyDecoherenceEffects_state q c Hm Hc)
    end.
    reflexivity.
Qed.

(** X7.  The X gate is not an exact flip: on a fresh processor one X gate
    on a qubit leaves a scalar strictly between 0.999 and 1, a second X
    gate on the same qubit leaves a scalar strictly between 0 and 0.001
    (not the 0 the qubit started from), and the other qubits stay 0. *)
Theorem x_gate_twice (n tgt : nat) (k : nat) :
  (tgt < n)%nat ->
  let x := ApplyGate (mkQuantumGate Gate_X tgt None None) in
  let (p0, k0) := constructor rnd n k in
  exists v1 v2,
    JS.array_get (qubits (this_state (fst (drive rnd [x] p0 k0)))) tgt = Fin v1
    /\ 0.999 < v1 < 1
    /\ JS.array_get (qubits (this_state (fst (drive rnd [x; x] p0 k0)))) tgt
       = Fin v2
    /\ 0 < v2 < 0.001
    /\ forall i, (i < n)%nat -> i <> tgt ->
         JS.array_get (qubits (this_state (fst (drive rnd [x; x] p0 k0)))) i
         = Fin 0.
Proof.
  intros Ht x.
  pose proof (MeasureFacts.constructor_healthy rnd n k) as H0.
  destruct (ProcessorMoreFacts.constructor_fresh_qubits rnd n k) as (Hz & _).
  destruct (constructor rnd n k) as [p0 k0]. cbn [fst] in H0, Hz.
  destruct (MeasureFacts.healthy_wave H0) as (c0 & Hc0 & Hr0 & Hpr0).
  subst x. cbn [drive]. unfold Rand.bind.
  destruct (@applyGate_X n tgt p0 c0 k0 H0 Hc0 Ht) as (Hq1 & Hc1 & H1).
  destruct (applyGate rnd _ p0 k0) as [[o1 p1] k1].
  cbn [fst snd] in Hq1, Hc1, H1 |- *. unfold Rand.ret at 1. cbn [fst].
  destruct (MeasureFacts.healthy_wave H1) as (c1 & Hc1' & Hr1 & Hpr1).
  destruct (@applyGate_X n tgt p1 c1 k1 H1 Hc1' Ht) as (Hq2 & Hc2 & H2).
  destruct (applyGate rnd _ p1 k1) as [[o2 p2] k2].
  cbn [fst snd] in Hq2, Hc2, H2 |- *. unfold Rand.ret. cbn [fst].
  assert (Hlen0 : length (qubits (this_state p0)) = n) by apply H0.
  assert (Hlen1 : length (qubits (this_state p1)) = n) by apply H1.
  assert (Hg0 : forall i, (i < n)%nat ->
                          JS.array_get (qubits (this_state p0)) i = Fin 0).
  { intros i Hi. rewrite Hz. now apply ProcessorMoreFacts.array_get_repeat. }
  assert (Hv1 : JS.array_get (qubits (this_state p1)) tgt
                = Fin (1 - (1 - c0 * c0) * 0.001)).
  { rewrite Hq1, array_get_set, Nat.eqb_refl by lia.
    rewrite (Hg0 tgt Ht). cbn [JS.strict_eq].
    now rewrite JSFacts.Reqb_true by reflexivity. }
  exists (1 - (1 - c0 * c0) * 0.001), (0 + (1 - c1 * c1) * 0.001).
  split; [exact Hv1 |]. split; [lra |]. split; [| split; [lra |]].
  - rewrite Hq2, array_get_set, Nat.eqb_refl by lia.
    rewrite Hv1. cbn [JS.strict_eq].
    now rewrite JSFacts.Reqb_false by lra.
  - intros i Hi Hne.
    rewrite Hq2, array_get_set by lia.
    destruct (Nat.eqb_spec i tgt); [contradiction |].
    rewrite Hq1, array_get_set by lia.
    destruct (Nat.eqb_spec i tgt); [contradiction |].
    now apply Hg0.
Qed.

(** *** What a gate costs, and what it overwrites *)

(** X8.  An X or CNOT gate with valid indices returns, multiplies the
    coherence by the factor of exactly one decoherence step and leaves
    the superposition flag alone; a CNOT gate without a control is
    accepted too, changes no qubit scalar and reads no draw. *)
Theorem x_and_cnot_cost_one_step (gate : QuantumGate) (p : t) (c : R)
        (k : nat) :
  type gate = Gate_X \/ type gate = Gate_CNOT ->
  decoherenceModel p = standardModel ->
  coherence (this_state p) = Fin c ->
  (target gate < length (qubits (this_state p)))%nat ->
  (forall ctl, control gate = Some ctl ->
               (ctl < length (qubits (this_state p)))%nat) ->
  let r := applyGate rnd gate p k in
  fst (fst r) = Returned
  /\ coherence (this_state (snd (fst r))) = Fin (c * dephasing * thermal)
  /\ superposition (this_state (snd (fst r))) = superposition (this_state p)
  /\ (type gate = Gate_CNOT -> control gate = None ->
      qubits (this_state (snd (fst r))) = qubits (this_state p)
      /\ snd r = k).
Proof.
  intros Hty Hm Hc Ht Hctl. cbn zeta.
  unfold applyGate, validateGateOperation.
  destruct (Nat.leb_spec (length (qubits (this_state p))) (target gate));
    [lia |].
  assert (Hval : match control gate with
                 | Some c0 =>
                     if (length (qubits (this_state p)) <=? c0)%nat
                     then InvalidControlQubit c0 else Returned
                 | None => Returned
                 end = Returned).
  { destruct (control gate) as [c0 |]; [| reflexivity].
    specialize (Hctl c0 eq_refl).
    destruct (Nat.leb_spec (length (qubits (this_state p))) c0);
      [lia | reflexivity]. }
  rewrite Hval.
  assert (HX : forall k0,
    coherence (this_state (fst (pauliXGate rnd (target gate) p k0))) = Fin c
    /\ decoherenceModel (fst (pauliXGate rnd (target gate) p k0))
       = standardModel
    /\ superposition (this_state (fst (pauliXGate rnd (target gate) p k0)))
       = superposition (this_state p)).
  { intros k0. unfold pauliXGate, Rand.bind.
    destruct (calculateWaveFunction rnd p (target gate) k0) as [w k1].
    unfold Rand.ret. cbn. repeat split; assumption. }
  destruct Hty as [Hty | Hty]; rewrite Hty; cbn [gateOperations];
    unfold Rand.bind.
  - destruct (HX k) as (Hc1 & Hm1 & Hs1).
    destruct (pauliXGate rnd (target gate) p k) as [p1 k1].
    cbn [fst snd] in Hc1, Hm1, Hs1 |- *. unfold Rand.ret. cbn [fst snd].
    rewrite (@ProcessorFacts.applyDecoherenceEffects_state p1 c Hm1 Hc1).
    repeat split; try assumption. discriminate. discriminate.
  - unfold cnotGate. destruct (control gate) as [c0 |].
    + unfold Rand.bind.
      destruct (JS.array_get (qubits (this_state p)) c0 === Fin 1).
      * destruct (HX k) as (Hc1 & Hm1 & Hs1).
        destruct (pauliXGate rnd (target gate) p k) as [p1 k1].
        cbn [fst snd] in Hc1, Hm1, Hs1 |- *. unfold Rand.ret. cbn [fst snd].
        rewrite (@ProcessorFacts.applyDecoherenceEffects_state
                   (updateEntanglementMetric c0 (target gate) p1) c Hm1 Hc1).
        repeat split; try assumption; discriminate.
      * unfold Rand.ret. cbn [fst snd].
        rewrite (@ProcessorFacts.applyDecoherenceEffects_state
                   (updateEntanglementMetric c0 (target gate) p) c Hm Hc).
        repeat split; try assumption; discriminate.
    + unfold Rand.ret. cbn [fst snd].
      rewrite (@ProcessorFacts.applyDecoherenceEffects_state p c Hm Hc).
      repeat split.
Qed.

(** X9.  The entanglement that a dispatched gate finds on the object does
    not matter: [applyGate] recomputes it from the qubit scalars, also
    after the incremental update of a CNOT gate. *)
Theorem applyGate_overwrites_entanglement
        (gate : QuantumGate) (p : t) (e : number) (k : nat) :
  type gate = Gate_H \/ type gate = Gate_X \/ type gate = Gate_CNOT ->
  (target gate < length (qubits (this_state p)))%nat ->
  (forall ctl, control gate = Some ctl ->
               (ctl < length (qubits (this_state p)))%nat) ->
  applyGate rnd gate (with_entanglement p e) k = applyGate rnd gate p k.
Proof.
  intros Hty Ht Hctl. destruct p as [[q s e0 co] m].
  unfold applyGate, validateGateOperation, with_entanglement.
  cbn [this_state set_state qubits set_entanglement] in *.
  destruct (Nat.leb_spec (length q) (target gate)); [lia |].
  assert (Hval : match control gate with
                 | Some c0 =>
                     if (length q <=? c0)%nat
                     then InvalidControlQubit c0 else Returned
                 | None => Returned
                 end = Returned).
  { destruct (control gate) as [c0 |]; [| reflexivity].
    specialize (Hctl c0 eq_refl).
    destruct (Nat.leb_spec (length q) c0); [lia | reflexivity]. }
  rewrite Hval.
  destruct Hty as [Hty | [Hty | Hty]]; rewrite Hty; cbn [gateOperations];
    unfold Rand.bind.
  - unfold hadamardGate, calculateWaveFunction, Rand.bind, Rand.random,
      Rand.ret. reflexivity.
  - unfold pauliXGate, calculateWaveFunction, Rand.bind, Rand.random,
      Rand.ret. reflexivity.
  - unfold cnotGate. destruct (control gate) as [c0 |]; [| reflexivity].
    unfold Rand.bind. cbn [this_state set_state qubits set_entanglement].
    destruct (JS.array_get q c0 === Fin 1).
    + unfold pauliXGate, calculateWaveFunction, Rand.bind, Rand.random,
        Rand.ret. reflexivity.
    + unfold Rand.ret. reflexivity.
Qed.

End WithRandom.

Lemma cnot_never_flips_witness :
  let cs := [ApplyGate (mkQuantumGate Gate_X 0 None None); Measure] in
  let gate := mkQuantumGate Gate_CNOT 1 (Some 0%nat) None in
  let (p0, k0) := constructor zeros 3%nat 0%nat in
  let (p, k1) := drive zeros cs p0 k0 in
  qubits (this_state (snd (fst (applyGate zeros gate p k1))))
  = qubits (this_state p)
  /\ snd (applyGate zeros gate p k1) = k1.
Proof.
  intros cs gate.
  apply (@cnot_never_flips zeros 3%nat cs gate 0%nat).
  - repeat constructor; simpl; try discriminate; tauto.
  - reflexivity.
Defined.

Lemma x_gate_twice_witness :
  let x := ApplyGate (mkQuantumGate Gate_X 1 None None) in
  let (p0, k0) := constructor zeros 2%nat 0%nat in
  exists v1 v2,
    JS.array_get (qubits (this_state (fst (drive zeros [x] p0 k0)))) 1 = Fin v1
    /\ 0.999 < v1 < 1
    /\ JS.array_get (qubits (this_state (fst (drive zeros [x; x] p0 k0)))) 1
       = Fin v2
    /\ 0 < v2 < 0.001
    /\ forall i, (i < 2)%nat -> i <> 1%nat ->
         JS.array_get (qubits (this_state (fst (drive zeros [x; x] p0 k0)))) i
         = Fin 0.
Proof.
  apply (@x_gate_twice zeros 2%nat 1%nat 0%nat). lia.
Defined.

Lemma x_and_cnot_cost_one_step_witness :
  let gate := mkQuantumGate Gate_CNOT 1 None None in
  let p := mkProcessor (mkQuantumState [Fin 0; Fin 0] false (Fin 0) (Fin 0.9))
                       standardModel in
  let r := applyGate zeros gate p 0%nat in
  fst (fst r) = Returned
  /\ coherence (this_state (snd (fst r))) = Fin (0.9 * dephasing * thermal)
  /\ superposition (this_state (snd (fst r))) = superposition (this_state p)
  /\ (type gate = Gate_CNOT -> control gate = None ->
      qubits (this_state (snd (fst r))) = qubits (this_state p)
      /\ snd r = 0%nat).
Proof.
  intros gate p.
  apply (@x_and_cnot_cost_one_step zeros gate p 0.9 0%nat).
  - right. reflexivity.
  - reflexivity.
  - reflexivity.
  - simpl. lia.
  - intros ctl Hctl. discriminate Hctl.
Defined.

Lemma applyGate_overwrites_entanglement_witness :
  let gate := mkQuantumGate Gate_CNOT 1 (Some 0%nat) None in
  let p := mkProcessor (mkQuantumState [Fin 1; Fin 0] false (Fin 0.3) (Fin 0.9))
                       standardModel in
  applyGate zeros gate (with_entanglement p (Fin 0.8)) 0%nat
  = applyGate zeros gate p 0%nat.
Proof.
  intros gate p.
  apply (@applyGate_overwrites_entanglement zeros gate p (Fin 0.8) 0%nat).
  - right. right. reflexivity.
  - simpl. lia.
  - intros ctl Hctl. injection Hctl as <-. simpl. lia.
Defined.

End GateFacts.

(** ** The algorithms of [QuantumAlgorithms] *)

Module IntegerFacts.

Open Scope R_scope.
Open Scope js_scope.

Lemma trunc_IZR (z : Z) : JS.trunc (IZR z) = z.
Proof.
  unfold JS.trunc. unfold JS.Rltb. destruct (Rlt_dec (IZR z) 0).
  - rewrite <- opp_IZR, TrainerFacts.Int_part_IZR. lia.
  - apply TrainerFacts.Int_part_IZR.
Qed.

Lemma trunc_quotient (a m : Z) :
  (0 <= a)%Z -> (0 < m)%Z -> JS.trunc (IZR a / IZR m) = (a / m)%Z.
Proof.
  intros Ha Hm.
  assert (Hm' : 0 < IZR m) by now apply IZR_lt.
  assert (Ha' : 0 <= IZR a) by now apply IZR_le.
  pose proof (Z.div_mod a m ltac:(lia)) as Hdm.
  pose proof (Z.mod_pos_bound a m Hm) as Hr.
  assert (Hq : IZR a = IZR m * IZR (a / m) + IZR (a mod m)).
  { rewrite <- mult_IZR, <- plus_IZR. now f_equal. }
  assert (Hr0 : 0 <= IZR (a mod m)) by (apply IZR_le; lia).
  assert (Hr1 : IZR (a mod m) < IZR m) by (apply IZR_lt; lia).
  assert (Hdiv : IZR a / IZR m = IZR (a / m) + IZR (a mod m) / IZR m).
  { rewrite Hq at 1. field. lra. }
  assert (Hf0 : 0 <= IZR (a mod m) / IZR m).
  { apply Rmult_le_pos; [exact Hr0 |].
    left. now apply Rinv_0_lt_compat. }
  assert (Hf1 : IZR (a mod m) / IZR m < 1).
  { apply Rmult_lt_reg_r with (IZR m); [exact Hm' |].
    unfold Rdiv. rewrite Rmult_assoc, Rinv_l by lra. lra. }
  assert (Hq0 : 0 <= IZR (a / m)).
  { apply IZR_le. apply Z.div_pos; lia. }
  unfold JS.trunc. rewrite JSFacts.Rltb_false by lra.
  symmetry. apply Int_part_spec. lra.
Qed.

(** [a % m] on non-negative integers is the remainder of the integers. *)
Lemma rem_IZR (a m : Z) :
  (0 <= a)%Z -> (0 < m)%Z ->
  JS.rem (Fin (IZR a)) (Fin (IZR m)) = Fin (IZR (a mod m)).
Proof.
  intros Ha Hm. unfold JS.rem.
  assert (Hm' : 0 < IZR m) by now apply IZR_lt.
  rewrite JSFacts.Reqb_false by lra.
  rewrite trunc_quotient by assumption.
  f_equal. rewrite <- mult_IZR, <- minus_IZR. f_equal.
  pose proof (Z.div_mod a m ltac:(lia)). lia.
Qed.

Lemma to_int32_range (x : number) :
  (- 2 ^ 31 <= JS.to_int32 x < 2 ^ 31)%Z.
Proof.
  destruct x as [r | | |]; cbn [JS.to_int32]; try lia.
  pose proof (Z.mod_pos_bound (JS.trunc r + 2 ^ 31) (2 ^ 32) ltac:(lia)).
  lia.
Qed.

Lemma to_int32_IZR (z : Z) :
  (- 2 ^ 31 <= z < 2 ^ 31)%Z -> JS.to_int32 (Fin (IZR z)) = z.
Proof.
  intros Hz. cbn [JS.to_int32]. rewrite trunc_IZR.
  rewrite Z.mod_small by lia. lia.
Qed.

Lemma to_int32_wrap (z : Z) :
  (2 ^ 31 <= z < 2 ^ 32)%Z -> JS.to_int32 (Fin (IZR z)) = (z - 2 ^ 32)%Z.
Proof.
  intros Hz. cbn [JS.to_int32]. rewrite trunc_IZR.
  replace (z + 2 ^ 31)%Z with (z - 2 ^ 31 + 1 * 2 ^ 32)%Z by lia.
  rewrite Z.mod_add by lia. rewrite Z.mod_small by lia. lia.
Qed.

Lemma to_int32_1 : JS.to_int32 (Fin 1) = 1%Z.
Proof. apply (@to_int32_IZR 1%Z). lia. Qed.

Lemma positive_IZR (z : Z) : (Fin 0 .< Fin (IZR z)) = (0 <? z)%Z.
Proof.
  cbn [JS.ltb]. destruct (Z.ltb_spec 0 z) as [H | H].
  - apply JSFacts.Rltb_true. now apply (IZR_lt 0).
  - apply JSFacts.Rltb_false. now apply (IZR_le z 0).
Qed.

Lemma truthy_IZR (z : Z) : JS.truthy (Fin (IZR z)) = negb (z =? 0)%Z.
Proof.
  cbn [JS.truthy]. f_equal. destruct (Z.eqb_spec z 0) as [-> | H].
  - now apply JSFacts.Reqb_true.
  - apply JSFacts.Reqb_false. intros H0. apply H. now apply eq_IZR.
Qed.

(** [x & 1] is truthy exactly when [ToInt32(x)] is odd. *)
Lemma odd_bit (x : number) :
  JS.truthy (JS.band x (Fin 1)) = Z.odd (JS.to_int32 x).
Proof.
  unfold JS.band. rewrite truthy_IZR, to_int32_1.
  change 1%Z with (Z.ones 1) at 1. rewrite Z.land_ones by lia.
  change (2 ^ 1)%Z with 2%Z. rewrite Zmod_odd.
  now destruct (Z.odd (JS.to_int32 x)).
Qed.

(** [x >> 1] halves [ToInt32(x)], rounding down. *)
Lemma halve (x : number) :
  JS.shr x (Fin 1) = Fin (IZR (JS.to_int32 x / 2)).
Proof.
  unfold JS.shr. rewrite to_int32_1. change (Z.land 1 31) with 1%Z.
  now rewrite Z.shiftr_div_pow2 by lia.
Qed.

End IntegerFacts.

Module ModularFacts.

Import QuantumAlgorithms IntegerFacts.
Open Scope R_scope.
Open Scope js_scope.

Lemma loop_round (fuel : nat) (result base exponent modulus : number) :
  modularExponentiationLoop (S fuel) result base exponent modulus
  = if Fin 0 .< exponent
    then modularExponentiationLoop
           fuel
           (if JS.truthy (JS.band exponent (Fin 1))
            then JS.rem (result .* base) modulus
            else result)
           (JS.rem (base .* base) modulus)
           (JS.shr exponent (Fin 1)) modulus
    else Some result.
Proof. reflexivity. Qed.

Lemma loop_more_fuel (modulus : number) (fuel : nat) :
  forall (result base exponent v : number) (fuel' : nat),
    modularExponentiationLoop fuel result base exponent modulus = Some v ->
    (fuel <= fuel')%nat ->
    modularExponentiationLoop fuel' result base exponent modulus = Some v.
Proof.
  induction fuel as [| fuel IH]; intros result base exponent v fuel' H Hle.
  - discriminate H.
  - destruct fuel' as [| fuel']; [lia |].
    cbn [modularExponentiationLoop] in H |- *.
    destruct (Fin 0 .< exponent); [| exact H].
    apply IH; [exact H | lia].
Qed.

(** The loop leaves within [fuel + 1] rounds once the exponent is an
    int32 below [2^fuel]. *)
Lemma loop_leaves (modulus : number) (fuel : nat) :
  forall (result base : number) (z : Z),
    (- 2 ^ 31 <= z < 2 ^ 31)%Z -> (z < 2 ^ Z.of_nat fuel)%Z ->
    exists v,
      modularExponentiationLoop (S fuel) result base (Fin (IZR z)) modulus
      = Some v.
Proof.
  induction fuel as [| fuel IH]; intros result base z Hz Hlt.
  - cbn [modularExponentiationLoop]. rewrite positive_IZR.
    destruct (Z.ltb_spec 0 z); [| eauto].
    change (2 ^ Z.of_nat 0)%Z with 1%Z in Hlt. lia.
  - remember (S fuel) as n eqn:Hn. cbn [modularExponentiationLoop].
    rewrite positive_IZR. destruct (Z.ltb_spec 0 z) as [Hpos |]; [| eauto].
    rewrite halve, to_int32_IZR by exact Hz. subst n.
    apply IH.
    + pose proof (Z.div_pos z 2 ltac:(lia) ltac:(lia)).
      pose proof (Z.div_lt_upper_bound z 2 (2 ^ 31) ltac:(lia) ltac:(lia)).
      lia.
    + apply Z.div_lt_upper_bound; [lia |].
      rewrite Nat2Z.inj_succ, Z.pow_succ_r in Hlt by lia. lia.
Qed.

(** On integers the loop is square-and-multiply. *)
Lemma loop_power (m : Z) (fuel : nat) :
  (1 < m)%Z ->
  forall r b e : Z,
    (0 <= e < 2 ^ 31)%Z -> (e < 2 ^ Z.of_nat fuel)%Z ->
    (0 <= r < m)%Z -> (0 <= b < m)%Z ->
    modularExponentiationLoop (S fuel) (Fin (IZR r)) (Fin (IZR b))
                              (Fin (IZR e)) (Fin (IZR m))
    = Some (Fin (IZR ((r * b ^ e) mod m))).
Proof.
  intros Hm. induction fuel as [| fuel IH]; intros r b e He Hlt Hr Hb.
  - cbn [modularExponentiationLoop]. rewrite positive_IZR.
    change (2 ^ Z.of_nat 0)%Z with 1%Z in Hlt.
    assert (e = 0%Z) as -> by lia. cbn [Z.ltb Z.compare].
    rewrite Z.pow_0_r, Z.mul_1_r, Z.mod_small by lia. reflexivity.
  - remember (S fuel) as n eqn:Hn. cbn [modularExponentiationLoop].
    rewrite positive_IZR. destruct (Z.ltb_spec 0 e) as [Hpos | Hnpos].
    + rewrite odd_bit, halve, to_int32_IZR by lia.
      cbn [JS.mul]. rewrite <- !mult_IZR.
      rewrite !rem_IZR by nia.
      assert (Hhalf : (0 <= e / 2 < 2 ^ 31)%Z).
      { pose proof (Z.div_pos e 2 ltac:(lia) ltac:(lia)).
        pose proof (Z.div_lt_upper_bound e 2 (2 ^ 31) ltac:(lia) ltac:(lia)).
        lia. }
      assert (Hhalf' : (e / 2 < 2 ^ Z.of_nat fuel)%Z).
      { apply Z.div_lt_upper_bound; [lia |].
        rewrite Hn, Nat2Z.inj_succ, Z.pow_succ_r in Hlt by lia. lia. }
      pose proof (Z.mod_pos_bound (b * b) m ltac:(lia)) as Hbb.
      pose proof (Z.mod_pos_bound (r * b) m ltac:(lia)) as Hrb.
      assert (Hsq : forall r' : Z,
                 ((r' * ((b * b) mod m) ^ (e / 2)) mod m
                  = (r' * (b * b) ^ (e / 2)) mod m)%Z).
      { intros r'.
        rewrite (Z.mul_mod r' (((b * b) mod m) ^ (e / 2))) by lia.
        rewrite Z.mod_pow_l.
        rewrite <- Z.mul_mod by lia. reflexivity. }
      assert (Hpow : ((b * b) ^ (e / 2) = b ^ (2 * (e / 2)))%Z).
      { rewrite Z.pow_mul_r by lia. f_equal. lia. }
      subst n.
      destruct (Z.odd e) eqn:Hodd.
      * rewrite (IH ((r * b) mod m)%Z ((b * b) mod m)%Z (e / 2)%Z)
          by assumption.
        do 2 f_equal. rewrite Hsq, Hpow.
        rewrite Z.mul_mod_idemp_l by lia.
        f_equal.
        assert (Hsplit : (b ^ e = b ^ (2 * (e / 2)) * b)%Z).
        { rewrite <- (Z.pow_1_r b) at 3. rewrite <- Z.pow_add_r by lia.
          f_equal. pose proof (Z.div_mod e 2 ltac:(lia)) as Hdm.
          rewrite Zmod_odd, Hodd in Hdm. exact Hdm. }
        rewrite Hsplit. f_equal. ring.
      * rewrite (IH r ((b * b) mod m)%Z (e / 2)%Z) by assumption.
        do 2 f_equal. rewrite Hsq, Hpow.
        pose proof (Z.div_mod e 2 ltac:(lia)) as Hdm.
        rewrite Zmod_odd, Hodd, Z.add_0_r in Hdm.
        now rewrite <- Hdm.
    + assert (e = 0%Z) as -> by lia.
      rewrite Z.pow_0_r, Z.mul_1_r, Z.mod_small by lia. reflexivity.
Qed.

Lemma not_one (m : Z) : (1 < m)%Z -> (Fin (IZR m) === Fin 1) = false.
Proof.
  intros Hm. cbn [JS.strict_eq]. apply JSFacts.Reqb_false.
  intros H. apply (eq_IZR m 1) in H. lia.
Qed.

(** X10.  For integers [0 <= base], [0 <= exponent < 2^31] and [1 <= modulus],
    [modularExponentiation] leaves its loop within 32 rounds and
    returns [base ^ exponent mod modulus]. *)
Theorem modularExponentiation_power (b e m : Z) (fuel : nat) :
  (0 <= b)%Z -> (0 <= e < 2 ^ 31)%Z -> (1 <= m)%Z -> (32 <= fuel)%nat ->
  modularExponentiation fuel (Fin (IZR b)) (Fin (IZR e)) (Fin (IZR m))
  = Some (Fin (IZR (b ^ e mod m))).
Proof.
  intros Hb He Hm Hfuel. unfold modularExponentiation.
  destruct (Z.eq_dec m 1) as [-> | Hne].
  - cbn [JS.strict_eq]. rewrite JSFacts.Reqb_true by reflexivity.
    now rewrite Z.mod_1_r.
  - rewrite not_one by lia. rewrite rem_IZR by lia.
    apply loop_more_fuel with (fuel := 32%nat); [| exact Hfuel].
    change (Fin 1) with (Fin (IZR 1)).
    rewrite (@loop_power m 31 ltac:(lia) 1 (b mod m) e); try lia.
    + rewrite Z.mul_1_l, Z.mod_pow_l. reflexivity.
    + apply Z.mod_pos_bound. lia.
Qed.

Lemma modularExponentiation_power_witness :
  modularExponentiation 32 (Fin (IZR 4)) (Fin (IZR 13)) (Fin (IZR 497))
  = Some (Fin (IZR (4 ^ 13 mod 497))).
Proof.
  apply (@modularExponentiation_power 4 13 497 32); lia.
Defined.

(** The textbook example: [4^13 mod 497 = 445]. *)
Example modularExponentiation_4_13_497 : (4 ^ 13 mod 497 = 445)%Z.
Proof. reflexivity. Qed.

(** X11.  An exponent between [2^31] and [2^32] is read as a negative int32
    by [>>]: the loop runs once, and the call returns [base % modulus]
    for an odd exponent and 1 for an even one, whatever the power is. *)
Theorem modularExponentiation_wraps (b e m : Z) (fuel : nat) :
  (0 <= b)%Z -> (2 ^ 31 <= e < 2 ^ 32)%Z -> (1 < m)%Z -> (2 <= fuel)%nat ->
  modularExponentiation fuel (Fin (IZR b)) (Fin (IZR e)) (Fin (IZR m))
  = Some (Fin (IZR (if Z.odd e then b mod m else 1))).
Proof.
  intros Hb He Hm Hfuel. unfold modularExponentiation.
  rewrite not_one by lia. rewrite rem_IZR by lia.
  apply loop_more_fuel with (fuel := 2%nat); [| exact Hfuel].
  cbn [modularExponentiationLoop].
  rewrite positive_IZR. destruct (Z.ltb_spec 0 e); [| lia].
  rewrite odd_bit, halve, to_int32_wrap by lia.
  rewrite positive_IZR.
  destruct (Z.ltb_spec 0 ((e - 2 ^ 32) / 2)) as [Hpos |].
  { pose proof (Z.div_lt_upper_bound (e - 2 ^ 32) 2 0 ltac:(lia) ltac:(lia)).
    lia. }
  replace (Z.odd (e - 2 ^ 32)) with (Z.odd e).
  2:{ rewrite Z.odd_sub. change (Z.odd (2 ^ 32)) with false.
      now rewrite xorb_false_r. }
  destruct (Z.odd e); [| reflexivity].
  pose proof (Z.mod_pos_bound b m ltac:(lia)).
  cbn [JS.mul]. rewrite Rmult_1_l, rem_IZR by lia.
  now rewrite Z.mod_mod by lia.
Qed.

Lemma modularExponentiation_wraps_witness :
  modularExponentiation 2 (Fin (IZR 2)) (Fin (IZR (2 ^ 31))) (Fin (IZR 7))
  = Some (Fin (IZR (if Z.odd (2 ^ 31) then 2 mod 7 else 1))).
Proof.
  apply (@modularExponentiation_wraps 2 (2 ^ 31) 7 2); lia.
Defined.

(** The value returned at [2^31] is 1, while [2^(2^31) mod 7 = 4]. *)
Example power_of_two_mod_seven : (2 ^ (2 ^ 31) mod 7 = 4)%Z.
Proof.
  replace (2 ^ 31)%Z with (3 * 715827882 + 2)%Z by reflexivity.
  rewrite Z.pow_add_r, Z.pow_mul_r by lia.
  rewrite Z.mul_mod by lia. rewrite <- (Z.mod_pow_l (2 ^ 3)).
  change ((2 ^ 3) mod 7)%Z with 1%Z. rewrite Z.pow_1_l by lia.
  reflexivity.
Qed.

(** X12.  Whatever the three numbers are (fractions, negative values, [NaN]
    and the infinities included), the loop of [modularExponentiation]
    is left within 32 rounds: after one round the exponent is an int32
    below [2^30], and every further round halves it. *)
Theorem modularExponentiation_terminates
        (base exponent modulus : number) (fuel : nat) :
  (32 <= fuel)%nat ->
  exists v, modularExponentiation fuel base exponent modulus = Some v.
Proof.
  intros Hfuel. unfold modularExponentiation.
  destruct (modulus === Fin 1); [eauto |].
  assert (H32 : exists v,
             modularExponentiationLoop 32 (Fin 1) (JS.rem base modulus)
                                       exponent modulus = Some v).
  { rewrite (loop_round 31).
    destruct (Fin 0 .< exponent); [| eauto].
    rewrite halve. pose proof (to_int32_range exponent) as Hr.
    apply (@loop_leaves modulus 30).
    - pose proof (Z.div_lt_upper_bound (JS.to_int32 exponent) 2 (2 ^ 31)
                    ltac:(lia) ltac:(lia)).
      pose proof (Z.div_le_lower_bound (JS.to_int32 exponent) 2 (- 2 ^ 31)
                    ltac:(lia) ltac:(lia)).
      lia.
    - apply Z.div_lt_upper_bound; [lia |].
      change (2 * 2 ^ Z.of_nat 30)%Z with (2 ^ 31)%Z. lia. }
  destruct H32 as [v Hv]. exists v.
  now apply loop_more_fuel with (fuel := 32%nat).
Qed.

Lemma modularExponentiation_terminates_witness :
  exists v, modularExponentiation 32 (Fin 2.5) NaN (Fin 0) = Some v.
Proof.
  apply (@modularExponentiation_terminates (Fin 2.5) NaN (Fin 0) 32). lia.
Defined.

End ModularFacts.

Module AlgorithmFacts.

Import QuantumAlgorithms Props.
Open Scope R_scope.
Open Scope js_scope.

(** *** Loops and arrays *)

Lemma for_range_fold (St : Type) (body : nat -> St -> St) (fuel : nat) :
  forall (start bound : nat) (s : St),
    (bound - start <= fuel)%nat ->
    JS.for_range fuel start bound 1 body s
    = fold_left (fun s i => body i s) (List.seq start (bound - start)) s.
Proof.
  induction fuel as [| fuel IH]; intros start bound s Hf.
  - replace (bound - start)%nat with 0%nat by lia. reflexivity.
  - cbn [JS.for_range]. destruct (Nat.ltb_spec start bound) as [Hlt | Hge].
    + rewrite IH by lia.
      replace (bound - start)%nat with (S (bound - (start + 1))) by lia.
      cbn [List.seq fold_left]. now rewrite Nat.add_1_r.
    + replace (bound - start)%nat with 0%nat by lia. reflexivity.
Qed.

Lemma put_length (xs : list Complex) (i : nat) (v : Complex) :
  length (put xs i v) = length xs.
Proof.
  revert i. induction xs as [| x xs IH]; intros [| i]; simpl; auto.
Qed.

Lemma at_index_put (xs : list Complex) (i j : nat) (v : Complex) :
  (i < length xs)%nat ->
  at_index (put xs i v) j = if (j =? i)%nat then v else at_index xs j.
Proof.
  unfold at_index. revert i j.
  induction xs as [| x xs IH]; intros i j Hi; simpl in Hi; [lia |].
  destruct i as [| i], j as [| j]; simpl; try reflexivity.
  apply IH. lia.
Qed.

Lemma put_put (xs : list Complex) (i : nat) (v w : Complex) :
  put (put xs i v) i w = put xs i w.
Proof.
  revert i. induction xs as [| x xs IH]; intros [| i]; simpl; auto.
  now rewrite IH.
Qed.

(** A loop that only rewrites slot [k] accumulates in that slot. *)
Lemma accumulate_in_slot (f : Complex -> nat -> Complex) (k : nat)
      (ns : list nat) :
  forall result : list Complex,
    (k < length result)%nat ->
    fold_left (fun result n => put result k (f (at_index result k) n))
              ns result
    = put result k (fold_left f ns (at_index result k)).
Proof.
  induction ns as [| n ns IH]; intros result Hk; cbn [fold_left].
  - unfold at_index. clear -Hk. revert k Hk.
    induction result as [| x xs IH]; intros k Hk; simpl in Hk; [lia |].
    destruct k as [| k]; simpl; [reflexivity |]. f_equal. apply IH. lia.
  - rewrite IH by (rewrite put_length; exact Hk).
    rewrite at_index_put, Nat.eqb_refl by exact Hk.
    apply put_put.
Qed.

Lemma put_middle (l r : list Complex) (z v : Complex) :
  put (l ++ z :: r) (length l) v = l ++ v :: r.
Proof. induction l as [| x l IH]; simpl; [reflexivity | now rewrite IH]. Qed.

Lemma at_index_middle (l r : list Complex) (z : Complex) :
  at_index (l ++ z :: r) (length l) = z.
Proof.
  unfold at_index. rewrite app_nth2 by lia. now rewrite Nat.sub_diag.
Qed.

(** A loop over the slots whose round [k] rewrites slot [k] alone, from
    the initial content of the slot, is a [map]. *)
Lemma rounds_fill (h : nat -> list Complex -> list Complex)
      (g : nat -> Complex) (z : Complex) (N : nat) :
  (forall k result,
      (k < length result)%nat -> at_index result k = z ->
      h k result = put result k (g k)) ->
  forall j : nat,
    (j <= N)%nat ->
    fold_left (fun result k => h k result) (List.seq 0 j) (repeat z N)
    = map g (List.seq 0 j) ++ repeat z (N - j).
Proof.
  intros Hh. induction j as [| j IH]; intros Hj.
  - now rewrite Nat.sub_0_r.
  - rewrite seq_S, fold_left_app, map_app. cbn [fold_left map Nat.add].
    rewrite IH by lia. rewrite <- app_assoc. cbn [app].
    assert (Hlen : length (map g (List.seq 0 j)) = j)
      by now rewrite length_map, length_seq.
    set (l := map g (List.seq 0 j)) in *.
    replace (N - j)%nat with (S (N - S j)) by lia. cbn [repeat].
    clearbody l. clear IH. subst j.
    rewrite Hh.
    + apply put_middle.
    + rewrite length_app. simpl. lia.
    + apply at_index_middle.
Qed.

(** *** The quantum Fourier transform *)

Lemma quantumFourierTransform_map (amplitudes : list Complex) :
  quantumFourierTransform amplitudes
  = map (fun k =>
           scaleComplex
             (fold_left (fun acc n => addComplex acc (qft_term amplitudes k n))
                        (List.seq 0 (length amplitudes))
                        (mkComplex (Fin 0) (Fin 0)))
             (Fin 1 ./ JS.sqrt (JS.of_nat (length amplitudes))))
        (List.seq 0 (length amplitudes)).
Proof.
  unfold quantumFourierTransform. cbn zeta.
  set (N := length amplitudes).
  rewrite for_range_fold by lia. rewrite Nat.sub_0_r.
  set (z := mkComplex (Fin 0) (Fin 0)).
  rewrite (@rounds_fill _
             (fun k =>
                scaleComplex
                  (fold_left
                     (fun acc n => addComplex acc (qft_term amplitudes k n))
                     (List.seq 0 N) z)
                  (Fin 1 ./ JS.sqrt (JS.of_nat N)))
             z N).
  - now rewrite Nat.sub_diag, app_nil_r.
  - intros k result Hk Hz.
    rewrite for_range_fold by lia. rewrite Nat.sub_0_r.
    match goal with
    | |- context [fold_left ?f (List.seq 0 N) result] =>
        replace (fold_left f (List.seq 0 N) result)
          with (put result k
                    (fold_left
                       (fun acc n => addComplex acc (qft_term amplitudes k n))
                       (List.seq 0 N) (at_index result k)))
          by (symmetry;
              exact (@accumulate_in_slot
                       (fun acc n => addComplex acc (qft_term amplitudes k n))
                       k (List.seq 0 N) result Hk))
    end.
    rewrite at_index_put, Nat.eqb_refl by exact Hk.
    rewrite put_put, Hz. reflexivity.
  - lia.
Qed.

Lemma fold_inject (F : nat -> Complex) (t : nat -> R * R) (ns : list nat) :
  (forall n, In n ns -> F n = inject (t n)) ->
  forall acc : R * R,
    fold_left (fun acc n => addComplex acc (F n)) ns (inject acc)
    = inject (fst acc + fst (csum (map t ns)),
              snd acc + snd (csum (map t ns))).
Proof.
  induction ns as [| n ns IH]; intros HF acc; cbn [fold_left map csum].
  - unfold inject. cbn [fst snd]. now rewrite !Rplus_0_r.
  - rewrite (HF n) by now left.
    replace (addComplex (inject acc) (inject (t n)))
      with (inject (fst acc + fst (t n), snd acc + snd (t n)))
      by reflexivity.
    rewrite IH by (intros n' Hn'; apply HF; now right).
    unfold inject. cbn [fst snd]. f_equal; f_equal; ring.
Qed.

Lemma combine_seq (A : Type) (d : A) (xs : list A) :
  forall s : nat,
    combine (List.seq s (length xs)) xs
    = map (fun n => (n, nth (n - s) xs d)) (List.seq s (length xs)).
Proof.
  induction xs as [| x xs IH]; intros s; cbn [length List.seq combine map].
  - reflexivity.
  - rewrite Nat.sub_diag. cbn [nth]. f_equal.
    rewrite IH. apply map_ext_in. intros n Hn. apply in_seq in Hn.
    replace (n - s)%nat with (S (n - S s)) by lia. reflexivity.
Qed.

Lemma at_index_inject (zs : list (R * R)) (n : nat) :
  (n < length zs)%nat ->
  at_index (map inject zs) n = inject (nth n zs (0, 0)).
Proof.
  intros Hn. unfold at_index.
  rewrite (nth_indep _ _ (inject (0, 0)))
    by (rewrite length_map; exact Hn).
  apply map_nth.
Qed.

Lemma qft_term_inject (zs : list (R * R)) (k n : nat) :
  (n < length zs)%nat ->
  qft_term (map inject zs) k n
  = inject (dft_term (length zs) k (n, nth n zs (0, 0))).
Proof.
  intros Hn. unfold qft_term. cbn zeta.
  rewrite at_index_inject by exact Hn. rewrite length_map.
  assert (HN : INR (length zs) <> 0).
  { apply not_0_INR. lia. }
  unfold JS.of_nat. cbn [JS.mul]. rewrite JSFacts.div_Fin by exact HN.
  unfold multiplyComplex, inject, dft_term.
  cbn [real imag fst snd JS.cos JS.sin JS.neg JS.mul JS.add JS.sub].
  f_equal; f_equal; ring.
Qed.

(** The array the transform returns on finite amplitudes, as real
    numbers. *)
Lemma quantumFourierTransform_inject (zs : list (R * R)) :
  quantumFourierTransform (map inject zs)
  = map (fun k => inject (dft zs k)) (List.seq 0 (length zs)).
Proof.
  rewrite quantumFourierTransform_map, length_map.
  apply map_ext_in. intros k Hk. apply in_seq in Hk.
  assert (HN : 0 < INR (length zs)).
  { apply lt_0_INR. lia. }
  change (mkComplex (Fin 0) (Fin 0)) with (inject (0, 0)).
  rewrite (@fold_inject
             (qft_term (map inject zs) k)
             (fun n => dft_term (length zs) k (n, nth n zs (0, 0)))).
  2:{ intros n Hn. apply in_seq in Hn. apply qft_term_inject. lia. }
  unfold dft. cbn zeta.
  rewrite (@combine_seq _ (0, 0) zs 0%nat), map_map.
  rewrite (@map_ext_in _ _
             (fun x : nat =>
                dft_term (length zs) k (x, nth (x - 0) zs (0, 0)))
             (fun n : nat => dft_term (length zs) k (n, nth n zs (0, 0))))
    by (intros n _; now rewrite Nat.sub_0_r).
  unfold JS.of_nat. rewrite JSFacts.sqrt_Fin by lra.
  pose proof (sqrt_lt_R0 _ HN) as Hs.
  rewrite JSFacts.div_Fin by lra.
  unfold scaleComplex, inject. cbn [real imag fst snd JS.mul].
  f_equal; f_equal; field; lra.
Qed.

(** X13.  On finite amplitudes [quantumFourierTransform] computes the
    discrete Fourier transform: the array it returns has the length of
    its argument, and entry [k] is
    [1/sqrt N * Sum_n a_n * exp(-2 pi i k n / N)]. *)
Theorem quantumFourierTransform_is_dft (zs : list (R * R)) :
  quantumFourierTransform (map inject zs)
  = map (fun k => inject (dft zs k)) (List.seq 0 (length zs))
  /\ length (quantumFourierTransform (map inject zs)) = length zs.
Proof.
  rewrite quantumFourierTransform_inject.
  split; [reflexivity |]. now rewrite length_map, length_seq.
Qed.

Lemma csum_none (t : nat -> R * R) (len : nat) :
  forall s : nat,
    (forall n, (s <= n < s + len)%nat -> t n = (0, 0)) ->
    csum (map t (List.seq s len)) = (0, 0).
Proof.
  induction len as [| len IH]; intros s Ht; cbn [List.seq map csum].
  - reflexivity.
  - rewrite (Ht s) by lia. rewrite IH by (intros n Hn; apply Ht; lia).
    cbn [fst snd]. f_equal; lra.
Qed.

Lemma csum_single (t : nat -> R * R) (j : nat) (len : nat) :
  (forall n, n <> j -> t n = (0, 0)) ->
  forall s : nat,
    (s <= j < s + len)%nat -> csum (map t (List.seq s len)) = t j.
Proof.
  intros Ht. induction len as [| len IH]; intros s Hj; [lia |].
  cbn [List.seq map csum]. destruct (Nat.eq_dec s j) as [-> | Hne].
  - rewrite csum_none by (intros n Hn; apply Ht; lia).
    destruct (t j) as [a b]. cbn [fst snd]. f_equal; lra.
  - rewrite (Ht s Hne), IH by lia.
    destruct (t j) as [a b]. cbn [fst snd]. f_equal; lra.
Qed.

(** X14.  The transform of a basis state is uniform in modulus: entry [k] of
    the transform of [|j>] is [exp(-2 pi i k j / N) / sqrt N], and its
    squared modulus is [1 / N]. *)
Theorem quantumFourierTransform_basis (N j k : nat) :
  (j < N)%nat -> (k < N)%nat ->
  let theta := 2 * PI * INR k * INR j / INR N in
  let out := at_index (quantumFourierTransform (map inject (basis N j))) k in
  out = inject (cos theta / sqrt (INR N), - sin theta / sqrt (INR N))
  /\ modulus2 out = Fin (1 / INR N).
Proof.
  intros Hj Hk theta out.
  assert (HlenB : length (basis N j) = N)
    by (unfold basis; now rewrite length_map, length_seq).
  assert (HN : 0 < INR N) by (apply lt_0_INR; lia).
  pose proof (sqrt_lt_R0 _ HN) as Hs.
  assert (Hout : out
                 = inject (cos theta / sqrt (INR N),
                           - sin theta / sqrt (INR N))).
  { subst out. rewrite quantumFourierTransform_inject, HlenB.
    unfold at_index.
    rewrite (nth_indep _ _ (inject (dft (basis N j) 0)))
      by (rewrite length_map, length_seq; exact Hk).
    rewrite (map_nth (fun k => inject (dft (basis N j) k))).
    rewrite seq_nth by exact Hk. cbn [Nat.add].
    unfold dft. cbn zeta.
    rewrite (@combine_seq _ (0, 0) (basis N j) 0%nat).
    rewrite HlenB, map_map.
    rewrite (@csum_single _ j N).
    - rewrite Nat.sub_0_r. unfold basis.
      rewrite (nth_indep _ _ ((fun n => if (n =? j)%nat then (1, 0)
                                        else (0, 0)) 0%nat))
        by (rewrite length_map, length_seq; exact Hj).
      rewrite (map_nth (fun n => if (n =? j)%nat then (1, 0) else (0, 0))).
      rewrite seq_nth by exact Hj. cbn [Nat.add]. rewrite Nat.eqb_refl.
      unfold dft_term. cbn [fst snd]. fold theta.
      unfold inject. cbn [fst snd]. f_equal; f_equal; field; lra.
    - intros n Hne. rewrite Nat.sub_0_r. unfold basis.
      destruct (Nat.lt_ge_cases n N) as [Hn | Hn].
      + rewrite (nth_indep _ _ ((fun n => if (n =? j)%nat then (1, 0)
                                          else (0, 0)) 0%nat))
          by (rewrite length_map, length_seq; exact Hn).
        rewrite (map_nth (fun n => if (n =? j)%nat then (1, 0) else (0, 0))).
        rewrite seq_nth by exact Hn. cbn [Nat.add].
        destruct (Nat.eqb_spec n j); [contradiction |].
        unfold dft_term. cbn [fst snd]. f_equal; ring.
      + rewrite nth_overflow by (rewrite length_map, length_seq; exact Hn).
        unfold dft_term. cbn [fst snd]. f_equal; ring.
    - lia. }
  split; [exact Hout |]. rewrite Hout.
  unfold modulus2, inject. cbn [real imag fst snd JS.mul JS.add].
  f_equal.
  pose proof (sin2_cos2 theta) as Hsc. unfold Rsqr in Hsc.
  pose proof (sqrt_sqrt (INR N) ltac:(lra)) as Hsq.
  replace (cos theta / sqrt (INR N) * (cos theta / sqrt (INR N))
           + - sin theta / sqrt (INR N) * (- sin theta / sqrt (INR N)))
    with ((sin theta * sin theta + cos theta * cos theta)
          / (sqrt (INR N) * sqrt (INR N)))
    by (field; lra).
  now rewrite Hsc, Hsq.
Qed.

Lemma quantumFourierTransform_basis_witness :
  let theta := 2 * PI * INR 1 * INR 2 / INR 4 in
  let out := at_index (quantumFourierTransform (map inject (basis 4 2))) 1 in
  out = inject (cos theta / sqrt (INR 4), - sin theta / sqrt (INR 4))
  /\ modulus2 out = Fin (1 / INR 4).
Proof.
  apply (@quantumFourierTransform_basis 4 2 1); lia.
Defined.

(** *** Grover's diffusion *)

Lemma average_inject (c : R) (zs : list (R * R)) :
  forall acc : R * R,
    fold_left (fun acc val => addComplex acc (scaleComplex val (Fin c)))
              (map inject zs) (inject acc)
    = inject (fst acc + fst (csum zs) * c, snd acc + snd (csum zs) * c).
Proof.
  induction zs as [| z zs IH]; intros acc; cbn [map fold_left csum].
  - unfold inject. cbn [fst snd]. f_equal; f_equal; ring.
  - replace (addComplex (inject acc) (scaleComplex (inject z) (Fin c)))
      with (inject (fst acc + fst z * c, snd acc + snd z * c))
      by reflexivity.
    rewrite IH. unfold inject. cbn [fst snd]. f_equal; f_equal; ring.
Qed.

Lemma groverDiffusion_inject (zs : list (R * R)) :
  groverDiffusion (map inject zs)
  = map (fun z => inject (2 * fst (csum zs) - fst z,
                          2 * snd (csum zs) - snd z)) zs.
Proof.
  unfold groverDiffusion. cbn zeta. rewrite length_map.
  destruct zs as [| z0 zs']; [reflexivity |].
  set (zs := z0 :: zs').
  assert (HN : 0 < INR (length zs)).
  { apply lt_0_INR. simpl. lia. }
  unfold JS.of_nat. rewrite JSFacts.div_Fin by lra.
  change (mkComplex (Fin 0) (Fin 0)) with (inject (0, 0)).
  rewrite average_inject. rewrite map_map.
  apply map_ext. intros z.
  unfold subtractComplex, scaleComplex, inject.
  cbn [real imag fst snd JS.mul JS.sub].
  f_equal; f_equal; field; lra.
Qed.

(** X15.  On finite amplitudes [groverDiffusion] keeps the number of
    amplitudes and sends each amplitude [a_i] to
    [2 * (a_0 + ... + a_(N-1)) - a_i]: twice the sum, not twice the
    mean, is what the amplitude is reflected about. *)
Theorem groverDiffusion_reflects_about_sum (zs : list (R * R)) :
  groverDiffusion (map inject zs)
  = map (fun z => inject (2 * fst (csum zs) - fst z,
                          2 * snd (csum zs) - snd z)) zs
  /\ length (groverDiffusion (map inject zs)) = length zs.
Proof.
  rewrite groverDiffusion_inject. split; [reflexivity |].
  apply length_map.
Qed.

(** Four amplitudes 0.5 come back as 3.5, not as 0.5. *)
Example groverDiffusion_uniform :
  groverDiffusion (map inject [(0.5, 0); (0.5, 0); (0.5, 0); (0.5, 0)])
  = map inject [(3.5, 0); (3.5, 0); (3.5, 0); (3.5, 0)].
Proof.
  rewrite groverDiffusion_inject.
  unfold inject. cbn [map csum fst snd].
  repeat (f_equal; try lra).
Qed.

(** *** The Steane encoder *)

(** X16.  [steaneEncode] of a finite qubit returns seven amplitudes with
    imaginary part 0: the real part of the qubit at index 0, its
    imaginary part at index 3, and 0 elsewhere. *)
Theorem steaneEncode_slots (re im : R) :
  steaneEncode (inject (re, im))
  = map inject [(re, 0); (0, 0); (0, 0); (im, 0); (0, 0); (0, 0); (0, 0)].
Proof.
  unfold steaneEncode, inject, addComplex, scaleComplex.
  cbn [repeat length List.seq map at_index nth createLogicalZero
       createLogicalOne real imag fst snd JS.mul JS.add].
  repeat (f_equal; try ring).
Qed.

(** *** Teleportation *)

Lemma add_comm (x y : number) : x .+ y = y .+ x.
Proof.
  destruct x, y; cbn [JS.add]; try reflexivity. now rewrite Rplus_comm.
Qed.

Lemma square_neg (x : number) : JS.neg x .* JS.neg x = x .* x.
Proof.
  destruct x; cbn [JS.neg JS.mul]; try reflexivity. f_equal. ring.
Qed.

Lemma corrections_modulus (qubit : Complex) (m : number * number) :
  modulus2 (applyTeleportationCorrections qubit m) = modulus2 qubit.
Proof.
  unfold applyTeleportationCorrections, modulus2, pauliX, pauliZ.
  destruct (JS.truthy (snd m)), (JS.truthy (fst m));
    cbn [real imag]; rewrite ?square_neg; try reflexivity; apply add_comm.
Qed.

(** X17.  [quantumTeleport] reads two draws and returns two measurement bits,
    each 0 or 1; the final state is the second qubit of the Bell pair
    after the corrections, so it has the squared modulus of that qubit;
    and neither the imaginary part of the state to teleport nor the
    imaginary part of the first qubit of the pair has any influence on
    the result. *)
Theorem quantumTeleport_result (rnd : Rand.source) (st : Complex)
        (bellPair : Complex * Complex) (k : nat) :
  let r := quantumTeleport rnd st bellPair k in
  (fst (fst (fst r)) = Fin 0 \/ fst (fst (fst r)) = Fin 1)
  /\ (snd (fst (fst r)) = Fin 0 \/ snd (fst (fst r)) = Fin 1)
  /\ snd r = (k + 2)%nat
  /\ modulus2 (snd (fst r)) = modulus2 (snd bellPair)
  /\ forall im im' : number,
       quantumTeleport rnd (mkComplex (real st) im)
                       (mkComplex (real (fst bellPair)) im', snd bellPair) k
       = r.
Proof.
  unfold quantumTeleport, performBellMeasurement, Rand.bind, Rand.random,
    Rand.ret.
  cbn [fst snd real].
  repeat split.
  - destruct (_ .< _); auto.
  - destruct (_ .< _); auto.
  - lia.
  - apply corrections_modulus.
Qed.

End AlgorithmFacts.

(** ** Descent in the two variational loops *)

Module DescentFacts.

Import QuantumOptimizer Props.
Open Scope R_scope.
Open Scope js_scope.

(** *** A step of size at most 1 along [sin] does not increase [cos] *)

Lemma sin_le_arg (x : R) : 0 <= x -> sin x <= x.
Proof.
  intros [Hx | <-]; [left; now apply sin_lt_x | rewrite sin_0; lra].
Qed.

Lemma cos_small (d : R) : 0 <= d <= 1 / 2 -> 7 / 8 <= cos d.
Proof.
  intros Hd.
  replace d with (2 * (d / 2)) by field. rewrite cos_2a_sin.
  assert (H0 : 0 <= sin (d / 2)).
  { apply sin_ge_0; [lra |]. pose proof PI_RGT_0. pose proof PI2_1. lra. }
  pose proof (@sin_le_arg (d / 2) ltac:(lra)) as H1.
  assert (sin (d / 2) * sin (d / 2) <= (d / 2) * (d / 2)) by nra.
  nra.
Qed.

Lemma step_down_pos (q c : R) :
  0 <= c <= 1 -> 0 <= sin q -> cos (q + c * sin q) <= cos q.
Proof.
  intros Hc Hs.
  set (d := c * sin q / 2).
  replace (q + c * sin q) with (q + 2 * d) by (unfold d; field).
  rewrite cos_plus, cos_2a_sin, sin_2a.
  pose proof (SIN_bound q) as [_ Hs1]. pose proof (COS_bound q) as [HC _].
  assert (Hd : 0 <= d <= 1 / 2) by (unfold d; nra).
  assert (Hdle : d <= sin q / 2) by (unfold d; nra).
  assert (Hsd0 : 0 <= sin d).
  { apply sin_ge_0; [lra |]. pose proof PI2_1. pose proof PI_RGT_0. lra. }
  pose proof (@sin_le_arg d ltac:(lra)) as Hsd1.
  pose proof (@cos_small d Hd) as Hcd.
  set (sd := sin d) in *. set (cd := cos d) in *.
  set (C := cos q) in *. set (s := sin q) in *.
  assert (H1 : - sd <= C * sd) by nra.
  assert (H2 : s * (7 / 8) <= s * cd) by nra.
  assert (H3 : 0 <= C * sd + s * cd) by lra.
  assert (H4 : 0 <= 2 * sd * (C * sd + s * cd)).
  { apply Rmult_le_pos; lra. }
  lra.
Qed.

Lemma step_down (q c : R) :
  0 <= c <= 1 -> cos (q + c * sin q) <= cos q.
Proof.
  intros Hc. destruct (Rle_dec 0 (sin q)) as [Hs | Hs].
  - now apply step_down_pos.
  - rewrite <- (cos_neg (q + c * sin q)), <- (cos_neg q).
    replace (- (q + c * sin q)) with (- q + c * sin (- q))
      by (rewrite sin_neg; ring).
    apply step_down_pos; [exact Hc |]. rewrite sin_neg. lra.
Qed.

Lemma step_up (q c : R) :
  0 <= c <= 1 -> cos q <= cos (q - c * sin q).
Proof.
  intros Hc. pose proof (@step_down (q + PI) c Hc) as H.
  rewrite neg_sin, neg_cos in H.
  replace (q + PI + c * - sin q) with (q - c * sin q + PI) in H by ring.
  rewrite neg_cos in H. lra.
Qed.

Lemma finite_list (p : list number) :
  Forall JS.is_finite p -> exists xs, p = map Fin xs.
Proof.
  induction 1 as [| x p [r ->] _ [xs ->]].
  - now exists [].
  - now exists (r :: xs).
Qed.

Lemma map_Fin_finite (xs : list R) : Forall JS.is_finite (map Fin xs).
Proof.
  induction xs as [| x xs IH]; constructor; [now exists x | exact IH].
Qed.

(** *** The QAOA round *)

(** The two folds of a round, on the parameters and on the updated
    parameters, from index [s] on. *)
Lemma qaoa_fold (xs : list R) :
  forall (s : nat) (acc acc' : R),
    acc' <= acc ->
    exists r r',
      fold_left (fun a (pi : number * nat) =>
                   a .+ JS.cos (fst pi) .* alternate (snd pi))
                (combine (map Fin xs) (List.seq s (length xs))) (Fin acc)
      = Fin r
      /\ fold_left (fun a (pi : number * nat) =>
                      a .+ JS.cos (fst pi) .* alternate (snd pi))
                   (combine
                      (map (fun pi : number * nat =>
                              fst pi .- Fin 0.01
                              .* (JS.neg (JS.sin (fst pi))
                                  .* alternate (snd pi)))
                           (combine (map Fin xs) (List.seq s (length xs))))
                      (List.seq s (length xs)))
                   (Fin acc')
         = Fin r'
      /\ r' <= r
      /\ acc - INR (length xs) <= r <= acc + INR (length xs).
Proof.
  induction xs as [| x xs IH]; intros s acc acc' Hacc.
  - exists acc, acc'. cbn [length INR]. repeat split; try reflexivity; lra.
  - cbn [length List.seq map combine fold_left fst snd].
    pose proof (COS_bound x) as Hcx.
    destruct (QAOAFacts.alternate_finite s) as [Ha | Ha]; rewrite !Ha;
      cbn [JS.sin JS.cos JS.neg JS.mul JS.add JS.sub].
    + pose proof (@step_up x 0.01 ltac:(lra)) as Hstep.
      destruct (IH (S s) (acc + cos x * -1)
                   (acc' + cos (x - 0.01 * (- sin x * -1)) * -1))
        as (r & r' & Hr & Hr' & Hle & Hb).
      { replace (x - 0.01 * (- sin x * -1)) with (x - 0.01 * sin x) by ring.
        lra. }
      exists r, r'. rewrite S_INR.
      repeat split; try assumption; lra.
    + pose proof (@step_down x 0.01 ltac:(lra)) as Hstep.
      destruct (IH (S s) (acc + cos x * 1)
                   (acc' + cos (x - 0.01 * (- sin x * 1)) * 1))
        as (r & r' & Hr & Hr' & Hle & Hb).
      { replace (x - 0.01 * (- sin x * 1)) with (x + 0.01 * sin x) by ring.
        lra. }
      exists r, r'. rewrite S_INR.
      repeat split; try assumption; lra.
Qed.

Lemma qaoa_round (xs : list R) :
  exists a b,
    objective (map Fin xs) = Fin a
    /\ objective (descent (map Fin xs)) = Fin b
    /\ b <= a
    /\ - INR (length xs) <= a <= INR (length xs).
Proof.
  destruct (@qaoa_fold xs 0%nat 0 0 ltac:(lra)) as (r & r' & Hr & Hr' & Hle & Hb).
  exists r, r'. rewrite QAOAFacts.descent_explicit.
  unfold objective, evaluateQAOAObjective, indexed. cbn [fst].
  rewrite !length_map, length_combine, length_map, length_seq, Nat.min_id.
  repeat split; try assumption; lra.
Qed.

(** X18.  One round of the QAOA loop never increases the energy: on finite
    parameters the objective after [updateParameters] is at most the
    objective before, and the objective of [n] parameters lies within
    [[-n, n]]. *)
Theorem qaoa_round_descends (xs : list R) :
  exists a b,
    objective (map Fin xs) = Fin a
    /\ objective (descent (map Fin xs)) = Fin b
    /\ b <= a
    /\ - INR (length xs) <= a <= INR (length xs).
Proof. exact (qaoa_round xs). Qed.

Lemma descent_on_finite (xs : list R) :
  exists ys, descent (map Fin xs) = map Fin ys /\ length ys = length xs.
Proof.
  destruct (finite_list (QAOAFacts.descent_finite (map_Fin_finite xs)))
    as [ys Hys].
  exists ys. split; [exact Hys |].
  rewrite <- (length_map Fin ys), <- Hys, QAOAFacts.descent_length.
  apply length_map.
Qed.

(** The objective along the descent steps: it never exceeds the
    objective at the start, and stays within [[-n, n]]. *)
Lemma qaoa_descent_chain (k : nat) :
  forall xs : list R,
    exists ys a b,
      iterate descent k (map Fin xs) = map Fin ys
      /\ length ys = length xs
      /\ objective (map Fin xs) = Fin a
      /\ objective (map Fin ys) = Fin b
      /\ b <= a
      /\ - INR (length xs) <= b <= INR (length xs).
Proof.
  induction k as [| k IH]; intros xs.
  - destruct (qaoa_round xs) as (a & b & Ha & _ & _ & Hr).
    exists xs, a, a. cbn [iterate]. repeat split; try assumption; lra.
  - cbn [iterate].
    destruct (descent_on_finite xs) as (xs' & Hxs' & Hlen').
    destruct (qaoa_round xs) as (a & a' & Ha & Ha' & Hle & _).
    rewrite Hxs' in Ha' |- *.
    destruct (IH xs') as (ys & a'' & b & Hit & Hlen & Ha'' & Hb & Hle' & Hr).
    exists ys, a, b. rewrite <- Hlen'.
    assert (a'' = a') by congruence. subst a''.
    repeat split; try assumption; lra.
Qed.

Lemma initializeRandomParameters_draws (rnd : Rand.source) (count k : nat) :
  initializeRandomParameters rnd count k
  = (map Fin (map (fun i => (rnd i - 0.5) * 2 * PI) (List.seq k count)),
     (k + count)%nat).
Proof.
  unfold initializeRandomParameters.
  generalize 0%nat as s. revert k.
  induction count as [| count IH]; intros k s; cbn [List.seq Rand.mapM map].
  - unfold Rand.ret. now rewrite Nat.add_0_r.
  - unfold Rand.bind at 1. unfold Rand.bind at 1.
    unfold Rand.random at 1. unfold Rand.ret at 1.
    unfold Rand.bind at 1. rewrite IH. unfold Rand.ret.
    cbn [JS.sub JS.mul]. f_equal. lia.
Qed.

(** Without parameters the loop leaves in its second round. *)
Lemma qaoaLoop_empty (costH mixingH : Matrix) (depth fuel : nat) :
  (2 <= fuel)%nat ->
  qaoaLoop costH mixingH depth fuel [] PInf 0
  = Some (mkQAOAResult [] (Fin 0) 1).
Proof.
  intros Hfuel. destruct fuel as [| [| fuel]]; [lia | lia |].
  cbn [qaoaLoop]. change (0 <? MAX_ITERATIONS)%nat with true.
  change (1 <? MAX_ITERATIONS)%nat with true.
  cbn [evaluateQAOAObjective indexed length List.seq combine fold_left map
       updateParameters JS.sub JS.abs JS.ltb CONVERGENCE_THRESHOLD].
  rewrite JSFacts.Rltb_true; [reflexivity |].
  replace (0 - 0) with 0 by ring. rewrite Rabs_R0. lra.
Qed.

(** X19.  For every depth, all Hamiltonians and all draws, [optimizeQAOA]
    reads [2 * depth] draws, leaves its loop after at least one and at
    most 1000 rounds, and returns [2 * depth] finite parameters and a
    finite energy that lies within [[-2 depth, 2 depth]] and does not
    exceed the objective of the random start; with depth 0 it leaves
    after exactly one round with no parameter and energy 0. *)
Theorem optimizeQAOA_any_depth
        (rnd : Rand.source) (costHamiltonian mixingHamiltonian : Matrix)
        (depth k fuel : nat) :
  (MAX_ITERATIONS < fuel)%nat ->
  let start := fst (initializeRandomParameters rnd (2 * depth) k) in
  exists r e e0,
    optimizeQAOA rnd fuel costHamiltonian mixingHamiltonian depth k
    = (Some r, (k + 2 * depth)%nat)
    /\ length (qaoa_parameters r) = (2 * depth)%nat
    /\ Forall JS.is_finite (qaoa_parameters r)
    /\ (1 <= iteration r <= 1000)%nat
    /\ energy r = Fin e
    /\ objective start = Fin e0
    /\ - INR (2 * depth) <= e <= e0
    /\ e0 <= INR (2 * depth)
    /\ (depth = 0%nat -> iteration r = 1%nat /\ e = 0).
Proof.
  intros Hfuel start. subst start. unfold optimizeQAOA, Rand.bind.
  rewrite initializeRandomParameters_draws. cbn [fst]. unfold Rand.ret.
  set (xs := map (fun i => (rnd i - 0.5) * 2 * PI) (List.seq k (2 * depth))).
  assert (Hlen : length xs = (2 * depth)%nat)
    by (unfold xs; now rewrite length_map, length_seq).
  destruct (@QAOAFacts.qaoaLoop_result
              costHamiltonian mixingHamiltonian depth fuel (map Fin xs) PInf 0)
    as (r & Hr & Hrange & Hpar & Hen & Hstop); [lia | lia |].
  rewrite Nat.sub_0_r in Hpar, Hen.
  destruct (qaoa_descent_chain (iteration r) xs)
    as (ys & a & b & Hit & Hlys & Ha & Hb & Hle & Hbr).
  assert (Hpos : (1 <= iteration r)%nat).
  { destruct (iteration r) as [| n] eqn:Hn; [| lia]. exfalso.
    cbn [Nat.eqb] in Hen. cbn [iterate] in Hpar.
    destruct Hstop as [Hcap | Hlow]; [discriminate Hcap |].
    rewrite Hpar, Ha, Hen in Hlow. discriminate Hlow. }
  destruct (Nat.eqb_spec (iteration r) 0) as [E | _]; [lia |].
  destruct (qaoa_descent_chain (iteration r - 1) xs)
    as (zs & a' & e & Hit' & Hlzs & Ha' & He & Hle' & Her).
  assert (a' = a) by congruence. subst a'.
  rewrite Hit' in Hen.
  exists r, e, a. rewrite Hr.
  split; [reflexivity |].
  split; [rewrite Hpar, Hit, length_map; congruence |].
  split; [rewrite Hpar, Hit; apply map_Fin_finite |].
  split; [unfold MAX_ITERATIONS in Hrange; lia |].
  split; [congruence |]. split; [exact Ha |].
  rewrite Hlen in *.
  destruct (qaoa_round xs) as (a2 & _ & Ha2 & _ & _ & Hr2).
  assert (a2 = a) by congruence. subst a2. rewrite Hlen in Hr2.
  destruct Her as [Her1 Her2]. destruct Hr2 as [Hr21 Hr22].
  split; [split; [exact Her1 | exact Hle'] |]. split; [exact Hr22 |].
  intros ->. change (2 * 0)%nat with 0%nat in *. cbn [INR] in *.
  split; [| lra].
  subst xs. cbn [List.seq map] in Hr.
  rewrite qaoaLoop_empty in Hr by (unfold MAX_ITERATIONS in Hfuel; lia).
  injection Hr as <-. reflexivity.
Qed.

Lemma optimizeQAOA_any_depth_witness :
  let start := fst (initializeRandomParameters zeros (2 * 3) 0%nat) in
  exists r e e0,
    optimizeQAOA zeros 1001 [] [] 3 0%nat = (Some r, (0 + 2 * 3)%nat)
    /\ length (qaoa_parameters r) = (2 * 3)%nat
    /\ Forall JS.is_finite (qaoa_parameters r)
    /\ (1 <= iteration r <= 1000)%nat
    /\ energy r = Fin e
    /\ objective start = Fin e0
    /\ - INR (2 * 3) <= e <= e0
    /\ e0 <= INR (2 * 3)
    /\ (3%nat = 0%nat -> iteration r = 1%nat /\ e = 0).
Proof.
  apply (@optimizeQAOA_any_depth zeros [] [] 3%nat 0%nat 1001%nat).
  unfold MAX_ITERATIONS. lia.
Defined.

(** *** The VQE round *)

Lemma map_indexed (A B : Type) (h : A -> B) (p : list A) :
  map (fun pi : A * nat => h (fst pi)) (indexed p) = map h p.
Proof.
  unfold indexed. generalize 0%nat as s.
  induction p as [| x p IH]; intros s; cbn [length List.seq combine map fst].
  - reflexivity.
  - now rewrite IH.
Qed.

(** The update is gradient descent with learning rate 0.01 on the sum
    of the squared cosines. *)
Lemma vqe_descent_explicit (parameters : list number) :
  vqe_descent parameters
  = map (fun x => x .- Fin 0.01 .* (Fin (-2) .* JS.cos x .* JS.sin x))
        parameters.
Proof.
  unfold vqe_descent, updateParameters, evaluateVQEObjective. cbn [snd].
  rewrite <- (map_indexed
                (fun x => x .- Fin 0.01 .* (Fin (-2) .* JS.cos x .* JS.sin x))).
  apply map_ext_in. intros [x i] Hin. cbn [fst snd].
  apply GradientFacts.indexed_In in Hin. unfold JS.array_get.
  erewrite nth_error_nth; [reflexivity |].
  rewrite nth_error_map, Hin. reflexivity.
Qed.

Lemma squared_cosine_step (x : R) :
  cos (x - 0.01 * (-2 * cos x * sin x)) * cos (x - 0.01 * (-2 * cos x * sin x))
  <= cos x * cos x.
Proof.
  pose proof (@step_down (2 * x) 0.02 ltac:(lra)) as H.
  rewrite sin_2a in H.
  replace (2 * x + 0.02 * (2 * sin x * cos x))
    with (2 * (x - 0.01 * (-2 * cos x * sin x))) in H by lra.
  rewrite !cos_2a_cos in H. lra.
Qed.

Lemma vqe_fold (xs : list R) :
  forall acc acc' : R,
    acc' <= acc ->
    exists r r',
      fold_left (fun a param => a .+ JS.pow2 (JS.cos param))
                (map Fin xs) (Fin acc)
      = Fin r
      /\ fold_left (fun a param => a .+ JS.pow2 (JS.cos param))
                   (map (fun x => x .- Fin 0.01
                                  .* (Fin (-2) .* JS.cos x .* JS.sin x))
                        (map Fin xs))
                   (Fin acc')
         = Fin r'
      /\ r' <= r /\ acc' <= r' /\ r <= acc + INR (length xs).
Proof.
  induction xs as [| x xs IH]; intros acc acc' Hacc.
  - exists acc, acc'. cbn [length INR]. repeat split; try reflexivity; lra.
  - cbn [length map fold_left JS.sin JS.cos JS.pow2 JS.mul JS.add JS.sub].
    pose proof (squared_cosine_step x) as Hstep.
    pose proof (COS_bound x) as Hcx.
    set (x' := x - 0.01 * (-2 * cos x * sin x)) in *.
    destruct (IH (acc + cos x * cos x) (acc' + cos x' * cos x'))
      as (r & r' & Hr & Hr' & Hle & Hlo & Hhi); [lra |].
    exists r, r'. rewrite S_INR.
    repeat split; try assumption; nra.
Qed.

Lemma vqe_round (xs : list R) :
  exists a b,
    vqe_objective (map Fin xs) = Fin a
    /\ vqe_objective (vqe_descent (map Fin xs)) = Fin b
    /\ 0 <= b <= a
    /\ a <= INR (length xs).
Proof.
  destruct (@vqe_fold xs 0 0 ltac:(lra)) as (r & r' & Hr & Hr' & Hle & Hlo & Hhi).
  exists r, r'. rewrite vqe_descent_explicit.
  unfold vqe_objective, evaluateVQEObjective. cbn [fst].
  repeat split; try assumption; lra.
Qed.

(** X20.  One round of the VQE loop never increases the eigenvalue estimate:
    on finite parameters the objective (the sum of the squared cosines)
    after [updateParameters] is at most the objective before, and the
    objective of [n] parameters lies within [[0, n]]. *)
Theorem vqe_round_descends (xs : list R) :
  exists a b,
    vqe_objective (map Fin xs) = Fin a
    /\ vqe_objective (vqe_descent (map Fin xs)) = Fin b
    /\ 0 <= b <= a
    /\ a <= INR (length xs).
Proof. exact (vqe_round xs). Qed.

Lemma vqe_descent_on_finite (xs : list R) :
  vqe_descent (map Fin xs)
  = map Fin (map (fun x => x - 0.01 * (-2 * cos x * sin x)) xs).
Proof. rewrite vqe_descent_explicit, !map_map. reflexivity. Qed.

Lemma vqe_descent_chain (k : nat) :
  forall xs : list R,
    exists ys a b,
      iterate vqe_descent k (map Fin xs) = map Fin ys
      /\ length ys = length xs
      /\ vqe_objective (map Fin xs) = Fin a
      /\ vqe_objective (map Fin ys) = Fin b
      /\ 0 <= b <= a
      /\ a <= INR (length xs).
Proof.
  induction k as [| k IH]; intros xs.
  - destruct (vqe_round xs) as (a & b & Ha & _ & Hr & Hhi).
    exists xs, a, a. cbn [iterate]. repeat split; try assumption; lra.
  - cbn [iterate]. rewrite vqe_descent_on_finite.
    set (xs' := map (fun x => x - 0.01 * (-2 * cos x * sin x)) xs).
    destruct (vqe_round xs) as (a & a' & Ha & Ha' & Hle & Hhi).
    rewrite vqe_descent_on_finite in Ha'. fold xs' in Ha'.
    destruct (IH xs') as (ys & a'' & b & Hit & Hlen & Ha'' & Hb & Hle' & _).
    assert (a'' = a') by congruence. subst a''.
    exists ys, a, b.
    assert (Hlen' : length xs' = length xs) by apply length_map.
    repeat split; try assumption; try lra. congruence.
Qed.

(** The loop leaves with the parameters of [iteration - it] descent
    steps and the objective of the step before. *)
Lemma vqeLoop_result (hamiltonian : Matrix) (ansatz : list number -> Matrix) :
  forall (fuel : nat) (parameters : list number) (currentEigenvalue : number)
         (it : nat),
    (it <= MAX_ITERATIONS)%nat -> (MAX_ITERATIONS - it < fuel)%nat ->
    exists r,
      vqeLoop hamiltonian ansatz fuel parameters currentEigenvalue it = Some r
      /\ (it <= vqe_iteration r <= MAX_ITERATIONS)%nat
      /\ vqe_parameters r
         = iterate vqe_descent (vqe_iteration r - it) parameters
      /\ eigenvalue r
         = (if Nat.eqb (vqe_iteration r) it then currentEigenvalue
            else vqe_objective
                   (iterate vqe_descent (vqe_iteration r - it - 1) parameters))
      /\ (vqe_iteration r = MAX_ITERATIONS
          \/ (JS.abs (vqe_objective (vqe_parameters r) .- eigenvalue r)
              .< CONVERGENCE_THRESHOLD) = true).
Proof.
  induction fuel as [| fuel IH]; intros p cur it Hit Hfuel; [lia |].
  cbn [vqeLoop].
  destruct (Nat.ltb_spec it MAX_ITERATIONS) as [Hlt | Hge].
  - change (evaluateVQEObjective p hamiltonian ansatz)
      with (vqe_objective p,
            snd (evaluateVQEObjective p [] (fun _ => []))).
    cbv iota beta.
    destruct (JS.abs (vqe_objective p .- cur) .< CONVERGENCE_THRESHOLD)
      eqn:Hexit.
    + eexists. split; [reflexivity |].
      cbn [vqe_iteration vqe_parameters eigenvalue].
      rewrite Nat.sub_diag, Nat.eqb_refl. simpl.
      repeat split; lia || (right; exact Hexit).
    + fold (vqe_descent p).
      destruct (IH (vqe_descent p) (vqe_objective p) (S it)) as
        (r & Hr & Hrange & Hpar & Hen & Hstop); try lia.
      exists r. split; [exact Hr |]. split; [lia |].
      replace (vqe_iteration r - it)%nat
        with (S (vqe_iteration r - S it)) by lia.
      split; [exact Hpar |]. split; [| exact Hstop].
      rewrite Hen.
      destruct (Nat.eqb_spec (vqe_iteration r) (S it)) as [E | E].
      * destruct (Nat.eqb_spec (vqe_iteration r) it); [lia |].
        now replace (S (vqe_iteration r - S it) - 1)%nat with 0%nat by lia.
      * destruct (Nat.eqb_spec (vqe_iteration r) it); [lia |].
        now replace (S (vqe_iteration r - S it) - 1)%nat
          with (S (vqe_iteration r - S it - 1)) by lia.
  - eexists. split; [reflexivity |].
    cbn [vqe_iteration vqe_parameters eigenvalue].
    rewrite Nat.sub_diag, Nat.eqb_refl. simpl.
    repeat split; lia.
Qed.

(** X21.  For every Hamiltonian, every ansatz and all draws, [optimizeVQE]
    reads 10 draws and leaves its loop after at least one and at most
    1000 rounds; it returns 10 finite parameters, those of [iteration]
    steps of gradient descent with learning rate 0.01 on the sum of the
    squared cosines, and an eigenvalue that is finite, lies within
    [[0, 10]] and does not exceed the objective of the random start;
    the loop left because the cap was reached or because the objective
    changed by less than 1e-6.  Neither the Hamiltonian nor the ansatz
    has any influence on the result. *)
Theorem optimizeVQE_result
        (rnd : Rand.source) (hamiltonian : Matrix)
        (ansatz : list number -> Matrix) (k fuel : nat) :
  (MAX_ITERATIONS < fuel)%nat ->
  let start := fst (initializeRandomParameters rnd 10 k) in
  exists r e e0,
    optimizeVQE rnd fuel hamiltonian ansatz k = (Some r, (k + 10)%nat)
    /\ length (vqe_parameters r) = 10%nat
    /\ Forall JS.is_finite (vqe_parameters r)
    /\ (1 <= vqe_iteration r <= 1000)%nat
    /\ vqe_parameters r = iterate vqe_descent (vqe_iteration r) start
    /\ eigenvalue r
       = vqe_objective (iterate vqe_descent (vqe_iteration r - 1) start)
    /\ eigenvalue r = Fin e
    /\ vqe_objective start = Fin e0
    /\ 0 <= e <= e0 /\ e0 <= 10
    /\ (vqe_iteration r = 1000%nat
        \/ (JS.abs (vqe_objective (vqe_parameters r) .- eigenvalue r)
            .< Fin 1e-6) = true)
    /\ optimizeVQE rnd fuel [] (fun _ => []) k
       = optimizeVQE rnd fuel hamiltonian ansatz k.
Proof.
  intros Hfuel start. subst start.
  assert (Hsame : optimizeVQE rnd fuel [] (fun _ => []) k
                  = optimizeVQE rnd fuel hamiltonian ansatz k).
  { unfold optimizeVQE, Rand.bind.
    destruct (initializeRandomParameters rnd 10 k) as [p0 k1].
    unfold Rand.ret. f_equal.
    destruct (@vqeLoop_result hamiltonian ansatz fuel p0 PInf 0)
      as (r & Hr & _); [lia | lia |].
    clear Hr r. generalize PInf as cur. generalize 0%nat as it.
    revert p0. clear Hfuel.
    induction fuel as [| fuel IH]; intros p0 it cur; [reflexivity |].
    cbn [vqeLoop]. destruct (it <? MAX_ITERATIONS)%nat; [| reflexivity].
    change (evaluateVQEObjective p0 hamiltonian ansatz)
      with (evaluateVQEObjective p0 [] (fun _ => [])).
    destruct (evaluateVQEObjective p0 [] (fun _ => [])) as [ev g].
    destruct (JS.abs (ev .- cur) .< CONVERGENCE_THRESHOLD); [reflexivity |].
    apply IH. }
  rewrite Hsame. clear Hsame.
  unfold optimizeVQE, Rand.bind.
  rewrite initializeRandomParameters_draws. cbn [fst]. unfold Rand.ret.
  set (xs := map (fun i => (rnd i - 0.5) * 2 * PI) (List.seq k 10)).
  assert (Hlen : length xs = 10%nat)
    by (unfold xs; now rewrite length_map, length_seq).
  destruct (@vqeLoop_result hamiltonian ansatz fuel (map Fin xs) PInf 0)
    as (r & Hr & Hrange & Hpar & Hen & Hstop); [lia | lia |].
  rewrite Nat.sub_0_r in Hpar, Hen.
  destruct (vqe_descent_chain (vqe_iteration r) xs)
    as (ys & a & b & Hit & Hlys & Ha & Hb & Hle & Hhi).
  assert (Hpos : (1 <= vqe_iteration r)%nat).
  { destruct (vqe_iteration r) as [| n] eqn:Hn; [| lia]. exfalso.
    cbn [Nat.eqb] in Hen. cbn [iterate] in Hpar.
    destruct Hstop as [Hcap | Hlow]; [discriminate Hcap |].
    rewrite Hpar, Ha, Hen in Hlow. discriminate Hlow. }
  destruct (Nat.eqb_spec (vqe_iteration r) 0) as [E | _]; [lia |].
  destruct (vqe_descent_chain (vqe_iteration r - 1) xs)
    as (zs & a' & e & Hit' & Hlzs & Ha' & He & Hle' & _).
  assert (a' = a) by congruence. subst a'.
  exists r, e, a. rewrite Hr.
  split; [reflexivity |].
  split; [rewrite Hpar, Hit, length_map; congruence |].
  split; [rewrite Hpar, Hit; apply map_Fin_finite |].
  split; [unfold MAX_ITERATIONS in Hrange; lia |].
  split; [exact Hpar |]. split; [exact Hen |].
  split; [rewrite Hen, Hit'; exact He |]. split; [exact Ha |].
  rewrite Hlen in Hhi. cbn [INR] in Hhi.
  split; [exact Hle' |]. split; [lra |].
  split; [| reflexivity].
  destruct Hstop as [Hcap | Hlow]; [left; exact Hcap | right; exact Hlow].
Qed.

Lemma optimizeVQE_result_witness :
  let start := fst (initializeRandomParameters zeros 10 0%nat) in
  exists r e e0,
    optimizeVQE zeros 1001 [] (fun _ => []) 0%nat = (Some r, (0 + 10)%nat)
    /\ length (vqe_parameters r) = 10%nat
    /\ Forall JS.is_finite (vqe_parameters r)
    /\ (1 <= vqe_iteration r <= 1000)%nat
    /\ vqe_parameters r = iterate vqe_descent (vqe_iteration r) start
    /\ eigenvalue r
       = vqe_objective (iterate vqe_descent (vqe_iteration r - 1) start)
    /\ eigenvalue r = Fin e
    /\ vqe_objective start = Fin e0
    /\ 0 <= e <= e0 /\ e0 <= 10
    /\ (vqe_iteration r = 1000%nat
        \/ (JS.abs (vqe_objective (vqe_parameters r) .- eigenvalue r)
            .< Fin 1e-6) = true)
    /\ optimizeVQE zeros 1001 [] (fun _ => []) 0%nat
       = optimizeVQE zeros 1001 [] (fun _ => []) 0%nat.
Proof.
  apply (@optimizeVQE_result zeros [] (fun _ => []) 0%nat 1001%nat).
  unfold MAX_ITERATIONS. lia.
Defined.

End DescentFacts.

(** ** More on the trainer *)

Module TrainerMoreFacts.

Import QuantumAI Props.
Open Scope R_scope.
Open Scope js_scope.

(** *** Gates on a register pair *)

(** X22.  No gate of [applyQuantumGate] lets a pair of amplitudes grow: for
    a gate error within [[0, 1]] the squared modulus of the pair
    returned is at most that of the pair given, and the gate RX keeps
    it. *)
Theorem applyQuantumGate_contracts (gate : string) (re im e : R) :
  0 <= e <= 1 ->
  exists re' im',
    applyQuantumGate gate (Fin re) (Fin im) (Fin e) = (Fin re', Fin im')
    /\ re' * re' + im' * im' <= re * re + im * im
    /\ (gate = "RX"%string -> re' * re' + im' * im' = re * re + im * im).
Proof.
  intros He. unfold applyQuantumGate.
  assert (Hsq : 0 <= (1 - e) * (1 - e) <= 1) by nra.
  assert (Hn : 0 <= re * re + im * im) by nra.
  destruct (String.eqb_spec gate "H") as [-> | HnH].
  - assert (H2 : 0 < sqrt 2) by (apply sqrt_lt_R0; lra).
    assert (H22 : sqrt 2 * sqrt 2 = 2) by (apply sqrt_sqrt; lra).
    rewrite JSFacts.sqrt_Fin by lra. cbn [JS.add JS.sub].
    rewrite !JSFacts.div_Fin by lra. cbn [JS.mul].
    eexists. eexists. split; [reflexivity |]. split; [| discriminate].
    replace ((re + im) / sqrt 2 * (1 - e) * ((re + im) / sqrt 2 * (1 - e))
             + (re - im) / sqrt 2 * (1 - e) * ((re - im) / sqrt 2 * (1 - e)))
      with ((re * re + im * im) * ((1 - e) * (1 - e))
            * (2 / (sqrt 2 * sqrt 2)))
      by (field; lra).
    rewrite H22. replace (2 / 2) with 1 by lra. nra.
  - destruct (String.eqb_spec gate "RX") as [-> | HnRX].
    + cbn [JS.cos JS.sin JS.mul JS.sub JS.add].
      eexists. eexists. split; [reflexivity |].
      pose proof (sin2_cos2 e) as Hsc. unfold Rsqr in Hsc.
      assert (Heq : (re * cos e - im * sin e) * (re * cos e - im * sin e)
                    + (im * cos e + re * sin e) * (im * cos e + re * sin e)
                    = (re * re + im * im)
                      * (sin e * sin e + cos e * cos e)) by ring.
      rewrite Heq, Hsc. split; [lra | intros _; ring].
    + cbn [JS.mul JS.sub].
      eexists. eexists. split; [reflexivity |].
      split; [| intros E; contradiction].
      replace (re * (1 - e) * (re * (1 - e)) + im * (1 - e) * (im * (1 - e)))
        with ((re * re + im * im) * ((1 - e) * (1 - e))) by ring.
      nra.
Qed.

Lemma applyQuantumGate_contracts_witness :
  exists re' im',
    applyQuantumGate "RX" (Fin 0.6) (Fin 0.8) (Fin 0.005) = (Fin re', Fin im')
    /\ re' * re' + im' * im' <= 0.6 * 0.6 + 0.8 * 0.8
    /\ ("RX"%string = "RX"%string ->
        re' * re' + im' * im' = 0.6 * 0.6 + 0.8 * 0.8).
Proof.
  apply (@applyQuantumGate_contracts "RX" 0.6 0.8 0.005). lra.
Defined.

(** *** Predictions *)

Lemma clamp_range (x : R) :
  JS.in_range 0 1 (max (Fin 0) (JS.min (Fin 1) (Fin x))).
Proof.
  unfold JS.min, JS.ltb, max, JS.Rltb.
  destruct (Rlt_dec x 1) as [H1 | H1].
  - cbn [JS.ltb]. unfold JS.Rltb. destruct (Rlt_dec 0 x).
    + exists x. split; [reflexivity | lra].
    + exists 0. split; [reflexivity | lra].
  - cbn [JS.ltb]. unfold JS.Rltb. destruct (Rlt_dec 0 1); [| lra].
    exists 1. split; [reflexivity | lra].
Qed.

Lemma mapM_two_draws (A B : Type) (f : A -> Rand.M B) (Q : B -> Prop)
      (xs : list A) :
  (forall x k, In x xs -> Q (fst (f x k)) /\ snd (f x k) = S (S k)) ->
  forall k,
    Forall Q (fst (Rand.mapM f xs k))
    /\ length (fst (Rand.mapM f xs k)) = length xs
    /\ snd (Rand.mapM f xs k) = (k + 2 * length xs)%nat.
Proof.
  induction xs as [| x xs IH]; intros Hf k; cbn [Rand.mapM].
  - unfold Rand.ret. cbn [fst snd length].
    split; [constructor | split; [reflexivity | lia]].
  - unfold Rand.bind.
    destruct (Hf x k (or_introl eq_refl)) as [Hq Hk].
    destruct (f x k) as [y k1]. cbn [fst snd] in Hq, Hk. subst k1.
    destruct (IH (fun x' k' Hin => Hf x' k' (or_intror Hin)) (S (S k)))
      as (Hys & Hlen & Hcur).
    destruct (Rand.mapM f xs (S (S k))) as [ys k2].
    cbn [fst snd] in Hys, Hlen, Hcur |- *. unfold Rand.ret. cbn [fst snd length].
    split; [constructor; assumption | split; lia].
Qed.

(** X23.  With a finite accuracy and a finite noise threshold, [predict]
    answers a finite input with as many numbers, each within
    [[0, 1]], and reads two draws per element, whatever the draws and
    the clock are. *)
Theorem predict_in_unit_interval
        (rnd : Rand.source) (now : nat -> R) (ai : t) (input : list number)
        (k : nat) :
  JS.is_finite (accuracy (model ai)) ->
  JS.is_finite (quantumNoiseThreshold (optimizer ai)) ->
  Forall JS.is_finite input ->
  let r := predict rnd now ai input k in
  Forall (JS.in_range 0 1) (fst r)
  /\ length (fst r) = length input
  /\ snd r = (k + 2 * length input)%nat.
Proof.
  intros [a Ha] [thr Hthr] Hin r. subst r. unfold predict.
  match goal with
  | |- context [Rand.mapM ?f ?xs k] =>
      destruct (@mapM_two_draws _ _ f (JS.in_range 0 1) xs) with (k := k)
        as (HQ & Hlen & Hcur)
  end.
  - intros [x n] k0 Hx. apply in_combine_l in Hx.
    rewrite Forall_forall in Hin. destruct (Hin x Hx) as [xr ->].
    unfold calculateQuantumNoise, Rand.bind, Rand.random, Rand.ret.
    cbn [fst snd]. rewrite Ha, Hthr.
    unfold coherenceTime. cbn [JS.neg JS.mul].
    rewrite JSFacts.div_Fin by lra.
    cbn [JS.exp JS.sub JS.mul JS.add].
    split; [apply clamp_range | reflexivity].
  - rewrite length_combine, length_seq, Nat.min_id in Hlen, Hcur.
    repeat split; assumption.
Qed.

Lemma predict_in_unit_interval_witness :
  let ai := fst (QuantumAI.constructor zeros 1 0%nat) in
  let r := predict zeros (fun _ => 1700000000000) ai [Fin 0.25; Fin 7] 3%nat in
  Forall (JS.in_range 0 1) (fst r)
  /\ length (fst r) = length [Fin 0.25; Fin 7]
  /\ snd r = (3 + 2 * length [Fin 0.25; Fin 7])%nat.
Proof.
  intros ai.
  apply (@predict_in_unit_interval zeros (fun _ => 1700000000000) ai
           [Fin 0.25; Fin 7] 3%nat).
  - destruct (@TrainerFacts.constructor_one_layer zeros 0%nat)
      as (_ & _ & _ & _ & (a & Ha & _)).
    exists a. exact Ha.
  - destruct (@TrainerFacts.constructor_one_layer zeros 0%nat)
      as (_ & _ & Hthr & _).
    exists 0.01. exact Hthr.
  - repeat constructor; eexists; reflexivity.
Defined.

(** *** A trainer without layers *)

Lemma mul_NaN_r (x : number) : x .* NaN = NaN.
Proof. now destruct x. Qed.

Lemma mul_NaN_l (x : number) : NaN .* x = NaN.
Proof. reflexivity. Qed.

Lemma add_NaN_r (x : number) : x .+ NaN = NaN.
Proof. now destruct x. Qed.

Lemma add_NaN_l (x : number) : NaN .+ x = NaN.
Proof. reflexivity. Qed.

Lemma zero_layers_state (rnd : Rand.source) (epochs k : nat) :
  (1 <= epochs)%nat ->
  let ai := fst (train rnd epochs (fst (QuantumAI.constructor rnd 0 k)) k) in
  accuracy (model ai) = NaN
  /\ loss (model ai) = NaN
  /\ snd (QuantumAI.constructor rnd 0 k) = k
  /\ snd (train rnd epochs (fst (QuantumAI.constructor rnd 0 k)) k) = k.
Proof.
  intros He.
  assert (Hstep : forall ai epoch k0,
             quantumLayers ai = [] ->
             trainEpoch rnd ai epoch k0
             = (NaN, mkQuantumAI (model ai) (architecture ai) []
                                 (optimizer ai) (quantumMemory ai), k0)).
  { intros ai epoch k0 Hq. unfold trainEpoch. rewrite Hq.
    cbn [length List.seq combine Rand.foldM]. unfold Rand.bind, Rand.ret.
    cbn [fst snd]. unfold JS.of_nat. cbn [INR JS.div].
    rewrite JSFacts.Reqb_true by reflexivity. unfold JS.inf_times.
    rewrite JSFacts.Reqb_true by reflexivity. reflexivity. }
  assert (Hloop : forall count epoch ai k0,
             quantumLayers ai = [] ->
             (epoch = 0%nat \/ (accuracy (model ai) = NaN
                                /\ loss (model ai) = NaN)) ->
             (1 <= count + epoch)%nat ->
             accuracy (model (fst (trainFrom rnd count epoch ai k0))) = NaN
             /\ loss (model (fst (trainFrom rnd count epoch ai k0))) = NaN
             /\ snd (trainFrom rnd count epoch ai k0) = k0).
  { induction count as [| count IH]; intros epoch ai k0 Hq Hstate Hc.
    - cbn [trainFrom]. unfold Rand.ret. cbn [fst snd].
      destruct Hstate as [-> | [Ha Hl]]; [lia |]. auto.
    - cbn [trainFrom]. unfold Rand.bind. rewrite (Hstep ai epoch k0 Hq).
      cbn [fst snd]. apply IH.
      + reflexivity.
      + right. unfold updateModelMetrics.
        cbn [model accuracy loss JS.neg JS.exp].
        rewrite ?mul_NaN_r, ?mul_NaN_l, ?add_NaN_r, ?add_NaN_l.
        split; reflexivity.
      + lia. }
  assert (Hc : QuantumAI.constructor rnd 0 k
               = (fst (QuantumAI.constructor rnd 0 k), k)) by reflexivity.
  cbn zeta. unfold train.
  destruct (Hloop epochs 0%nat (fst (QuantumAI.constructor rnd 0 k)) k)
    as (Ha & Hl & Hk); [reflexivity | now left | lia |].
  repeat split; try assumption.
Qed.

(** X24.  [new QuantumAI(0)] has no layer, so the loss of an epoch is
    [0 / 0]: after one epoch or more the accuracy and the loss of the
    model are [NaN]; neither the construction nor the training reads a
    draw. *)
Theorem train_zero_layers (rnd : Rand.source) (epochs k : nat) :
  (1 <= epochs)%nat ->
  let ai := fst (train rnd epochs (fst (QuantumAI.constructor rnd 0 k)) k) in
  accuracy (model ai) = NaN
  /\ loss (model ai) = NaN
  /\ snd (QuantumAI.constructor rnd 0 k) = k
  /\ snd (train rnd epochs (fst (QuantumAI.constructor rnd 0 k)) k) = k.
Proof. exact (@zero_layers_state rnd epochs k). Qed.

Lemma train_zero_layers_witness :
  let ai := fst (train zeros 2 (fst (QuantumAI.constructor zeros 0 0%nat))
                       0%nat) in
  accuracy (model ai) = NaN
  /\ loss (model ai) = NaN
  /\ snd (QuantumAI.constructor zeros 0 0%nat) = 0%nat
  /\ snd (train zeros 2 (fst (QuantumAI.constructor zeros 0 0%nat)) 0%nat)
     = 0%nat.
Proof.
  apply (@train_zero_layers zeros 2%nat 0%nat). lia.
Defined.

(** X25.  With an accuracy that is [NaN], every prediction is [NaN]. *)
Theorem predict_nan
        (rnd : Rand.source) (now : nat -> R) (ai : t) (input : list number)
        (k : nat) :
  accuracy (model ai) = NaN ->
  fst (predict rnd now ai input k) = map (fun _ => NaN) input.
Proof.
  intros Ha. unfold predict. generalize 0%nat as s. revert k.
  induction input as [| x input IH]; intros k s; [reflexivity |].
  cbn [length List.seq combine Rand.mapM map].
  unfold Rand.bind at 1. unfold Rand.bind at 1.
  unfold calculateQuantumNoise at 1. unfold Rand.bind at 1.
  unfold Rand.random at 1. unfold Rand.ret at 1.
  unfold Rand.bind at 1. unfold Rand.random at 1. unfold Rand.ret at 1.
  unfold Rand.bind at 1. specialize (IH (S (S k)) (S s)).
  destruct (Rand.mapM _ (combine input (List.seq (S s) (length input)))
                      (S (S k))) as [ys k2].
  cbn [fst snd] in IH |- *. unfold Rand.ret. cbn [fst]. rewrite IH. f_equal.
  rewrite Ha. cbn [JS.sub JS.mul].
  rewrite ?mul_NaN_r, ?add_NaN_r. reflexivity.
Qed.

Lemma predict_nan_witness :
  fst (predict zeros (fun _ => 0)
               (fst (train zeros 1 (fst (QuantumAI.constructor zeros 0 0%nat))
                           0%nat))
               [Fin 0.5] 0%nat)
  = map (fun _ => NaN) [Fin 0.5].
Proof.
  apply (@predict_nan zeros (fun _ => 0)
           (fst (train zeros 1 (fst (QuantumAI.constructor zeros 0 0%nat))
                       0%nat))
           [Fin 0.5] 0%nat).
  apply (@zero_layers_state zeros 1%nat 0%nat). lia.
Defined.

(** *** The accuracy in the early epochs *)

Lemma constructor_trainer (rnd : Rand.source) (L k : nat) :
  trainer L 0 (fst (QuantumAI.constructor rnd L k))
  /\ accuracy (model (fst (QuantumAI.constructor rnd L k))) = Fin 0.
Proof.
  unfold QuantumAI.constructor, Rand.bind.
  unfold initializeQuantumLayers.
  match goal with
  | |- context [Rand.mapM ?f ?xs k] =>
      destruct (@JSFacts.mapM_Forall _ _ (fun _ => True) f xs
                  (fun _ _ _ => I) k) as [_ HL];
      destruct (Rand.mapM f xs k) as [ls k1]
  end.
  cbn [fst] in HL. rewrite length_seq in HL.
  unfold initializeQuantumRegisters, Rand.bind.
  match goal with
  | |- context [Rand.foldM ?f ?xs ?m k1] =>
      destruct (Rand.foldM f xs m k1) as [mem k2]
  end.
  unfold Rand.ret. cbn [fst]. unfold trainer.
  cbn [quantumLayers optimizer model layers accuracy quantumNoiseThreshold
       initializeHybridOptimizer].
  repeat split; try assumption.
  exists 0. split; [reflexivity | lra].
Qed.

Lemma trainFrom_snoc (rnd : Rand.source) (count : nat) :
  forall (epoch : nat) (ai : t) (k : nat),
    trainFrom rnd (S count) epoch ai k
    = (let (ai1, k1) := trainFrom rnd count epoch ai k in
       let (r, k2) := trainEpoch rnd ai1 (epoch + count) k1 in
       (updateModelMetrics (snd r) (fst r) (epoch + count), k2)).
Proof.
  induction count as [| count IH]; intros epoch ai k.
  - cbn [trainFrom]. unfold Rand.bind, Rand.ret. rewrite Nat.add_0_r.
    destruct (trainEpoch rnd ai epoch k) as [r k1]. reflexivity.
  - change (trainFrom rnd (S (S count)) epoch ai k)
      with (let (r, k1) := trainEpoch rnd ai epoch k in
            trainFrom rnd (S count) (S epoch)
                      (updateModelMetrics (snd r) (fst r) epoch) k1).
    change (trainFrom rnd (S count) epoch ai k)
      with (let (r, k1) := trainEpoch rnd ai epoch k in
            trainFrom rnd count (S epoch)
                      (updateModelMetrics (snd r) (fst r) epoch) k1).
    destruct (trainEpoch rnd ai epoch k) as [r k1].
    rewrite IH. now replace (S epoch + count)%nat with (epoch + S count)%nat
      by lia.
Qed.

Section Early.

Variable rnd : Rand.source.
Hypothesis rnd_fair : Rand.fair rnd.

(** The loss of an epoch is finite and not negative; the epoch
    rewrites the registers only. *)
Lemma trainEpoch_nonneg (L : nat) (lo : R) (ai : t) (epoch k : nat) :
  trainer L lo ai -> (1 <= L)%nat ->
  exists l ai',
    fst (trainEpoch rnd ai epoch k) = (Fin l, ai')
    /\ 0 <= l
    /\ model ai' = model ai
    /\ quantumLayers ai' = quantumLayers ai
    /\ optimizer ai' = optimizer ai.
Proof.
  intros (Hlen & Hthr & Hlayers & Hacc) HL. unfold trainEpoch.
  match goal with
  | |- context [Rand.foldM ?f _ _] => set (body := f)
  end.
  assert (G : forall lis s0 mem k0,
    0 <= s0 ->
    exists s,
      fst (fst (Rand.foldM body lis (Fin s0, mem) k0)) = Fin s /\ s0 <= s).
  { induction lis as [| [layer i] lis IH]; intros s0 mem k0 Hs0.
    - exists s0. split; [reflexivity | lra].
    - cbn [Rand.foldM]. unfold Rand.bind at 1. unfold body at 1.
      cbn [fst snd].
      destruct (mem i) as [register |].
      + unfold Rand.bind at 1.
        destruct (@TrainerFacts.simulateQuantumOperations_loss
                    rnd rnd_fair ai layer Hthr register k0)
          as (l & Hl0 & Hlb).
        destruct (simulateQuantumOperations rnd ai layer register k0)
          as [[loss reg] k1].
        cbn [fst snd] in Hl0 |- *. subst loss. unfold Rand.ret at 1.
        cbn [JS.add].
        destruct (IH (s0 + l) (memory_set mem i
                                 (applyQuantumNoiseReduction ai reg epoch)) k1)
          as (s & Hs & Hb); [lra |].
        exists s. split; [exact Hs | lra].
      + unfold Rand.ret at 1.
        destruct (IH s0 mem k0 Hs0) as (s & Hs & Hb).
        exists s. split; [exact Hs | lra]. }
  unfold Rand.bind.
  destruct (G (combine (quantumLayers ai)
                       (List.seq 0 (length (quantumLayers ai))))
              0 (quantumMemory ai) k (Rle_refl 0)) as (s & Hs & Hb).
  destruct (Rand.foldM body _ _ k) as [[loss mem] k1].
  cbn [fst snd] in Hs |- *. subst loss. unfold Rand.ret. cbn [fst].
  rewrite Hlen. unfold JS.of_nat.
  assert (HLpos : 0 < INR L) by (apply lt_0_INR; lia).
  rewrite JSFacts.div_Fin by lra.
  eexists. eexists. split; [reflexivity |].
  repeat split. apply Rmult_le_pos; [lra |].
  left. now apply Rinv_0_lt_compat.
Qed.

(** While [epoch <= 2 L] an epoch does not lower the accuracy. *)
Lemma early_step (L : nat) (lo : R) (ai : t) (epoch k : nat) :
  trainer L lo ai -> (1 <= L)%nat -> (epoch <= 2 * L)%nat ->
  let r := fst (trainEpoch rnd ai epoch k) in
  exists a a',
    accuracy (model ai) = Fin a
    /\ accuracy (model (updateModelMetrics (snd r) (fst r) epoch)) = Fin a'
    /\ a <= a' <= 1
    /\ trainer L lo (updateModelMetrics (snd r) (fst r) epoch).
Proof.
  intros Hai HL Hep r. subst r.
  destruct (@trainEpoch_nonneg L lo ai epoch k Hai HL)
    as (l & ai' & Hr & Hl & Hm & Hq & Ho).
  destruct Hai as (Hlen & Hthr & Hlayers & (a & Hacc & Ha)).
  rewrite Hr. cbn [fst snd]. unfold trainer, updateModelMetrics.
  cbn [quantumLayers optimizer model layers accuracy].
  rewrite Hq, Ho, Hm, Hlayers, Hacc.
  assert (HLpos : 0 < INR L) by (apply lt_0_INR; lia).
  assert (Hfrac : 0 <= 1 - INR epoch / (INR L * 2)).
  { apply le_INR in Hep. rewrite mult_INR in Hep. cbn [INR] in Hep.
    assert (INR epoch / (INR L * 2) <= 1).
    { apply Rmult_le_reg_r with (INR L * 2); [lra |].
      unfold Rdiv. rewrite Rmult_assoc, Rinv_l by lra. lra. }
    lra. }
  unfold JS.of_nat. cbn [JS.mul JS.neg JS.exp JS.sub].
  rewrite JSFacts.div_Fin by lra. cbn [JS.sub JS.mul JS.add].
  set (imp := (1 - a) * 0.1 * exp (- l) * (1 - INR epoch / (INR L * 2))).
  assert (Himp : 0 <= imp).
  { unfold imp. pose proof (exp_pos (- l)) as Hexp.
    assert (H1 : 0 <= (1 - a) * 0.1) by nra.
    assert (H2 : 0 <= (1 - a) * 0.1 * exp (- l))
      by (apply Rmult_le_pos; lra).
    apply Rmult_le_pos; assumption. }
  exists a.
  unfold JS.min, JS.ltb, JS.Rltb.
  destruct (Rlt_dec (a + imp) 1) as [Hlt | Hge].
  - exists (a + imp). repeat split; try assumption; try lra.
    exists (a + imp). split; [reflexivity | lra].
  - exists 1. repeat split; try assumption; try lra.
    exists 1. split; [reflexivity | lra].
Qed.

Lemma trainFrom_early (L : nat) (lo : R) (count : nat) :
  (1 <= L)%nat ->
  forall (epoch : nat) (ai : t) (k : nat),
    trainer L lo ai -> (epoch + count <= 2 * L + 1)%nat ->
    exists a a',
      accuracy (model ai) = Fin a
      /\ accuracy (model (fst (trainFrom rnd count epoch ai k))) = Fin a'
      /\ a <= a' <= 1
      /\ trainer L lo (fst (trainFrom rnd count epoch ai k)).
Proof.
  intros HL. induction count as [| count IH]; intros epoch ai k Hai Hep.
  - cbn [trainFrom]. unfold Rand.ret. cbn [fst].
    destruct Hai as (Hlen & Hthr & Hlayers & (a & Hacc & Ha)).
    exists a, a.
    split; [exact Hacc |]. split; [exact Hacc |]. split; [lra |].
    repeat split; try assumption.
    exists a. split; [exact Hacc | lra].
  - cbn [trainFrom]. unfold Rand.bind.
    destruct (@early_step L lo ai epoch k Hai HL ltac:(lia))
      as (a & a1 & Ha & Ha1 & Hle & Hai1).
    destruct (trainEpoch rnd ai epoch k) as [r k1]. cbn [fst snd] in *.
    destruct (IH (S epoch) _ k1 Hai1 ltac:(lia))
      as (a1' & a' & Ha1' & Ha' & Hle' & Hai').
    assert (a1' = a1) by congruence. subst a1'.
    exists a, a'.
    split; [exact Ha |]. split; [exact Ha' |]. split; [lra | exact Hai'].
Qed.

(** X26.  A trainer of [L >= 1] layers, trained for at most [2 L + 1] epochs
    from its construction: the accuracy stays within [[0, 1]], and the
    last of these epochs does not lower it. *)
Theorem train_accuracy_early (L epochs k : nat) :
  (1 <= L)%nat -> (epochs <= 2 * L)%nat ->
  let (ai0, k0) := QuantumAI.constructor rnd L k in
  exists a1 a2,
    accuracy (model (fst (train rnd epochs ai0 k0))) = Fin a1
    /\ accuracy (model (fst (train rnd (S epochs) ai0 k0))) = Fin a2
    /\ 0 <= a1 <= a2 /\ a2 <= 1.
Proof.
  intros HL Hep.
  destruct (constructor_trainer rnd L k) as [H0 Hacc0].
  destruct (QuantumAI.constructor rnd L k) as [ai0 k0].
  cbn [fst] in H0, Hacc0. unfold train.
  destruct (@trainFrom_early L 0 epochs HL 0%nat ai0 k0 H0 ltac:(lia))
    as (a0 & a1 & Ha0 & Ha1 & Hle1 & Hai1).
  assert (a0 = 0) by congruence. subst a0.
  rewrite trainFrom_snoc. cbn [Nat.add].
  destruct (trainFrom rnd epochs 0 ai0 k0) as [ai1 k1].
  cbn [fst] in Ha1, Hai1 |- *.
  destruct (@early_step L 0 ai1 epochs k1 Hai1 HL Hep)
    as (a1' & a2 & Ha1' & Ha2 & Hle2 & _).
  destruct (trainEpoch rnd ai1 epochs k1) as [r k2].
  cbn [fst snd] in Ha2 |- *.
  assert (a1' = a1) by congruence. subst a1'.
  exists a1, a2. repeat split; try assumption; lra.
Qed.

End Early.

Lemma train_accuracy_early_witness :
  let (ai0, k0) := QuantumAI.constructor zeros 2 0%nat in
  exists a1 a2,
    accuracy (model (fst (train zeros 4 ai0 k0))) = Fin a1
    /\ accuracy (model (fst (train zeros 5 ai0 k0))) = Fin a2
    /\ 0 <= a1 <= a2 /\ a2 <= 1.
Proof.
  apply (@train_accuracy_early zeros TrainerFacts.zeros_fair 2%nat 4%nat 0%nat);
    lia.
Defined.

End TrainerMoreFacts.

(** ** More on the imaginary-time evolution *)

Module EvolutionMoreFacts.

Import QuantumOptimizer Props.
Open Scope R_scope.
Open Scope js_scope.

(** *** When a round throws *)

Lemma reduce_throw_returns (A B : Type) (f : B -> A -> option B)
      (xs : list A) :
  (forall acc x, In x xs -> f acc x <> None) ->
  forall acc, exists r, reduce_throw f xs acc = Some r.
Proof.
  induction xs as [| x xs IH]; intros Hf acc; cbn [reduce_throw].
  - now exists acc.
  - destruct (f acc x) as [acc' |] eqn:E.
    + apply IH. intros a y Hy. apply Hf. now right.
    + exfalso. apply (Hf acc x (or_introl eq_refl) E).
Qed.

Lemma reduce_throw_throws (A B : Type) (f : B -> A -> option B)
      (xs : list A) (x : A) :
  In x xs -> (forall acc, f acc x = None) ->
  forall acc, reduce_throw f xs acc = None.
Proof.
  induction xs as [| y xs IH]; intros Hin Hf acc; [contradiction |].
  cbn [reduce_throw]. destruct Hin as [-> | Hin].
  - now rewrite Hf.
  - destruct (f acc y); [now apply IH | reflexivity].
Qed.

Lemma map_throw_returns (A B : Type) (f : A -> option B) (xs : list A) :
  (forall x, In x xs -> f x <> None) ->
  exists ys, map_throw f xs = Some ys /\ length ys = length xs.
Proof.
  induction xs as [| x xs IH]; intros Hf; cbn [map_throw].
  - now exists [].
  - destruct (f x) as [y |] eqn:E.
    + destruct IH as (ys & -> & Hlen);
        [intros z Hz; apply Hf; now right |].
      exists (y :: ys). split; [reflexivity | simpl; now rewrite Hlen].
    + exfalso. apply (Hf x (or_introl eq_refl) E).
Qed.

Lemma map_throw_throws (A B : Type) (f : A -> option B) (xs : list A)
      (x : A) :
  In x xs -> f x = None -> map_throw f xs = None.
Proof.
  induction xs as [| y xs IH]; intros Hin Hf; [contradiction |].
  cbn [map_throw]. destruct Hin as [-> | Hin].
  - now rewrite Hf.
  - destruct (f y); [| reflexivity]. now rewrite IH.
Qed.

Lemma indexed_bound (A : Type) (xs : list A) (x : A) (i : nat) :
  In (x, i) (indexed xs) -> (i < length xs)%nat.
Proof.
  intros Hin. apply GradientFacts.indexed_In in Hin.
  apply nth_error_Some. congruence.
Qed.

Lemma indexed_has (A : Type) (xs : list A) (i : nat) :
  (i < length xs)%nat -> exists x, In (x, i) (indexed xs).
Proof.
  intros Hi. destruct (nth_error xs i) as [x |] eqn:E.
  - exists x. apply QAOAFacts.nth_error_indexed in E.
    now apply nth_error_In in E.
  - apply nth_error_None in E. lia.
Qed.

Lemma evolveState_returns (st : list Complex) (hamiltonian : Matrix)
      (dt : number) :
  covers (length st) hamiltonian ->
  exists st', evolveState st hamiltonian dt = Some st'
              /\ length st' = length st.
Proof.
  intros Hc. unfold evolveState.
  destruct (@map_throw_returns _ _
              (fun si : Complex * nat =>
                 reduce_throw
                   (fun acc (sj : Complex * nat) =>
                      let s := fst sj in
                      let? h := entry hamiltonian (snd si) (snd sj) in
                      Some (mkComplex
                              (real acc .+ (real h .* real s
                                            .- imag h .* imag s) .* dt)
                              (imag acc .+ (real h .* imag s
                                            .+ imag h .* real s) .* dt)))
                   (indexed st) zero)
              (indexed st)) as (ys & Hys & Hlen).
  - intros [s i] Hi. cbn [snd]. apply indexed_bound in Hi.
    match goal with
    | |- reduce_throw ?f ?xs ?a <> None =>
        assert (Hall : forall acc x, In x xs -> f acc x <> None);
          [| destruct (@reduce_throw_returns _ _ f xs Hall a) as [r Hr]]
    end.
    + intros acc [s' j] Hj. apply indexed_bound in Hj. cbn [fst snd].
      specialize (Hc i j Hi Hj).
      destruct (entry hamiltonian i j); [discriminate | contradiction].
    + rewrite Hr. discriminate.
  - exists ys. split; [exact Hys |].
    rewrite Hlen. apply QAOAFacts.indexed_length.
Qed.

Lemma evolveState_throws (st : list Complex) (hamiltonian : Matrix)
      (dt : number) (i j : nat) :
  (i < length st)%nat -> (j < length st)%nat ->
  entry hamiltonian i j = None ->
  evolveState st hamiltonian dt = None.
Proof.
  intros Hi Hj He. unfold evolveState.
  destruct (indexed_has st Hi) as [si Hsi].
  destruct (indexed_has st Hj) as [sj Hsj].
  apply (@map_throw_throws _ _ _ _ (si, i) Hsi). cbn [snd].
  apply (@reduce_throw_throws _ _ _ _ (sj, j) Hsj).
  intros acc. cbn [fst snd]. now rewrite He.
Qed.

(** X27.  [imaginaryTimeEvolution] returns, with a state of the length of
    the initial state, when there is no round to perform or when the
    Hamiltonian has every entry [H[i][j]] with [i, j] below that
    length (more rows or longer rows do no harm); it throws in its
    first round when there is a round and one of these entries is
    missing. *)
Theorem imaginaryTimeEvolution_throws
        (hamiltonian : Matrix) (initialState : list Complex)
        (evolutionTime : number) (timeSteps : nat) :
  (timeSteps = 0%nat \/ covers (length initialState) hamiltonian ->
   exists st,
     imaginaryTimeEvolution hamiltonian initialState evolutionTime timeSteps
     = Some st
     /\ length st = length initialState)
  /\ ((1 <= timeSteps)%nat ->
      (exists i j, (i < length initialState)%nat
                   /\ (j < length initialState)%nat
                   /\ entry hamiltonian i j = None) ->
      imaginaryTimeEvolution hamiltonian initialState evolutionTime timeSteps
      = None).
Proof.
  unfold imaginaryTimeEvolution.
  set (dt := evolutionTime ./ JS.of_nat timeSteps). clearbody dt.
  split.
  - intros Hok. revert initialState Hok.
    induction timeSteps as [| K IH]; intros st Hok.
    + exists st. split; reflexivity.
    + destruct Hok as [E | Hc]; [discriminate E |].
      cbn [evolutionLoop].
      destruct (@evolveState_returns st hamiltonian dt Hc)
        as (st1 & -> & Hlen1).
      destruct (IH (normalizeState st1)) as (st2 & Hst2 & Hlen2).
      * right. now rewrite EvolutionFacts.normalizeState_length, Hlen1.
      * exists st2. split; [exact Hst2 |].
        now rewrite Hlen2, EvolutionFacts.normalizeState_length.
  - intros HK (i & j & Hi & Hj & He).
    destruct timeSteps as [| K]; [lia |]. cbn [evolutionLoop].
    now rewrite (@evolveState_throws initialState hamiltonian dt i j Hi Hj He).
Qed.

Lemma imaginaryTimeEvolution_throws_witness :
  let ragged := [[mkComplex (Fin 1) (Fin 0); mkComplex (Fin 0) (Fin 0)];
                 [mkComplex (Fin 0) (Fin 0)]] in
  let wide := [[mkComplex (Fin 1) (Fin 0); mkComplex (Fin 0) (Fin 0);
                mkComplex (Fin 5) (Fin 0)];
               [mkComplex (Fin 0) (Fin 0); mkComplex (Fin 1) (Fin 0)]] in
  let initialState := [mkComplex (Fin 1) (Fin 0); mkComplex (Fin 0) (Fin 0)] in
  (exists st,
      imaginaryTimeEvolution wide initialState (Fin 1) 2 = Some st
      /\ length st = length initialState)
  /\ imaginaryTimeEvolution ragged initialState (Fin 1) 2 = None.
Proof.
  intros ragged wide initialState. split.
  - apply (@imaginaryTimeEvolution_throws wide initialState (Fin 1) 2%nat).
    right. intros [| [| i]] [| [| j]] Hi Hj; simpl in Hi, Hj;
      try lia; discriminate.
  - apply (@imaginaryTimeEvolution_throws ragged initialState (Fin 1) 2%nat).
    + lia.
    + exists 1%nat, 1%nat. repeat split; simpl; lia.
Defined.

(** *** The evolution time has no influence *)

Lemma weighted_sum_inject (dt : R) (hs : list (R * R)) :
  forall (zs : list (R * R)) (acc : R * R),
    weighted_sum (map inject hs) (map inject zs) (Fin dt) (inject acc)
    = inject (fst acc + fst (cdot hs zs) * dt,
              snd acc + snd (cdot hs zs) * dt).
Proof.
  unfold weighted_sum.
  induction hs as [| h hs IH]; intros zs acc.
  - cbn [map combine fold_left cdot fst snd]. unfold inject. cbn [fst snd].
    f_equal; f_equal; ring.
  - destruct zs as [| z zs].
    + cbn [map combine fold_left cdot fst snd]. unfold inject. cbn [fst snd].
      f_equal; f_equal; ring.
    + cbn [map combine fold_left cdot fst snd].
      replace (cadd (inject acc) (cscale (cmul (inject h) (inject z)) (Fin dt)))
        with (inject (fst acc + (fst h * fst z - snd h * snd z) * dt,
                      snd acc + (fst h * snd z + snd h * fst z) * dt))
        by reflexivity.
      rewrite IH. unfold inject. cbn [fst snd]. f_equal; f_equal; ring.
Qed.

Lemma product_step_inject (dt : R) (Hz : list (list (R * R)))
      (zs : list (R * R)) :
  product_step (map (map inject) Hz) (map inject zs) (Fin dt)
  = map inject (map (fun hs => (fst (cdot hs zs) * dt, snd (cdot hs zs) * dt))
                    Hz).
Proof.
  unfold product_step. rewrite !map_map. apply map_ext. intros hs.
  change zero with (inject (0, 0)). rewrite weighted_sum_inject.
  unfold inject. cbn [fst snd]. f_equal; f_equal; ring.
Qed.

Lemma sum_squares_times (dt : R) (vs : list (R * R)) :
  forall acc : R,
    sum_squares (map (fun v => (fst v * dt, snd v * dt)) vs) (acc * (dt * dt))
    = sum_squares vs acc * (dt * dt).
Proof.
  induction vs as [| v vs IH]; intros acc; cbn [map sum_squares fst snd].
  - reflexivity.
  - rewrite <- IH. f_equal. ring.
Qed.

Lemma sum_squares_zero (vs : list (R * R)) :
  forall acc : R,
    0 <= acc -> sum_squares vs acc = 0 ->
    Forall (fun v => fst v = 0 /\ snd v = 0) vs.
Proof.
  induction vs as [| v vs IH]; intros acc Hacc Hs; constructor.
  - cbn [sum_squares] in Hs.
    pose proof (EvolutionFacts.sum_squares_ge vs
                  (acc + fst v * fst v + snd v * snd v)) as Hge.
    assert (H1 : 0 <= fst v * fst v) by nra.
    assert (H2 : 0 <= snd v * snd v) by nra.
    assert (fst v * fst v = 0) by lra.
    assert (snd v * snd v = 0) by lra.
    split; nra.
  - cbn [sum_squares] in Hs.
    apply (IH (acc + fst v * fst v + snd v * snd v)); [nra | exact Hs].
Qed.

(** What the renormalization makes of a finite vector: the vector over
    its norm, or [NaN] everywhere when the vector is zero. *)
Lemma normalizeState_inject (vs : list (R * R)) :
  normalizeState (map inject vs)
  = if Req_dec_T (sum_squares vs 0) 0
    then repeat nan_complex (length vs)
    else map inject
             (map (fun v => (fst v / sqrt (sum_squares vs 0),
                             snd v / sqrt (sum_squares vs 0))) vs).
Proof.
  unfold normalizeState. rewrite EvolutionFacts.fold_sum_squares.
  pose proof (EvolutionFacts.sum_squares_ge vs 0) as Hge.
  rewrite JSFacts.sqrt_Fin by exact Hge.
  destruct (Req_dec_T (sum_squares vs 0) 0) as [E | E].
  - pose proof (@sum_squares_zero vs 0 (Rle_refl 0) E) as Hz.
    rewrite E, sqrt_0. clear E Hge.
    induction vs as [| v vs IH]; [reflexivity |].
    inversion Hz as [| ? ? [Hr Hi] Hz']; subst.
    cbn [map length repeat]. rewrite IH by exact Hz'. f_equal.
    unfold inject, nan_complex. cbn [real imag]. rewrite Hr, Hi.
    cbn [JS.div]. rewrite JSFacts.Reqb_true by reflexivity.
    unfold JS.inf_times. rewrite JSFacts.Reqb_true by reflexivity.
    reflexivity.
  - assert (Hs : sqrt (sum_squares vs 0) <> 0).
    { intros H0. apply sqrt_eq_0 in H0; [contradiction | exact Hge]. }
    rewrite !map_map. apply map_ext. intros v.
    unfold inject. cbn [real imag fst snd].
    now rewrite !JSFacts.div_Fin by exact Hs.
Qed.

(** A round on a finite state does not depend on a positive [dt]. *)
Lemma round_on_finite (dt : R) (Hz : list (list (R * R)))
      (zs : list (R * R)) :
  0 < dt ->
  normalizeState
    (product_step (map (map inject) Hz) (map inject zs) (Fin dt))
  = normalizeState (map inject (map (fun hs => cdot hs zs) Hz)).
Proof.
  intros Hdt. rewrite product_step_inject.
  set (vs := map (fun hs => cdot hs zs) Hz).
  replace (map (fun hs => (fst (cdot hs zs) * dt, snd (cdot hs zs) * dt)) Hz)
    with (map (fun v => (fst v * dt, snd v * dt)) vs)
    by (unfold vs; now rewrite map_map).
  rewrite !normalizeState_inject, length_map.
  pose proof (@sum_squares_times dt vs 0) as Hsc.
  rewrite Rmult_0_l in Hsc. rewrite Hsc.
  pose proof (EvolutionFacts.sum_squares_ge vs 0) as Hge.
  set (S := sum_squares vs 0) in *.
  destruct (Req_dec_T (S * (dt * dt)) 0) as [E | E];
    destruct (Req_dec_T S 0) as [E' | E']; try reflexivity.
  - exfalso. apply E'. assert (0 < dt * dt) by nra. nra.
  - exfalso. apply E. rewrite E'. ring.
  - assert (Hsq : sqrt (S * (dt * dt)) = sqrt S * dt).
    { rewrite sqrt_mult by nra. f_equal. apply sqrt_square. lra. }
    rewrite Hsq.
    assert (Hs : sqrt S <> 0).
    { intros H0. apply sqrt_eq_0 in H0; [contradiction | exact Hge]. }
    rewrite !map_map. apply map_ext. intros v. cbn [fst snd].
    unfold inject. cbn [fst snd]. f_equal; f_equal; field; lra.
Qed.

Lemma weighted_sum_nan (dt : number) (row st : list Complex) :
  weighted_sum row st dt nan_complex = nan_complex.
Proof.
  unfold weighted_sum. induction (combine row st) as [| hs l IH];
    [reflexivity |].
  cbn [fold_left]. exact IH.
Qed.

Lemma product_step_nan (dt : number) (n : nat) (hamiltonian : Matrix) :
  (1 <= n)%nat -> square n hamiltonian ->
  product_step hamiltonian (repeat nan_complex n) dt = repeat nan_complex n.
Proof.
  intros Hn [Hlen Hrows]. unfold product_step.
  assert (G : map (fun row => weighted_sum row (repeat nan_complex n) dt zero)
                  hamiltonian
              = repeat nan_complex (length hamiltonian));
    [| now rewrite G, Hlen].
  clear Hlen.
  induction Hrows as [| row rows Hrow _ IH]; [reflexivity |].
  cbn [map length repeat]. rewrite IH. f_equal.
  destruct row as [| h row]; [simpl in Hrow; lia |].
  destruct n as [| n]; [lia |].
  unfold weighted_sum. cbn [repeat combine fold_left fst snd].
  replace (cadd zero (cscale (cmul h nan_complex) dt)) with nan_complex.
  - exact (@weighted_sum_nan dt row (repeat nan_complex n)).
  - unfold cadd, cscale, cmul, nan_complex, zero. cbn [real imag].
    destruct (real h), (imag h), dt; reflexivity.
Qed.

Lemma normalizeState_nan (n : nat) :
  normalizeState (repeat nan_complex n) = repeat nan_complex n.
Proof.
  unfold normalizeState.
  generalize (JS.sqrt
                (fold_left
                   (fun acc s => acc .+ real s .* real s .+ imag s .* imag s)
                   (repeat nan_complex n) (Fin 0))) as norm.
  intros norm. induction n as [| n IH]; [reflexivity |].
  cbn [repeat map]. rewrite IH. reflexivity.
Qed.

(** The states a round can meet: finite, or [NaN] everywhere. *)
Lemma rounds_agree (Hz : list (list (R * R))) (n : nat) (dt dt' : R) :
  square n (map (map inject) Hz) -> 0 < dt -> 0 < dt' ->
  forall (K : nat) (st : list Complex),
    (exists zs, st = map inject zs)
    \/ ((1 <= n)%nat /\ st = repeat nan_complex n) ->
    iterate (fun st =>
               normalizeState
                 (product_step (map (map inject) Hz) st (Fin dt))) K st
    = iterate (fun st =>
                 normalizeState
                   (product_step (map (map inject) Hz) st (Fin dt'))) K st.
Proof.
  intros Hsq Hdt Hdt'. induction K as [| K IH]; intros st Hst;
    [reflexivity |].
  cbn [iterate].
  assert (Hround :
    normalizeState (product_step (map (map inject) Hz) st (Fin dt))
    = normalizeState (product_step (map (map inject) Hz) st (Fin dt'))
    /\ ((exists zs,
            normalizeState (product_step (map (map inject) Hz) st (Fin dt'))
            = map inject zs)
        \/ ((1 <= n)%nat
            /\ normalizeState
                 (product_step (map (map inject) Hz) st (Fin dt'))
               = repeat nan_complex n))).
  { destruct Hst as [[zs ->] | [Hn ->]].
    - rewrite !round_on_finite by assumption. split; [reflexivity |].
      rewrite normalizeState_inject.
      destruct (Req_dec_T _ 0); [| left; eexists; reflexivity].
      rewrite length_map.
      destruct Hsq as [Hlen _]. rewrite length_map in Hlen. rewrite Hlen.
      destruct n as [| n]; [left; now exists [] | right].
      split; [lia | reflexivity].
    - rewrite !product_step_nan by assumption.
      split; [reflexivity | right]. split; [exact Hn |].
      apply normalizeState_nan. }
  destruct Hround as [-> Hnext]. now apply IH.
Qed.

(** X28.  On a finite [n]-by-[n] Hamiltonian and a finite state of length
    [n], the state that [imaginaryTimeEvolution] returns is the same
    for all positive evolution times: a round multiplies the state by
    [H * dt] and divides by the norm, which cancels [dt]. *)
Theorem imaginaryTimeEvolution_ignores_time
        (Hz : list (list (R * R))) (zs : list (R * R)) (T T' : R)
        (timeSteps : nat) :
  square (length zs) (map (map inject) Hz) -> 0 < T -> 0 < T' ->
  imaginaryTimeEvolution (map (map inject) Hz) (map inject zs) (Fin T)
                         timeSteps
  = imaginaryTimeEvolution (map (map inject) Hz) (map inject zs) (Fin T')
                           timeSteps.
Proof.
  intros Hsq HT HT'. unfold imaginaryTimeEvolution.
  destruct timeSteps as [| K]; [reflexivity |].
  assert (HK : 0 < INR (S K)) by (apply lt_0_INR; lia).
  unfold JS.of_nat. rewrite !JSFacts.div_Fin by lra.
  assert (Hsq' : square (length (map inject zs)) (map (map inject) Hz))
    by now rewrite length_map.
  rewrite !(@EvolutionFacts.evolutionLoop_product _ _ (S K) _ Hsq').
  f_equal. apply (@rounds_agree Hz (length zs)); try assumption.
  - apply Rmult_lt_0_compat; [lra | now apply Rinv_0_lt_compat].
  - apply Rmult_lt_0_compat; [lra | now apply Rinv_0_lt_compat].
  - left. now exists zs.
Qed.

Lemma imaginaryTimeEvolution_ignores_time_witness :
  let Hz := [[(0, 0); (1, 0)]; [(1, 0); (0, 0)]] in
  let zs := [(1, 0); (0, 0)] in
  imaginaryTimeEvolution (map (map inject) Hz) (map inject zs) (Fin 0.5) 3
  = imaginaryTimeEvolution (map (map inject) Hz) (map inject zs) (Fin 40) 3.
Proof.
  intros Hz zs.
  apply (@imaginaryTimeEvolution_ignores_time Hz zs 0.5 40 3%nat).
  - split; [reflexivity | repeat constructor].
  - lra.
  - lra.
Defined.

End EvolutionMoreFacts.

(** ** Shapes the natural gradient accepts *)

Module GradientMoreFacts.

Import QuantumOptimizer Props.
Open Scope R_scope.
Open Scope js_scope.

Lemma entry_outside (n k : nat) (m : Matrix) (i j : nat) :
  (n <= i)%nat \/ (n <= j)%nat -> entry (diagonal_inverse n k m) i j = None.
Proof.
  intros Hout. unfold entry, diagonal_inverse.
  destruct (Nat.lt_ge_cases i n) as [Hi | Hi].
  - rewrite (GradientFacts.nth_error_map_seq _ 0 Hi).
    apply nth_error_None. rewrite length_map, length_seq. lia.
  - replace (nth_error _ i) with (@None (list Complex)); [reflexivity |].
    symmetry. apply nth_error_None. rewrite length_map, length_seq. lia.
Qed.

Lemma quantumNaturalGradient_shapes
      (n : nat) (parameters : list number) (quantumFisher : Matrix)
      (gradient : list number) :
  square n quantumFisher ->
  (exists r, quantumNaturalGradient parameters quantumFisher gradient = Some r
             /\ length r = length parameters)
  <-> (parameters = [] \/ gradient = []
       \/ ((length parameters <= n)%nat /\ (length gradient <= n)%nat)).
Proof.
  intros Hsq.
  pose proof (GradientFacts.regularize_square Hsq) as Hreg.
  pose proof (GradientFacts.inverseMatrix_square Hreg) as Hinv.
  unfold quantumNaturalGradient. rewrite Hinv.
  set (inverse := diagonal_inverse n n (regularizeQuantumFisher quantumFisher)).
  set (update := fun i : nat =>
         reduce_throw
           (fun update j =>
              let? inv_ij := entry inverse i j in
              Some (update .+ real inv_ij .* JS.array_get gradient j))
           (List.seq 0 (length gradient)) (Fin 0)).
  assert (Hgood : forall i, (gradient = [] \/ ((i < n)%nat
                                              /\ (length gradient <= n)%nat)) ->
                            update i <> None).
  { intros i Hi. unfold update.
    match goal with
    | |- reduce_throw ?f ?xs ?a <> None =>
        assert (Hall : forall acc x, In x xs -> f acc x <> None);
          [| destruct (@EvolutionMoreFacts.reduce_throw_returns
                         _ _ f xs Hall a) as [r Hr];
             rewrite Hr; discriminate]
    end.
    intros acc j Hj. apply in_seq in Hj.
    destruct Hi as [-> | [Hin Hg]]; [simpl in Hj; lia |].
    unfold inverse. rewrite GradientFacts.entry_diagonal_inverse by lia.
    discriminate. }
  assert (Hbad : forall i j, (j < length gradient)%nat ->
                             (n <= i)%nat \/ (n <= j)%nat ->
                             update i = None).
  { intros i j Hj Hout. unfold update.
    apply (@EvolutionMoreFacts.reduce_throw_throws _ _ _ _ j).
    - apply in_seq. lia.
    - intros acc. unfold inverse. now rewrite entry_outside. }
  split.
  - intros (r & Hr & _).
    destruct parameters as [| p0 ps]; [now left |].
    destruct gradient as [| g0 gs]; [right; now left |].
    right. right.
    destruct (Nat.le_gt_cases (length (g0 :: gs)) n) as [Hg | Hg].
    + destruct (Nat.le_gt_cases (length (p0 :: ps)) n) as [Hp | Hp];
        [now split | exfalso].
      destruct (@EvolutionMoreFacts.indexed_has _ (p0 :: ps) n Hp)
        as [x Hx].
      rewrite (@EvolutionMoreFacts.map_throw_throws _ _ _ _ (x, n) Hx) in Hr;
        [discriminate |].
      cbn [fst snd]. fold (update n).
      rewrite (Hbad n 0%nat); [reflexivity | simpl; lia | left; lia].
    + exfalso.
      rewrite (@EvolutionMoreFacts.map_throw_throws _ _ _ _ (p0, 0%nat)) in Hr;
        [discriminate | now left |].
      cbn [fst snd]. fold (update 0%nat).
      rewrite (Hbad 0%nat n); [reflexivity | exact Hg | right; lia].
  - intros Hshape.
    match goal with
    | |- exists r, map_throw ?f ?xs = Some r /\ _ =>
        destruct (@EvolutionMoreFacts.map_throw_returns _ _ f xs)
          as (r & Hr & Hlen)
    end.
    + intros [x i] Hin. cbn [fst snd]. fold (update i).
      apply EvolutionMoreFacts.indexed_bound in Hin.
      destruct (update i) as [u |] eqn:Hu; [discriminate |].
      exfalso. revert Hu. apply Hgood.
      destruct Hshape as [-> | [-> | [Hp Hg]]];
        [simpl in Hin; lia | now left | right; split; lia].
    + exists r. split; [exact Hr |].
      rewrite Hlen. apply QAOAFacts.indexed_length.
Qed.

(** X29.  On an [n]-by-[n] Fisher matrix, [quantumNaturalGradient] returns
    (one number per parameter) exactly when there is no parameter, or
    no gradient entry, or neither the parameters nor the gradient are
    longer than [n]; otherwise it throws on an entry of the inverse
    that does not exist. *)
Theorem quantumNaturalGradient_returns_iff
      (n : nat) (parameters : list number) (quantumFisher : Matrix)
      (gradient : list number) :
  square n quantumFisher ->
  (exists r, quantumNaturalGradient parameters quantumFisher gradient = Some r
             /\ length r = length parameters)
  <-> (parameters = [] \/ gradient = []
       \/ ((length parameters <= n)%nat /\ (length gradient <= n)%nat)).
Proof. exact (@quantumNaturalGradient_shapes n parameters quantumFisher gradient). Qed.

Lemma quantumNaturalGradient_returns_iff_witness :
  let fisher := [[mkComplex (Fin 2) (Fin 0)]] in
  (exists r, quantumNaturalGradient [Fin 1; Fin 2] fisher [Fin 0.5] = Some r
             /\ length r = length [Fin 1; Fin 2])
  <-> ([Fin 1; Fin 2] = [] \/ [Fin 0.5] = []
       \/ ((length [Fin 1; Fin 2] <= 1)%nat /\ (length [Fin 0.5] <= 1)%nat)).
Proof.
  intros fisher.
  apply (@quantumNaturalGradient_returns_iff 1 [Fin 1; Fin 2] fisher [Fin 0.5]).
  split; [reflexivity | repeat constructor].
Defined.

End GradientMoreFacts.

(** ** The probability that a measurement reports *)

Module FidelityFacts.

Import QuantumProcessor Props.
Open Scope R_scope.
Open Scope js_scope.

(** The factor between the confidence and the probability of a
    report: [(1 - 0.001) * (1 - T k_B / (h * 1e9))]. *)
Lemma fidelity_factor_value :
  0.686 < (1 - 0.001) * (1 - 0.015 * 1.380649e-23 / (6.62607015e-34 * 1e9))
  < 0.687.
Proof. lra. Qed.

(** X30.  The probability in the report of [measure] is the confidence in
    the same report times a constant between 0.686 and 0.687: on a
    processor with the standard decoherence model and a coherence in
    (0, 1], it is positive and below 0.687. *)
Theorem measure_probability (rnd : Rand.source) (p : t) (c : R) (k : nat) :
  decoherenceModel p = standardModel ->
  coherence (this_state p) = Fin c ->
  0 < c <= 1 ->
  let r := fst (fst (measure rnd p k)) in
  exists conf prob,
    confidence r = Fin conf /\ probability r = Fin prob
    /\ 0.686 * conf < prob < 0.687 * conf
    /\ 0 < prob < 0.687.
Proof.
  intros Hm Hc Hr r. subst r. unfold measure, Rand.bind.
  rewrite (@ProcessorFacts.applyDecoherenceEffects_state p _ Hm Hc).
  destruct (Rand.mapM _ _ k) as [qs k1].
  destruct (calculateSystemEnergy rnd _ k1) as [e k2].
  destruct (calculateExecutionTime rnd k2) as [time k3].
  unfold Rand.ret. cbn [fst snd confidence probability].
  unfold calculateMeasurementFidelity.
  cbn [this_state set_state set_coherence coherence decoherenceModel].
  rewrite Hm.
  unfold standardModel, temperature, boltzmannConstant, planckConstant.
  cbn [environmentalNoise JS.mul JS.sub].
  rewrite JSFacts.div_Fin by lra. cbn [JS.sub JS.mul].
  pose proof ProcessorFacts.decay_bounds as Hd.
  assert (Hconf : 0 < c * dephasing * thermal <= 1).
  { rewrite Rmult_assoc. split; [apply Rmult_lt_0_compat; lra | nra]. }
  set (conf := c * dephasing * thermal) in *.
  pose proof fidelity_factor_value as Hf.
  set (f1 := 1 - 0.001) in *.
  set (f2 := 1 - 0.015 * 1.380649e-23 / (6.62607015e-34 * 1e9)) in *.
  exists conf, (conf * f1 * f2). split; [reflexivity |].
  split; [reflexivity |].
  rewrite Rmult_assoc. nra.
Qed.

Lemma measure_probability_witness :
  let p := mkProcessor (mkQuantumState [Fin 0; Fin 0] false (Fin 0) (Fin 1))
                       standardModel in
  let r := fst (fst (measure zeros p 0%nat)) in
  exists conf prob,
    confidence r = Fin conf /\ probability r = Fin prob
    /\ 0.686 * conf < prob < 0.687 * conf
    /\ 0 < prob < 0.687.
Proof.
  intros p.
  apply (@measure_probability zeros p 1 0%nat); [reflexivity | reflexivity | lra].
Defined.

End FidelityFacts.
